(** * term-player: frame pipeline and playback state machine

A shallow embedding of the JavaScript sources of term-player
(FrameSet, Frame, Paint, Color, Dimension, Player, Display and
Controller) together with the properties of its specification.

Conventions of the embedding:
- a JavaScript object with mutable fields is a record, and a method
  is a function from the state before the call to the outcome of the
  call paired with the state after it;
- [throw] is the outcome [Thrown], a settled promise is an outcome
  too ([Returned] for resolved, [Thrown] for rejected);
- [EventEmitter.emit] appends to a log of emitted events, listeners
  are not part of the embedding;
- objects that are shared by reference (frames, frame sets) live in
  a store and are named by their address. *)

From Stdlib Require Import ZArith QArith Lia Lqa List String Ascii Bool.
From Stdlib Require Import DecimalString Qround Qpower.
From Stdlib Require DecimalPos DecimalZ.
From stdpp Require Import base option gmap strings.

Import ListNotations.
Local Open Scope Z_scope.

(** ** Outcomes of calls *)

Inductive outcome (A : Type) : Type :=
| Returned (a : A)
| Thrown (message : string).
Arguments Returned {A} a.
Arguments Thrown {A} message.

Definition is_thrown {A} (o : outcome A) : bool :=
  match o with Thrown _ => true | Returned _ => false end.

(** ** Array.prototype.slice

[slice(begin, end)] on an array of length [len]: an absent bound
defaults to [0] and [len], a negative bound counts from the end, and
both are clamped to [0..len]. *)

Definition slice_bound (len : Z) (dflt : Z) (b : option Z) : Z :=
  match b with
  | None => dflt
  | Some k => if k <? 0 then Z.max (len + k) 0 else Z.min k len
  end.

Definition js_slice {A} (l : list A) (begin end_ : option Z) : list A :=
  let len := Z.of_nat (List.length l) in
  let k := slice_bound len 0 begin in
  let final := slice_bound len len end_ in
  firstn (Z.to_nat (Z.max (final - k) 0)) (skipn (Z.to_nat k) l).

(** ** FrameSet (src/frame/FrameSet.js) *)

Module FrameSet.
Section WithFrame.

Context {Frame : Type}.

Inductive Event : Type :=
| EvAdd (frame : Frame)
| EvFinalize
| EvNext (frame : Frame).

(** The three private fields of the class and the log of the events it
    has emitted. *)
Record t : Type := mk {
  _finalized : bool;
  _frames : list Frame;
  _totalLength : Z;
  emitted : list Event
}.

(** [constructor(frames)]: [frames ? frames.slice() : []]; an array is
    truthy even when it is empty. *)
Definition constructor (frames : option (list Frame)) : t :=
  {| _finalized := false;
     _frames := match frames with Some fs => fs | None => [] end;
     _totalLength := 0;
     emitted := [] |}.

Definition finalized (s : t) : bool := _finalized s.
Definition length (s : t) : Z := Z.of_nat (List.length (_frames s)).
Definition totalLength (s : t) : Z := _totalLength s.

Definition add (frame : Frame) (s : t) : outcome unit * t :=
  if finalized s then
    (Thrown "Cannot add to frame set which has been finalized", s)
  else
    (Returned tt,
     {| _finalized := _finalized s;
        _frames := _frames s ++ [frame];
        _totalLength := _totalLength s + 1;
        emitted := emitted s ++ [EvAdd frame] |}).

Definition finalize (s : t) : outcome unit * t :=
  if _finalized s then (Returned tt, s)
  else
    (Returned tt,
     {| _finalized := true;
        _frames := _frames s;
        _totalLength := _totalLength s;
        emitted := emitted s ++ [EvFinalize] |}).

Definition hasNext (s : t) : bool := 0 <? Z.of_nat (List.length (_frames s)).

Definition next (s : t) : outcome Frame * t :=
  if negb (hasNext s) then (Thrown "No more frames in set", s)
  else
    match _frames s with
    | frame :: rest =>
        (Returned frame,
         {| _finalized := _finalized s;
            _frames := rest;
            _totalLength := _totalLength s;
            emitted := emitted s ++ [EvNext frame] |})
    | [] => (Thrown "No more frames in set", s)
    end.

(** [subSet(begin, end)] builds a new object and leaves the receiver
    as it is. *)
Definition subSet (begin end_ : option Z) (s : t) : t :=
  let frameSet := constructor (Some (js_slice (_frames s) begin end_)) in
  let frameSet :=
    {| _finalized := _finalized frameSet;
       _frames := _frames frameSet;
       _totalLength := length frameSet;
       emitted := emitted frameSet |} in
  if _finalized s then
    {| _finalized := true;
       _frames := _frames frameSet;
       _totalLength := _totalLength frameSet;
       emitted := emitted frameSet |}
  else frameSet.

(** *** Sequences of operations on one frame set *)

Inductive op : Type :=
| OpAdd (frame : Frame)
| OpFinalize
| OpHasNext
| OpNext.

Definition step (o : op) (s : t) : t :=
  match o with
  | OpAdd frame => snd (add frame s)
  | OpFinalize => snd (finalize s)
  | OpHasNext => s
  | OpNext => snd (next s)
  end.

Definition run (ops : list op) (s : t) : t :=
  fold_left (fun acc o => step o acc) ops s.

(** Number of [add] calls of [ops] that return instead of throwing. *)
Fixpoint successfulAdds (ops : list op) (s : t) : Z :=
  match ops with
  | [] => 0
  | o :: rest =>
      (match o with
       | OpAdd frame => if is_thrown (fst (add frame s)) then 0 else 1
       | _ => 0
       end) + successfulAdds rest (step o s)
  end.

(** The ways of obtaining a frame set: the constructor, or [subSet] on
    a frame set that was itself obtained and operated on. *)
Inductive construction : Type :=
| New (frames : option (list Frame))
| SubSetOf (parent : construction) (ops : list op) (begin end_ : option Z).

Fixpoint build (c : construction) : t :=
  match c with
  | New frames => constructor frames
  | SubSetOf parent ops begin end_ => subSet begin end_ (run ops (build parent))
  end.

(** A construction that does not hand a non-empty array to the public
    constructor. *)
Definition startsCounted (c : construction) : Prop :=
  match c with
  | New (Some (_ :: _)) => False
  | _ => True
  end.

(** *** What the log of events tells

    The frames the "add" events carry, those the "next" events carry,
    and the number of "finalize" events. *)

Definition added (log : list Event) : list Frame :=
  flat_map (fun e => match e with EvAdd frame => [frame] | _ => [] end) log.

Definition handedOut (log : list Event) : list Frame :=
  flat_map (fun e => match e with EvNext frame => [frame] | _ => [] end) log.

Definition finalizations (log : list Event) : nat :=
  List.length
    (List.filter (fun e => match e with EvFinalize => true | _ => false end) log).

(** The operands of the ratio that the status "Frames" of the display
    formats as a percentage (src/display/Display.js, [Display[_statuses]]):
    [current = total - length] over [total = totalLength], for a frame
    set that is finalized. *)
Definition progress (s : t) : option (Z * Z) :=
  if finalized s then
    let total := totalLength s in
    let current := total - length s in
    Some (current, total)
  else None.

End WithFrame.
Arguments t : clear implicits.
Arguments op : clear implicits.
Arguments construction : clear implicits.
End FrameSet.

(** ** JavaScript values that reach the colour code

Numbers are the integers the pipeline works with (bytes of a
[Uint8Array], palette indices, the transparency marker [-1]). *)

Inductive value : Type :=
| JUndefined
| JNull
| JNum (n : Z)
| JStr (s : string).

Definition dec (n : Z) : string := NilZero.string_of_int (Z.to_int n).

(** Template-literal conversion [`${v}`]. *)
Definition to_string (v : value) : string :=
  match v with
  | JUndefined => "undefined"
  | JNull => "null"
  | JNum n => dec n
  | JStr s => s
  end.

(** [ToNumber]; [None] stands for [NaN]. A string is read as a decimal
    integer literal, the only strings the program builds from numbers. *)
Definition to_number (v : value) : option Z :=
  match v with
  | JUndefined => None
  | JNull => Some 0
  | JNum n => Some n
  | JStr s => option_map Z.of_int (NilZero.int_of_string s)
  end.

(** [v < n] and [v >= n] against a number literal: false on [NaN]. *)
Definition js_lt (v : value) (n : Z) : bool :=
  match to_number v with Some k => k <? n | None => false end.

Definition js_ge (v : value) (n : Z) : bool :=
  match to_number v with Some k => n <=? k | None => false end.

(** Strict equality [===]. *)
Definition strict_eq (a b : value) : bool :=
  match a, b with
  | JUndefined, JUndefined => true
  | JNull, JNull => true
  | JNum x, JNum y => x =? y
  | JStr s, JStr u => String.eqb s u
  | _, _ => false
  end.

(** [String.prototype.split] with a one-character separator. *)
Fixpoint split_on (sep : ascii) (s : string) : list string :=
  match s with
  | EmptyString => [EmptyString]
  | String c rest =>
      if Ascii.eqb c sep then EmptyString :: split_on sep rest
      else
        match split_on sep rest with
        | w :: ws => String c w :: ws
        | [] => [String c EmptyString]
        end
  end.

(** The string has no comma. *)
Fixpoint noComma (s : string) : bool :=
  match s with
  | EmptyString => true
  | String c rest => negb (Ascii.eqb c ",") && noComma rest
  end.

(** Array read [a[i]]: [undefined] past the end. *)
Definition js_nth (a : list value) (i : nat) : value :=
  nth i a JUndefined.

Definition ESC : ascii := ascii_of_nat 27.

(** ** Dimension (src/Dimension.js) *)

Module Dimension.

Record t : Type := mk { _width : Z; _height : Z }.

(** [width ? Math.abs(width) : 0]; [0] is falsy and [Math.abs(0) = 0]. *)
Definition constructor (width height : Z) : t :=
  {| _width := if width =? 0 then 0 else Z.abs width;
     _height := if height =? 0 then 0 else Z.abs height |}.

Definition width (d : t) : Z := _width d.
Definition height (d : t) : Z := _height d.
Definition area (d : t) : Z := width d * height d.

Definition toString (d : t) : string :=
  (dec (width d) ++ "x" ++ dec (height d))%string.

End Dimension.

(** ** Color (src/Color.js) *)

Module Color.

Record t : Type := mk {
  _red : value;
  _green : value;
  _blue : value;
  _alpha : value
}.

(** [alpha != null ? alpha : 255] *)
Definition constructor (red green blue alpha : value) : t :=
  {| _red := red;
     _green := green;
     _blue := blue;
     _alpha := match alpha with
               | JUndefined | JNull => JNum 255
               | _ => alpha
               end |}.

Definition red (c : t) : value := _red c.
Definition green (c : t) : value := _green c.
Definition blue (c : t) : value := _blue c.
Definition alpha (c : t) : value := _alpha c.

Definition closeAnsi : string := String ESC "[39m".

Definition openAnsi (code : value) : string :=
  (String ESC "[38;5;" ++ to_string code ++ "m")%string.

Definition isAnsiGrayscale (code : value) : bool :=
  js_ge code 232 || strict_eq code (JNum 59) || strict_eq code (JNum 16).

Definition serialize (color : option t) : option string :=
  match color with
  | None => None
  | Some c =>
      Some (to_string (red c) ++ "," ++ to_string (green c) ++ ","
            ++ to_string (blue c) ++ "," ++ to_string (alpha c))%string
  end.

Definition part (rgb : list string) (i : nat) : value :=
  match nth_error rgb i with
  | Some s => JStr s
  | None => JUndefined
  end.

Definition deserialize (color : option string) : option t :=
  match color with
  | None => None
  | Some s =>
      let rgb := split_on "," s in
      Some (constructor (part rgb 0) (part rgb 1) (part rgb 2) (part rgb 3))
  end.

Definition hasTransparency (c : t) : bool := js_lt (alpha c) 255.

Section ToAnsi.

(** [convert.rgb.ansi256] of the color-convert package, an external
    dependency: a function of the three colour components to a
    palette index. *)
Variable ansi256 : value -> value -> value -> Z.

(** The process-wide [Color[_ansiCache]] is threaded as state. *)
Definition toAnsi (c : t) (ansiCache : gmap string Z)
  : Z * gmap string Z :=
  let serialized := default EmptyString (serialize (Some c)) in
  match ansiCache !! serialized with
  | Some ansiColor => (ansiColor, ansiCache)
  | None =>
      let ansiColor := ansi256 (red c) (green c) (blue c) in
      (ansiColor, <[serialized := ansiColor]> ansiCache)
  end.

End ToAnsi.

End Color.

(** ** Paint (src/frame/Paint.js) *)

Module Paint.

Definition ASCII_CHARACTER : string := "#".
Definition TRANSPARENT_ANSI : Z := -1.

(** A colour count of one "pixel area": the object
    [{ [code]: count, ... }]. It is kept as the list of its own
    properties in the order [Object.keys] visits them, and
    [parseInt(String(code), 10)] being [code] for the integer codes
    that are counted, a key is kept as that integer. *)
Definition hist : Type := list (Z * Z).

Record weighted : Type := mkWeighted { color : value; count : Q }.

(** The callback of [.map]. *)
Definition weigh (index : nat) (previousColors : option (list value))
  (entry : Z * Z) : weighted :=
  let ansiColor := JNum (fst entry) in
  let count := inject_Z (snd entry) in
  let ansiColor :=
    match previousColors with
    | Some previous =>
        if fst entry =? TRANSPARENT_ANSI then js_nth previous index
        else ansiColor
    | None => ansiColor
    end in
  let count :=
    if Color.isAnsiGrayscale ansiColor then (count / 2)%Q else count in
  {| color := ansiColor; count := count |}.

(** The colour an entry of the count stands for: its own code, or the
    colour of the previous paint when the code is the transparency
    code and there is a previous paint. *)
Definition resolved (index : nat) (previousColors : option (list value))
  (code : Z) : value :=
  color (weigh index previousColors (code, 0)).

(** The comparator of [.sort]. *)
Definition compare (a b : weighted) : Z :=
  if Qle_bool (count b) (count a) then
    if Qle_bool (count a) (count b) then 0 else -1
  else 1.

(** [Array.prototype.sort] as a stable sort: elements the comparator
    does not order keep their relative position. *)
Fixpoint insert (x : weighted) (sorted : list weighted) : list weighted :=
  match sorted with
  | [] => [x]
  | y :: rest =>
      if compare x y <=? 0 then x :: y :: rest else y :: insert x rest
  end.

Definition sort (l : list weighted) : list weighted :=
  fold_right insert [] l.

Definition getProminentColor (index : nat) (colors : option hist)
  (previousColors : option (list value)) : value :=
  match colors with
  | None => JNull
  | Some colors =>
      let sorted := sort (map (weigh index previousColors) colors) in
      match sorted with
      | prominentColor :: _ => color prominentColor
      | [] => JNull
      end
  end.

(** A paint object; [address] is its identity as an object, [_frame]
    the address of its parent frame. *)
Record t : Type := mk {
  address : nat;
  _frame : nat;
  _ascii : string;
  _colors : list value
}.

Definition ascii (p : t) : string := _ascii p.
Definition colors (p : t) : list value := _colors p.

(** State of the constructor's loop. *)
Record loop : Type := mkLoop {
  l_ascii : string;
  l_colors : list value;
  l_previousColor : value
}.

Definition nonempty (s : string) : bool :=
  match s with EmptyString => false | String _ _ => true end.

Definition body (previousColors : option (list value))
  (i : nat) (colors : option hist) (st : loop) : loop :=
  let ansiColor := getProminentColor i colors previousColors in
  let st :=
    {| l_ascii := l_ascii st;
       l_colors := l_colors st ++ [ansiColor];
       l_previousColor := l_previousColor st |} in
  let st :=
    if negb (strict_eq ansiColor (l_previousColor st)) then
      let a := l_ascii st in
      let a := if nonempty a then (a ++ Color.closeAnsi)%string else a in
      {| l_ascii := (a ++ Color.openAnsi ansiColor)%string;
         l_colors := l_colors st;
         l_previousColor := ansiColor |}
    else st in
  {| l_ascii := (l_ascii st ++ ASCII_CHARACTER)%string;
     l_colors := l_colors st;
     l_previousColor := l_previousColor st |}.

Fixpoint iterate (previousColors : option (list value))
  (i : nat) (countedColors : list (option hist)) (st : loop) : loop :=
  match countedColors with
  | [] => st
  | colors :: rest =>
      iterate previousColors (S i) rest (body previousColors i colors st)
  end.

Definition constructor (self frame : nat)
  (countedColors : list (option hist)) (lastPaint : option t) : t :=
  let previousColors := option_map _colors lastPaint in
  let st :=
    iterate previousColors 0 countedColors
      {| l_ascii := EmptyString; l_colors := []; l_previousColor := JNull |} in
  {| address := self;
     _frame := frame;
     _ascii := if nonempty (l_ascii st)
               then (l_ascii st ++ Color.closeAnsi)%string
               else l_ascii st;
     _colors := l_colors st |}.

(** *** The encoding, as a sequence of tokens *)

Inductive token : Type :=
| Open (code : value)
| Close
| Glyph.

Definition render (tk : token) : string :=
  match tk with
  | Open code => Color.openAnsi code
  | Close => Color.closeAnsi
  | Glyph => ASCII_CHARACTER
  end.

Definition renderAll (tks : list token) : string :=
  fold_right (fun tk acc => (render tk ++ acc)%string) EmptyString tks.

(** What the constructor emits for the cells from the second one on
    when [first] is false: a colour change closes the running
    styling before opening the next. *)
Fixpoint cellTokens (first : bool) (current : value) (cells : list value)
  : list token :=
  match cells with
  | [] => []
  | c :: rest =>
      (if strict_eq c current then []
       else (if first then [] else [Close]) ++ [Open c])
      ++ Glyph :: cellTokens false (if strict_eq c current then current else c) rest
  end.

Definition encoding (cells : list value) : list token :=
  cellTokens true JNull cells
  ++ match cells with [] => [] | _ :: _ => [Close] end.

(** The encoding in the words of the specification: an open escape at
    every change of colour, one glyph per cell, and the styling closed
    once, at the very end, when anything was emitted. *)
Fixpoint runTokens (current : value) (cells : list value) : list token :=
  match cells with
  | [] => []
  | c :: rest =>
      (if strict_eq c current then [] else [Open c])
      ++ Glyph :: runTokens (if strict_eq c current then current else c) rest
  end.

Definition specifiedEncoding (cells : list value) : list token :=
  let body := runTokens JNull cells in
  body ++ match body with [] => [] | _ :: _ => [Close] end.

Definition countClose (tks : list token) : nat :=
  List.length (List.filter (fun tk => match tk with Close => true | _ => false end) tks).

Definition countGlyph (tks : list token) : nat :=
  List.length (List.filter (fun tk => match tk with Glyph => true | _ => false end) tks).

Definition countOpen (tks : list token) : nat :=
  List.length (List.filter (fun tk => match tk with Open _ => true | _ => false end) tks).

(** The colours the constructor chooses for the cells from number [i]
    on. *)
Fixpoint chosen (previousColors : option (list value)) (i : nat)
  (countedColors : list (option hist)) : list value :=
  match countedColors with
  | [] => []
  | colors :: rest =>
      getProminentColor i colors previousColors
      :: chosen previousColors (S i) rest
  end.

(** The colours of the paints of frames that are painted one after the
    other, each with the paint of the frame before it as the last
    paint, from their colour counts. *)
Fixpoint layers (previousColors : option (list value))
  (counts : list (list (option hist))) : list (list value) :=
  match counts with
  | [] => []
  | countedColors :: rest =>
      let colors := chosen previousColors 0 countedColors in
      colors :: layers (Some colors) rest
  end.

End Paint.

(** ** Numbers of the cell arithmetic

[Frame] divides pixel positions by block sizes in double precision.
A double is the rational it stands for, and a quotient, a product or
a sum is the exact result rounded to the nearest double, as IEEE 754
defines the operation: 53 significant bits, of two nearest doubles the
one with the even significand, no unit in the last place below
[2^-1074], and [Infinity] from [2^1024] on. [Infinity] and [NaN] are
also what a division by zero gives. All operands are non-negative, so
the signs of zero and of [Infinity] are not told apart. *)

Module Num.

Inductive t : Type :=
| Fin (q : Q)
| Infinity
| NaN.

(** *** Rounding to the nearest double *)

Definition pow2 (e : Z) : Q := (2 ^ e)%Q.

(** The integral part of the binary logarithm of a positive rational. *)
Definition ilog2 (x : Q) : Z :=
  let l := Z.log2 (Qnum x) - Z.log2 (Zpos (Qden x)) in
  if Qle_bool (pow2 l) x then l else l - 1.

(** The nearest integer, the even one of two that are equally near. *)
Definition nearestEven (x : Q) : Z :=
  let f := Qfloor x in
  match (x - inject_Z f ?= 1 # 2)%Q with
  | Lt => f
  | Eq => if Z.even f then f else f + 1
  | Gt => f + 1
  end.

(** The double nearest to a positive rational: [e] is the exponent of
    the unit in the last place of the doubles around [x]. *)
Definition roundPositive (x : Q) : t :=
  let e := Z.max (ilog2 x - 52) (-1074) in
  let r := (inject_Z (nearestEven (x / pow2 e)) * pow2 e)%Q in
  if Qle_bool (pow2 1024) r then Infinity else Fin (Qred r).

(** The double nearest to a rational. *)
Definition binary64 (x : Q) : t :=
  match (x ?= 0)%Q with
  | Eq => Fin 0
  | Gt => roundPositive x
  | Lt => match roundPositive (- x) with
          | Fin r => Fin (- r)
          | other => other
          end
  end.

(** *** The operations of [_countColors] *)

(** A width, a height or a pixel number that the program holds: a
    double that is an integer, taken as it is. *)
Definition ofZ (n : Z) : t := Fin (inject_Z n).

Definition isZero (q : Q) : bool := Qeq_bool q 0.

Definition div (a b : t) : t :=
  match a, b with
  | Fin x, Fin y =>
      if isZero y then (if isZero x then NaN else Infinity)
      else binary64 (x / y)
  | Fin _, Infinity => Fin 0
  | Infinity, Fin _ => Infinity
  | _, _ => NaN
  end.

(** [Math.max(a, 1)] *)
Definition max1 (a : t) : t :=
  match a with
  | Fin x => if Qle_bool x 1 then Fin 1 else Fin x
  | Infinity => Infinity
  | NaN => NaN
  end.

(** [Math.floor(a)]; the integral part of a double is a double. *)
Definition floor (a : t) : t :=
  match a with
  | Fin x => Fin (inject_Z (Qfloor x))
  | other => other
  end.

(** [a % b] for non-negative integral [a] and [b]; the remainder of
    two doubles is a double. *)
Definition rem (a b : t) : t :=
  match a, b with
  | Fin x, Fin y =>
      if isZero y then NaN
      else Fin (inject_Z (Z.rem (Qfloor x) (Qfloor y)))
  | Fin x, Infinity => Fin x
  | _, _ => NaN
  end.

Definition mul (a b : t) : t :=
  match a, b with
  | Fin x, Fin y => binary64 (x * y)
  | Infinity, Fin y | Fin y, Infinity =>
      if isZero y then NaN else Infinity
  | Infinity, Infinity => Infinity
  | _, _ => NaN
  end.

Definition add (a b : t) : t :=
  match a, b with
  | Fin x, Fin y => binary64 (x + y)
  | NaN, _ | _, NaN => NaN
  | _, _ => Infinity
  end.

(** The element of an array that the property key [a] names, when it
    names one. *)
Definition toIndex (a : t) : option nat :=
  match a with
  | Fin x =>
      if Qeq_bool x (inject_Z (Qfloor x)) && (0 <=? Qfloor x)
         && (Qfloor x <? 4294967295)
      then Some (Z.to_nat (Qfloor x))
      else None
  | _ => None
  end.

(** The double [y] is the integer [k], or both are at least [2^53]. *)
Definition approximates (k : Z) (y : t) : Prop :=
  match y with
  | Fin q => (q == inject_Z k)%Q
             \/ (9007199254740992 <= k /\ (9007199254740992 <= q)%Q)
  | Infinity => 9007199254740992 <= k
  | NaN => False
  end.

End Num.

(** ** Frame (src/frame/Frame.js) and OpaqueFrame (src/frame/OpaqueFrame.js) *)

Module Frame.

(** The two classes differ in [getPixelColor] and [getPixelLength]. *)
Inductive kind : Type := Alpha | Opaque.

Record t : Type := mk {
  _kind : kind;
  _index : Z;
  _pixels : list Z;
  _dimension : Dimension.t;
  _paintCache : gmap string Paint.t
}.

Definition dimension (f : t) : Dimension.t := _dimension f.
Definition index (f : t) : Z := _index f.
Definition pixels (f : t) : list Z := _pixels f.

(** The frame objects, each named by its position in the order of
    creation, the process-wide colour cache, and the number of paint
    objects created so far. *)
Record heap : Type := mkHeap {
  frames : list t;
  ansiCache : gmap string Z;
  nextPaint : nat
}.

Definition emptyHeap : heap :=
  {| frames := []; ansiCache := ∅; nextPaint := 0%nat |}.

(** [new Frame(index, pixels, width, height)], or [new OpaqueFrame]
    for [k = Opaque]; the result is the address of the new object. *)
Definition constructor (k : kind) (index : Z) (pixels : list Z)
  (width height : Z) (h : heap) : nat * heap :=
  let self := List.length (frames h) in
  (self,
   {| frames :=
        frames h ++ [{| _kind := k;
                        _index := index;
                        _pixels := pixels;
                        _dimension := Dimension.constructor width height;
                        _paintCache := ∅ |}];
      ansiCache := ansiCache h;
      nextPaint := nextPaint h |}).

Definition getPixelLength (k : kind) : Z :=
  match k with Alpha => 4 | Opaque => 3 end.

(** [pixels[i]] on a [Uint8Array]. *)
Definition at_ (pixels : list Z) (i : nat) : value :=
  match nth_error pixels i with
  | Some b => JNum b
  | None => JUndefined
  end.

(** [counts[index]] of a possibly sparse array: [None] is a hole. *)
Definition slot {A} (a : list (option A)) (i : nat) : option A :=
  match nth_error a i with
  | Some (Some x) => Some x
  | _ => None
  end.

(** [counts[index] = x]: writing past the end extends the array and
    leaves holes. *)
Definition store {A} (a : list (option A)) (i : nat) (x : A)
  : list (option A) :=
  if (i <? List.length a)%nat then <[i := Some x]> a
  else a ++ repeat None (i - List.length a) ++ [Some x].

(** Property keys that are array indices come first in [Object.keys],
    in ascending order; the others follow in insertion order. *)
Definition isArrayIndex (k : Z) : bool := (0 <=? k) && (k <? 4294967295).

Fixpoint hasKey (k : Z) (h : Paint.hist) : bool :=
  match h with
  | [] => false
  | (k', _) :: rest => (k =? k') || hasKey k rest
  end.

Fixpoint define (k : Z) (n : Z) (h : Paint.hist) : Paint.hist :=
  match h with
  | [] => [(k, n)]
  | (k', n') :: rest =>
      if isArrayIndex k && (negb (isArrayIndex k') || (k <? k'))
      then (k, n) :: (k', n') :: rest
      else (k', n') :: define k n rest
  end.

Fixpoint increment (k : Z) (h : Paint.hist) : Paint.hist :=
  match h with
  | [] => []
  | (k', n) :: rest =>
      if k =? k' then (k', n + 1) :: rest else (k', n) :: increment k rest
  end.

(** [if (!(color in colors)) colors[color] = 0; colors[color]++] *)
Definition count (color : Z) (colors : Paint.hist) : Paint.hist :=
  increment color (if hasKey color colors then colors else define color 0 colors).

Definition cellIndex (source target : Dimension.t) (pixelIndex : Z) : Num.t :=
  let blockHeight :=
    Num.max1 (Num.div (Num.ofZ (Dimension.height source))
                      (Num.ofZ (Dimension.height target))) in
  let blockWidth :=
    Num.max1 (Num.div (Num.ofZ (Dimension.width source))
                      (Num.ofZ (Dimension.width target))) in
  Num.add
    (Num.rem (Num.floor (Num.div (Num.ofZ pixelIndex) blockWidth))
             (Num.ofZ (Dimension.width target)))
    (Num.mul
       (Num.floor (Num.div (Num.div (Num.ofZ pixelIndex)
                                    (Num.ofZ (Dimension.width source)))
                           blockHeight))
       (Num.ofZ (Dimension.width target))).

(** The colour object [getPixelColor] builds for the components that
    start at [i]. *)
Definition pixelColor (k : kind) (pixels : list Z) (i : nat) : Color.t :=
  match k with
  | Alpha =>
      Color.constructor (at_ pixels i) (at_ pixels (i + 1))
                        (at_ pixels (i + 2)) (at_ pixels (i + 3))
  | Opaque =>
      Color.constructor (at_ pixels i) (at_ pixels (i + 1))
                        (at_ pixels (i + 2)) JUndefined
  end.

(** [for (let i = 0; i < pixels.length; i += pixelLength)] runs once
    per started group of [pixelLength] components. *)
Definition turns (f : t) : nat :=
  let pixelLength := getPixelLength (_kind f) in
  Z.to_nat ((Z.of_nat (List.length (_pixels f)) + pixelLength - 1) / pixelLength).

(** Every pixel of the frame has some transparency. *)
Definition allTransparent (f : t) : bool :=
  forallb
    (fun pixelIndex =>
       Color.hasTransparency
         (pixelColor (_kind f) (_pixels f)
                     (pixelIndex * Z.to_nat (getPixelLength (_kind f)))))
    (seq 0 (turns f)).

(** The frame at address [f] holds [paint] in its cache under [key]. *)
Definition holds (h : heap) (f : nat) (key : string) (paint : Paint.t) : Prop :=
  exists this, frames h !! f = Some this /\ _paintCache this !! key = Some paint.

(** A colour count that holds the transparency code only, and an array
    of such counts. *)
Definition clear (colors : Paint.hist) : Prop :=
  exists n, colors = [(Paint.TRANSPARENT_ANSI, n)].

Definition allClear (cells : list (option Paint.hist)) : Prop :=
  forall i colors, slot cells i = Some colors -> clear colors.

(** Which cells of a counted array hold a colour count. *)
Definition shape {A} (cells : list (option A)) : list (option unit) :=
  map (option_map (fun _ => tt)) cells.

(** The cells that receive a pixel when [turns] pixels of a frame of
    dimension [source] are counted for the dimension [target]. *)
Definition coverage (source target : Dimension.t) (turns : nat)
  : list (option unit) :=
  fold_left
    (fun covered pixelIndex =>
       match Num.toIndex (cellIndex source target (Z.of_nat pixelIndex)) with
       | Some index => store covered index tt
       | None => covered
       end)
    (seq 0 turns) [].

(** Two frame objects of the same class with the same pixel buffer and
    the same source dimension. *)
Definition alike (f g : t) : Prop :=
  _kind f = _kind g /\ _pixels f = _pixels g /\ _dimension f = _dimension g.

(** The buffer has one group of components per pixel of the dimension. *)
Definition wellFormed (f : t) : Prop :=
  Z.of_nat (List.length (_pixels f))
  = Dimension.area (_dimension f) * getPixelLength (_kind f).

(** Two frame objects with the same pixel buffer and the same source
    dimension: of the same class, or each with a buffer of the length
    its class requires. *)
Definition similar (f g : t) : Prop :=
  _pixels f = _pixels g /\ _dimension f = _dimension g
  /\ (_kind f = _kind g \/ (wellFormed f /\ wellFormed g)).

(** The heap [h'] has the frames of [h], each with the data it has in
    [h] and with the paints it has in [h] under every key but [key]. *)
Definition keeps (key : string) (h h' : heap) : Prop :=
  List.length (frames h') = List.length (frames h)
  /\ forall f this, frames h !! f = Some this ->
       exists this',
         frames h' !! f = Some this'
         /\ _kind this' = _kind this /\ _index this' = _index this
         /\ _pixels this' = _pixels this /\ _dimension this' = _dimension this
         /\ forall other, other <> key ->
              _paintCache this' !! other = _paintCache this !! other.

(** No pixel of the frame has transparency. *)
Definition noTransparency (f : t) : bool :=
  forallb
    (fun pixelIndex =>
       negb (Color.hasTransparency
               (pixelColor (_kind f) (_pixels f)
                           (pixelIndex * Z.to_nat (getPixelLength (_kind f))))))
    (seq 0 (turns f)).

(** No colour count of the array has the transparency code among its
    keys. *)
Definition solid (cells : list (option Paint.hist)) : Prop :=
  forall i colors, slot cells i = Some colors ->
    forall entry, In entry colors -> fst entry <> Paint.TRANSPARENT_ANSI.

(** The cell of a pixel in integer arithmetic: the column is taken
    modulo the width of the target, the row is the row of the pixel
    scaled to the target. *)
Definition cellOf (source target : Dimension.t) (pixelIndex : Z) : Z :=
  let column :=
    (if Dimension.width source <=? Dimension.width target then pixelIndex
     else pixelIndex * Dimension.width target / Dimension.width source)
    mod Dimension.width target in
  let row :=
    if Dimension.height source <=? Dimension.height target
    then pixelIndex / Dimension.width source
    else pixelIndex * Dimension.height target
         / (Dimension.width source * Dimension.height source) in
  column + row * Dimension.width target.

(** The number of pixels a colour count stands for, and the number of
    pixels counted in an array of colour counts. *)
Definition tally (colors : Paint.hist) : Z :=
  fold_right (fun entry acc => snd entry + acc) 0 colors.

Definition counted (cells : list (option Paint.hist)) : Z :=
  fold_right
    (fun cell acc =>
       match cell with Some colors => tally colors + acc | None => acc end)
    0 cells.

Section WithPalette.

Variable ansi256 : value -> value -> value -> Z.

Definition getPixelColor (k : kind) (pixels : list Z) (i : nat)
  (cache : gmap string Z) : Z * gmap string Z :=
  match k with
  | Alpha =>
      let color := pixelColor k pixels i in
      if Color.hasTransparency color then (Paint.TRANSPARENT_ANSI, cache)
      else Color.toAnsi ansi256 color cache
  | Opaque =>
      let color := pixelColor k pixels i in
      Color.toAnsi ansi256 color cache
  end.

(** One turn of the loop of [_countColors], for the pixel number
    [pixelIndex], whose components start at
    [i = pixelIndex * pixelLength]. A key that names no element
    ([NaN], [Infinity]) defines a property that [Paint] never
    reads, so the array is left as it is. *)
Definition countPixel (f : t) (target : Dimension.t) (pixelIndex : nat)
  (st : list (option Paint.hist) * gmap string Z)
  : list (option Paint.hist) * gmap string Z :=
  let pixelLength := getPixelLength (_kind f) in
  let i := (pixelIndex * Z.to_nat pixelLength)%nat in
  let index := cellIndex (dimension f) target (Z.of_nat pixelIndex) in
  let '(color, cache) := getPixelColor (_kind f) (_pixels f) i (snd st) in
  match Num.toIndex index with
  | Some index =>
      let colors := default [] (slot (fst st) index) in
      (store (fst st) index (count color colors), cache)
  | None => (fst st, cache)
  end.

Definition countColors (f : t) (target : Dimension.t)
  (cache : gmap string Z) : list (option Paint.hist) * gmap string Z :=
  fold_left (fun st pixelIndex => countPixel f target pixelIndex st)
            (seq 0 (turns f)) ([], cache).

Definition cached (f : t) (key : string) (paint : Paint.t) : t :=
  {| _kind := _kind f;
     _index := _index f;
     _pixels := _pixels f;
     _dimension := _dimension f;
     _paintCache := <[key := paint]> (_paintCache f) |}.

(** The body of [getPaint]; [recur] is [getPaint] itself, called on
    the previous frame. A result [None] only arises for an address
    that names no frame. *)
Definition getPaintBody
  (recur : nat -> Dimension.t -> heap -> option (Paint.t * heap))
  (self : nat) (dimension : Dimension.t) (previousFrame : option nat)
  (h : heap) : option (Paint.t * heap) :=
  let cacheKey := Dimension.toString dimension in
  match frames h !! self with
  | None => None
  | Some this =>
      match _paintCache this !! cacheKey with
      | Some paint => Some (paint, h)
      | None =>
          let '(countedColors, cache) :=
            countColors this dimension (ansiCache h) in
          let h := {| frames := frames h; ansiCache := cache;
                      nextPaint := nextPaint h |} in
          let lastPaint :=
            match previousFrame with
            | None => Some (None, h)
            | Some previous =>
                match recur previous dimension h with
                | Some (paint, h) => Some (Some paint, h)
                | None => None
                end
            end in
          match lastPaint with
          | None => None
          | Some (lastPaint, h) =>
              let paint :=
                Paint.constructor (nextPaint h) self countedColors lastPaint in
              match frames h !! self with
              | None => None
              | Some this =>
                  Some (paint,
                        {| frames := <[self := cached this cacheKey paint]> (frames h);
                           ansiCache := ansiCache h;
                           nextPaint := S (nextPaint h) |})
              end
          end
      end
  end.

(** [previousFrame.getPaint(dimension)]: no previous frame is
    passed, so this call never calls [getPaint] again. *)
Definition getPaintAlone (self : nat) (dimension : Dimension.t) (h : heap)
  : option (Paint.t * heap) :=
  getPaintBody (fun _ _ _ => None) self dimension None h.

Definition getPaint (self : nat) (dimension : Dimension.t)
  (previousFrame : option nat) (h : heap) : option (Paint.t * heap) :=
  getPaintBody getPaintAlone self dimension previousFrame h.

(** What a program does to the heap: it creates a frame or calls
    [getPaint]. *)
Inductive action : Type :=
| Construct (k : kind) (index : Z) (pixels : list Z) (width height : Z)
| GetPaint (self : nat) (dimension : Dimension.t) (previousFrame : option nat).

Definition perform (h : heap) (a : action) : heap :=
  match a with
  | Construct k index pixels width height =>
      snd (constructor k index pixels width height h)
  | GetPaint self dimension previousFrame =>
      match getPaint self dimension previousFrame h with
      | Some (_, h') => h'
      | None => h
      end
  end.

Definition performAll (actions : list action) (h : heap) : heap :=
  fold_left perform actions h.

(** Every entry of the colour cache is the conversion of a colour that
    [getPixelColor] builds from a pixel buffer, under the string of
    that colour. *)
Definition coherent (cache : gmap string Z) : Prop :=
  forall key code, cache !! key = Some code ->
    exists k pixels i,
      Color.serialize (Some (pixelColor k pixels i)) = Some key
      /\ code = ansi256 (Color.red (pixelColor k pixels i))
                        (Color.green (pixelColor k pixels i))
                        (Color.blue (pixelColor k pixels i)).

End WithPalette.

End Frame.

(** ** PlayerState (src/player/PlayerState.js) *)

Module PlayerState.

Inductive t : Type := PAUSED | PLAYING | STOPPED.

Definition eqb (a b : t) : bool :=
  match a, b with
  | PAUSED, PAUSED | PLAYING, PLAYING | STOPPED, STOPPED => true
  | _, _ => false
  end.

End PlayerState.

(** ** MediaReader (src/media/MediaReader.js), the decoder interface

What a reader does is decided by its implementation; a reader is
given here by the results of its three operations. [readFrames]
fires a "frame" event per frame, then possibly "finish", and settles
its promise. *)

Module MediaReader.

Record Options : Type := mkOptions {
  codec : option string;
  format : option string
}.

Definition noOptions : Options := {| codec := None; format := None |}.

Record t (Frame : Type) : Type := mk {
  readTitle : outcome string;
  readDimension : outcome Dimension.t;
  readFrames : Dimension.t -> list Frame * bool * outcome unit
}.
Arguments readTitle {Frame} _.
Arguments readDimension {Frame} _.
Arguments readFrames {Frame} _ _.

Inductive lifecycle : Type :=
| Created (filePath : string)
| Destroyed (filePath : string).

End MediaReader.

(** ** The objects of one playback: frame sets and readers *)

Module Store.
Section WithFrame.

Context {Frame : Type}.

Record t : Type := mk {
  frameSets : gmap nat (FrameSet.t Frame);
  nextFrameSet : nat;
  readers : list MediaReader.lifecycle
}.

Definition empty : t :=
  {| frameSets := ∅; nextFrameSet := 0%nat; readers := [] |}.

Definition allocate (fs : FrameSet.t Frame) (s : t) : nat * t :=
  (nextFrameSet s,
   {| frameSets := <[nextFrameSet s := fs]> (frameSets s);
      nextFrameSet := S (nextFrameSet s);
      readers := readers s |}).

Definition update (a : nat) (fs : FrameSet.t Frame) (s : t) : t :=
  {| frameSets := <[a := fs]> (frameSets s);
     nextFrameSet := nextFrameSet s;
     readers := readers s |}.

Definition note (e : MediaReader.lifecycle) (s : t) : t :=
  {| frameSets := frameSets s;
     nextFrameSet := nextFrameSet s;
     readers := readers s ++ [e] |}.

(** A method of the frame set at address [a], run in place. *)
Definition onFrameSet {A} (a : nat)
  (method : FrameSet.t Frame -> outcome A * FrameSet.t Frame) (s : t)
  : outcome A * t :=
  match frameSets s !! a with
  | Some fs => let '(r, fs') := method fs in (r, update a fs' s)
  | None => (Thrown "TypeError", s)
  end.

End WithFrame.
Arguments t : clear implicits.
End Store.

(** ** Player (src/player/Player.js) *)

Module Player.

Record t : Type := mk { _state : PlayerState.t }.

Definition constructor : t := {| _state := PlayerState.STOPPED |}.

Definition paused (p : t) : bool := PlayerState.eqb (_state p) PlayerState.PAUSED.
Definition playing (p : t) : bool := PlayerState.eqb (_state p) PlayerState.PLAYING.
Definition stopped (p : t) : bool := PlayerState.eqb (_state p) PlayerState.STOPPED.

Definition setPaused (paused : bool) (p : t) : t :=
  if paused then {| _state := PlayerState.PAUSED |} else p.
Definition setPlaying (playing : bool) (p : t) : t :=
  if playing then {| _state := PlayerState.PLAYING |} else p.
Definition setStopped (stopped : bool) (p : t) : t :=
  if stopped then {| _state := PlayerState.STOPPED |} else p.

Section WithReader.

Context {Frame : Type}.

(** The abstract [getMediaReader]. *)
Variable getMediaReader :
  string -> MediaReader.Options -> outcome (MediaReader.t Frame).

Definition getTitle (filePath : string) (options : MediaReader.Options)
  (s : Store.t Frame) : outcome string * Store.t Frame :=
  match getMediaReader filePath options with
  | Thrown e => (Thrown e, s)
  | Returned mediaReader =>
      let s := Store.note (MediaReader.Created filePath) s in
      (MediaReader.readTitle mediaReader,
       Store.note (MediaReader.Destroyed filePath) s)
  end.

(** The "frame" listener is [frameSet.add], the "finish" listener
    [frameSet.finalize]. *)
Definition feed (frameSet : nat) (frames : list Frame) (finish : bool)
  (s : Store.t Frame) : Store.t Frame :=
  let s :=
    fold_left (fun s frame => snd (Store.onFrameSet frameSet (FrameSet.add frame) s))
              frames s in
  if finish then snd (Store.onFrameSet frameSet FrameSet.finalize s) else s.

(** [play]: the result is how the returned promise settles, with
    the address of the frame set when it resolves. *)
Definition play (filePath : string) (options : MediaReader.Options)
  (p : t) (s : Store.t Frame) : outcome nat * t * Store.t Frame :=
  let '(frameSet, s) := Store.allocate (FrameSet.constructor None) s in
  match getMediaReader filePath options with
  | Thrown e => (Thrown e, p, s)
  | Returned mediaReader =>
      let s := Store.note (MediaReader.Created filePath) s in
      let p := {| _state := PlayerState.PLAYING |} in
      match MediaReader.readDimension mediaReader with
      | Thrown e =>
          (Thrown e, p, Store.note (MediaReader.Destroyed filePath) s)
      | Returned dimension =>
          let '(frames, finish, settled) :=
            MediaReader.readFrames mediaReader dimension in
          let s := feed frameSet frames finish s in
          let s := Store.note (MediaReader.Destroyed filePath) s in
          match settled with
          | Thrown e => (Thrown e, p, s)
          | Returned _ => (Returned frameSet, p, s)
          end
      end
  end.

End WithReader.

End Player.

(** ** Display (src/display/Display.js, src/display/BlessedDisplay.js) *)

Module Display.
Section WithFrame.

Context {Frame : Type}.

Record t : Type := mk {
  _currentFrame : option Frame;
  _defaultTitle : string;
  _frameSet : option nat;
  _frozen : bool;
  _refreshId : option nat;
  _refreshRate : Z;
  _status : string;
  _title : string;
  (** [isRendered()] and [isShowingHelp()] of the implementation *)
  rendered : bool;
  showingHelp : bool;
  (** the intervals that are running, and the next timer handle *)
  intervals : list nat;
  nextInterval : nat;
  (** the calls of the abstract [paint(frame, currentFrame)] *)
  painted : list (Frame * option Frame)
}.

(** The text the status callbacks produce; it depends on the terminal
    size, on number formatting and on the memory in use. *)
Variable statusText : t -> Store.t Frame -> option Frame -> string.

(** [new BlessedDisplay(options)]; [name] is the name of the package,
    the title of last resort. *)
Definition constructor (name : string) (refreshRate : option Z)
  (status title : option string) : t :=
  let truthy o :=
    match o with Some (String c rest) => Some (String c rest) | _ => None end in
  {| _currentFrame := None;
     _defaultTitle := default name (truthy title);
     _frameSet := None;
     _frozen := true;
     _refreshId := None;
     _refreshRate := match refreshRate with
                     | Some r => if r =? 0 then 10 else r
                     | None => 10
                     end;
     _status := default EmptyString (truthy status);
     _title := default name (truthy title);
     rendered := false;
     showingHelp := false;
     intervals := [];
     nextInterval := 0%nat;
     painted := [] |}.

Definition frozen (d : t) : bool := _frozen d.
Definition isRendered (d : t) : bool := rendered d.
Definition isShowingHelp (d : t) : bool := showingHelp d.

Definition setFrozen (frozen : bool) (d : t) : t :=
  if negb frozen then
    {| _currentFrame := _currentFrame d; _defaultTitle := _defaultTitle d;
       _frameSet := _frameSet d; _frozen := false;
       _refreshId := Some (nextInterval d);
       _refreshRate := _refreshRate d; _status := _status d;
       _title := _title d; rendered := rendered d;
       showingHelp := showingHelp d;
       intervals := intervals d ++ [nextInterval d];
       nextInterval := S (nextInterval d); painted := painted d |}
  else
    match _refreshId d with
    | Some id =>
        {| _currentFrame := _currentFrame d; _defaultTitle := _defaultTitle d;
           _frameSet := _frameSet d; _frozen := true; _refreshId := None;
           _refreshRate := _refreshRate d; _status := _status d;
           _title := _title d; rendered := rendered d;
           showingHelp := showingHelp d;
           intervals := List.filter (fun i => negb (Nat.eqb i id)) (intervals d);
           nextInterval := nextInterval d; painted := painted d |}
    | None =>
        {| _currentFrame := _currentFrame d; _defaultTitle := _defaultTitle d;
           _frameSet := _frameSet d; _frozen := true; _refreshId := None;
           _refreshRate := _refreshRate d; _status := _status d;
           _title := _title d; rendered := rendered d;
           showingHelp := showingHelp d;
           intervals := intervals d;
           nextInterval := nextInterval d; painted := painted d |}
    end.

(** [title || this[_defaultTitle]] *)
Definition setTitle (title : option string) (d : t) : t :=
  {| _currentFrame := _currentFrame d; _defaultTitle := _defaultTitle d;
     _frameSet := _frameSet d; _frozen := _frozen d;
     _refreshId := _refreshId d; _refreshRate := _refreshRate d;
     _status := _status d;
     _title := match title with
               | Some (String c rest) => String c rest
               | _ => _defaultTitle d
               end;
     rendered := rendered d; showingHelp := showingHelp d;
     intervals := intervals d; nextInterval := nextInterval d;
     painted := painted d |}.

Definition setStatus (status : string) (d : t) : t :=
  {| _currentFrame := _currentFrame d; _defaultTitle := _defaultTitle d;
     _frameSet := _frameSet d; _frozen := _frozen d;
     _refreshId := _refreshId d; _refreshRate := _refreshRate d;
     _status := status; _title := _title d;
     rendered := rendered d; showingHelp := showingHelp d;
     intervals := intervals d; nextInterval := nextInterval d;
     painted := painted d |}.

Definition updateStatus (frame : option Frame) (s : Store.t Frame) (d : t) : t :=
  setStatus (statusText d s frame) d.

Definition setFrameSet (frameSet : option nat) (d : t) : t :=
  {| _currentFrame := _currentFrame d; _defaultTitle := _defaultTitle d;
     _frameSet := frameSet; _frozen := _frozen d;
     _refreshId := _refreshId d; _refreshRate := _refreshRate d;
     _status := _status d; _title := _title d;
     rendered := rendered d; showingHelp := showingHelp d;
     intervals := intervals d; nextInterval := nextInterval d;
     painted := painted d |}.

Definition load (frameSet : nat) (s : Store.t Frame) (d : t) : outcome unit * t :=
  match _frameSet d with
  | Some _ => (Thrown "Existing frame set has not been unloaded", d)
  | None =>
      let d := setFrameSet (Some frameSet) d in
      let d := setFrozen false d in
      (Returned tt, updateStatus None s d)
  end.

Definition unload (s : Store.t Frame) (d : t) : t :=
  let d := setFrozen true d in
  let d := setTitle None d in
  let d := setFrameSet None d in
  updateStatus None s d.

(** [BlessedDisplay.render] creates the screen and its boxes. *)
Definition render (d : t) : t :=
  {| _currentFrame := _currentFrame d; _defaultTitle := _defaultTitle d;
     _frameSet := _frameSet d; _frozen := _frozen d;
     _refreshId := _refreshId d; _refreshRate := _refreshRate d;
     _status := _status d; _title := _title d;
     rendered := true; showingHelp := showingHelp d;
     intervals := intervals d; nextInterval := nextInterval d;
     painted := painted d |}.

Definition setHelp (showing : bool) (d : t) : t :=
  {| _currentFrame := _currentFrame d; _defaultTitle := _defaultTitle d;
     _frameSet := _frameSet d; _frozen := _frozen d;
     _refreshId := _refreshId d; _refreshRate := _refreshRate d;
     _status := _status d; _title := _title d;
     rendered := rendered d; showingHelp := showing;
     intervals := intervals d; nextInterval := nextInterval d;
     painted := painted d |}.

(** [this[_currentFrame] = frame; this[_updateStatus](frame);
    this.paint(frame, currentFrame)] *)
Definition show (frame : Frame) (s : Store.t Frame) (d : t) : t :=
  let currentFrame := _currentFrame d in
  let d :=
    {| _currentFrame := Some frame; _defaultTitle := _defaultTitle d;
       _frameSet := _frameSet d; _frozen := _frozen d;
       _refreshId := _refreshId d; _refreshRate := _refreshRate d;
       _status := _status d; _title := _title d;
       rendered := rendered d; showingHelp := showingHelp d;
       intervals := intervals d; nextInterval := nextInterval d;
       painted := painted d |} in
  let d := updateStatus (Some frame) s d in
  {| _currentFrame := _currentFrame d; _defaultTitle := _defaultTitle d;
     _frameSet := _frameSet d; _frozen := _frozen d;
     _refreshId := _refreshId d; _refreshRate := _refreshRate d;
     _status := _status d; _title := _title d;
     rendered := rendered d; showingHelp := showingHelp d;
     intervals := intervals d; nextInterval := nextInterval d;
     painted := painted d ++ [(frame, currentFrame)] |}.

(** The calls of [paint(frame, currentFrame)] that showing [frames]
    one after the other makes on a display whose current frame is
    [current]. *)
Fixpoint paints (current : option Frame) (frames : list Frame)
  : list (Frame * option Frame) :=
  match frames with
  | [] => []
  | frame :: rest => (frame, current) :: paints (Some frame) rest
  end.

End WithFrame.
Arguments t : clear implicits.
End Display.

(** ** Controller (src/Controller.js) *)

Module Controller.
Section WithFrame.

Context {Frame : Type}.

Inductive Event : Type :=
| EvPause
| EvPlay (filePath title : string) (options : MediaReader.Options)
| EvResume
| EvStop.

(** A controller with the display and the player it owns, and the
    objects they refer to. *)
Record t : Type := mk {
  display : Display.t Frame;
  player : Player.t;
  store : Store.t Frame;
  emitted : list Event
}.

Variable statusText :
  Display.t Frame -> Store.t Frame -> option Frame -> string.
Variable getMediaReader :
  string -> MediaReader.Options -> outcome (MediaReader.t Frame).
(** [Files.isFile], a promise for a check on the file system. *)
Variable isFile : string -> outcome bool.

Definition constructor (display : Display.t Frame) (player : Player.t) : t :=
  {| display := display; player := player; store := Store.empty; emitted := [] |}.

Definition emit (e : Event) (c : t) : t :=
  {| display := display c; player := player c; store := store c;
     emitted := emitted c ++ [e] |}.

Definition withDisplay (d : Display.t Frame) (c : t) : t :=
  {| display := d; player := player c; store := store c; emitted := emitted c |}.

Definition withPlayer (p : Player.t) (c : t) : t :=
  {| display := display c; player := p; store := store c; emitted := emitted c |}.

Definition withStore (s : Store.t Frame) (c : t) : t :=
  {| display := display c; player := player c; store := s; emitted := emitted c |}.

Definition help (c : t) : bool * t :=
  let wasShowing := Display.isShowingHelp (display c) in
  (negb wasShowing, withDisplay (Display.setHelp (negb wasShowing) (display c)) c).

Definition pause (c : t) : bool * t :=
  if negb (Player.playing (player c)) then (false, c)
  else
    let c := withPlayer (Player.setPaused true (player c)) c in
    let c := withDisplay (Display.setFrozen true (display c)) c in
    (true, emit EvPause c).

Definition resume (c : t) : bool * t :=
  if negb (Player.paused (player c)) then (false, c)
  else
    let c := withPlayer (Player.setPlaying true (player c)) c in
    let c := withDisplay (Display.setFrozen false (display c)) c in
    (true, emit EvResume c).

Definition stop (c : t) : bool * t :=
  let wasStopped := Player.stopped (player c) in
  let c := withPlayer (Player.setStopped true (player c)) c in
  let c := withDisplay (Display.unload statusText (store c) (display c)) c in
  if negb wasStopped then (true, emit EvStop c) else (false, c).

(** [play]: the result is how the returned promise settles. *)
Definition play (filePath : string) (options : option MediaReader.Options)
  (c : t) : outcome nat * t :=
  let options := default MediaReader.noOptions options in
  if negb (Player.stopped (player c)) then
    (Thrown "Player must be stopped before playing another file", c)
  else
    match isFile filePath with
    | Thrown e => (Thrown e, c)
    | Returned false =>
        (Thrown ("Cannot play invalid file path: " ++ filePath)%string, c)
    | Returned true =>
        match Player.getTitle getMediaReader filePath options (store c) with
        | (Thrown e, s) => (Thrown e, withStore s c)
        | (Returned title, s) =>
            let c := withStore s c in
            let c := withDisplay (Display.setTitle (Some title) (display c)) c in
            let c := emit (EvPlay filePath title options) c in
            match Player.play getMediaReader filePath options (player c) (store c) with
            | (Thrown e, p, s) => (Thrown e, withStore s (withPlayer p c))
            | (Returned frameSet, p, s) =>
                let c := withStore s (withPlayer p c) in
                let d := Display.render (display c) in
                match Display.load statusText frameSet (store c) d with
                | (Thrown e, d) => (Thrown e, withDisplay d c)
                | (Returned _, d) => (Returned frameSet, withDisplay d c)
                end
            end
        end
    end.

(** [Display._paintNextFrame], the callback of the refresh interval.
    It is placed here because it calls back into the controller. The
    second component of the result tells whether [Controller.stop]
    was called. *)
Definition paintNextFrame (c : t) : outcome bool * t :=
  let d := display c in
  if Display.frozen d then (Returned false, c)
  else if negb (Display.isRendered d) then (Returned false, c)
  else
    match Display._frameSet d with
    | None => (Thrown "TypeError", c)
    | Some a =>
        match Store.frameSets (store c) !! a with
        | None => (Thrown "TypeError", c)
        | Some fs =>
            if negb (FrameSet.hasNext fs) then (Returned false, c)
            else
              match Store.onFrameSet a FrameSet.next (store c) with
              | (Thrown e, s) => (Thrown e, withStore s c)
              | (Returned frame, s) =>
                  let c := withStore s c in
                  let d := Display.show statusText frame (store c) (display c) in
                  let c := withDisplay d c in
                  match Store.frameSets (store c) !! a with
                  | None => (Thrown "TypeError", c)
                  | Some fs =>
                      if negb (FrameSet.hasNext fs) && FrameSet.finalized fs
                      then (Returned true, snd (stop c))
                      else (Returned false, c)
                  end
              end
        end
    end.

(** What can happen to a controller between two observations: a
    command, a tick of the refresh interval, or the decoder feeding
    the frame set at some address. *)
Inductive action : Type :=
| Help | Pause | Resume | Stop
| Play (filePath : string) (options : option MediaReader.Options)
| Tick
| Decoded (frameSet : nat) (frame : Frame)
| Finished (frameSet : nat).

Definition act (a : action) (c : t) : t :=
  match a with
  | Help => snd (help c)
  | Pause => snd (pause c)
  | Resume => snd (resume c)
  | Stop => snd (stop c)
  | Play filePath options => snd (play filePath options c)
  | Tick => snd (paintNextFrame c)
  | Decoded frameSet frame =>
      withStore (snd (Store.onFrameSet frameSet (FrameSet.add frame) (store c))) c
  | Finished frameSet =>
      withStore (snd (Store.onFrameSet frameSet FrameSet.finalize (store c))) c
  end.

(** Whether a tick in state [c] calls [Controller.stop]. *)
Definition tickStops (c : t) : bool :=
  match fst (paintNextFrame c) with
  | Returned b => b
  | Thrown _ => false
  end.

(** The frame set bound to the display, when there is one. *)
Definition bound (c : t) : option (FrameSet.t Frame) :=
  match Display._frameSet (display c) with
  | Some a => Store.frameSets (store c) !! a
  | None => None
  end.

(** [n] ticks of the refresh interval, and a sequence of actions. *)
Fixpoint ticks (n : nat) (c : t) : t :=
  match n with
  | O => c
  | S n => ticks n (snd (paintNextFrame c))
  end.

Definition runAll (actions : list action) (c : t) : t :=
  fold_left (fun c a => act a c) actions c.

Definition isTick (a : action) : bool :=
  match a with Tick => true | _ => false end.

(** The refresh interval of the display runs exactly when the display
    is not frozen, and then it is the only one. *)
Definition oneTimer (d : Display.t Frame) : Prop :=
  if Display.frozen d
  then Display.intervals d = [] /\ Display._refreshId d = None
  else exists id, Display.intervals d = [id] /\ Display._refreshId d = Some id
                  /\ (id < Display.nextInterval d)%nat.

End WithFrame.
Arguments t : clear implicits.
Arguments action : clear implicits.
End Controller.

(** ** BlessedDisplay (src/display/BlessedDisplay.js): painting a frame

[paint(frame, currentFrame)] asks the frame for its paint for the
dimension of the view port, with the frame shown before as the
previous frame, and sets the string of the paint as the content of
the view port. The frames are objects of the heap of frames; the
dimension of the view port is that of the terminal, taken here as
given. *)

Module BlessedDisplay.
Section WithPalette.

Variable ansi256 : value -> value -> value -> Z.

Definition paint (dimension : Dimension.t) (call : nat * option nat)
  (h : Frame.heap) : outcome Paint.t * Frame.heap :=
  match Frame.getPaint ansi256 (fst call) dimension (snd call) h with
  | Some (paint, h) => (Returned paint, h)
  | None => (Thrown "TypeError", h)
  end.

(** The calls of [paint] that a display makes, in their order; the
    result has the paints whose strings were shown. *)
Fixpoint paintAll (dimension : Dimension.t) (calls : list (nat * option nat))
  (h : Frame.heap) : list Paint.t * Frame.heap :=
  match calls with
  | [] => ([], h)
  | call :: rest =>
      match paint dimension call h with
      | (Returned paint, h) =>
          let '(paints, h) := paintAll dimension rest h in
          (paint :: paints, h)
      | (Thrown _, h) => ([], h)
      end
  end.

End WithPalette.
End BlessedDisplay.

(** ** The properties in the words of the specification

Statements that the specification makes in a form the sources do
not bear out are kept here as they are worded, to be compared with
what the sources do. *)

Module Stated.

(** "totalLength >= length always, totalLength equals the number of
    successful add calls, and totalLength never changes after
    finalize, for every way of constructing a FrameSet." *)
Definition totalLengthLaw {Frame : Type}
  (c : FrameSet.construction Frame) (ops : list (FrameSet.op Frame)) : Prop :=
  let s := FrameSet.run ops (FrameSet.build c) in
  FrameSet.length s <= FrameSet.totalLength s
  /\ FrameSet.totalLength s = FrameSet.successfulAdds ops (FrameSet.build c)
  /\ (FrameSet.finalized s = true ->
      forall later, FrameSet.totalLength (FrameSet.run later s) = FrameSet.totalLength s).

(** "Given two colours with equal raw counts in a cell where one is
    grayscale and one is not, the non-grayscale colour is selected." *)
Definition grayscaleBias (index : nat) (gray other n : Z)
  (previousColors : option (list value)) (colors : Paint.hist) : Prop :=
  0 < n ->
  Color.isAnsiGrayscale (JNum gray) = true ->
  Color.isAnsiGrayscale (JNum other) = false ->
  colors = [(gray, n); (other, n)] \/ colors = [(other, n); (gray, n)] ->
  Paint.getProminentColor index (Some colors) previousColors = JNum other.

(** "The string opens a colour at every change, has one glyph per
    cell, and closes the styling exactly once, at the very end." *)
Definition closedOnce (p : Paint.t) : Prop :=
  Paint.ascii p = Paint.renderAll (Paint.specifiedEncoding (Paint.colors p)).

(** "Color.deserialize(Color.serialize(c)) has red, green, blue and
    alpha identical to those of c." *)
Definition roundTrip (c : Color.t) : Prop :=
  Color.deserialize (Color.serialize (Some c)) = Some c.

(** "A Frame whose every pixel is transparent, painted with a non-null
    previous Paint, reproduces the previous Paint's chosen colour per
    cell exactly." *)
Definition transparencyFallback (ansi256 : value -> value -> value -> Z)
  (f : Frame.t) (target : Dimension.t) (previous : Paint.t) : Prop :=
  Frame.allTransparent f = true ->
  forall self address cache,
    Paint.colors
      (Paint.constructor self address
         (fst (Frame.countColors ansi256 f target cache)) (Some previous))
    = Paint.colors previous.

(** "Two different Frames with identical pixel data and identical
    source and target Dimension, painted with no previous frame,
    produce Paints with identical output strings." *)
Definition paintDeterminism (ansi256 : value -> value -> value -> Z)
  (h : Frame.heap) (a b : nat) (d : Dimension.t) : Prop :=
  forall fa fb pa ha pb hb,
    a <> b ->
    Frame.frames h !! a = Some fa ->
    Frame.frames h !! b = Some fb ->
    Frame._pixels fa = Frame._pixels fb ->
    Frame._dimension fa = Frame._dimension fb ->
    Frame.getPaint ansi256 a d None h = Some (pa, ha) ->
    Frame.getPaint ansi256 b d None ha = Some (pb, hb) ->
    Paint.ascii pa = Paint.ascii pb.

(** "play(path, options) on the player session while its state is not
    STOPPED fails and leaves the session unaltered." *)
Definition sessionPlayGuard {Frame : Type}
  (getMediaReader : string -> MediaReader.Options -> outcome (MediaReader.t Frame))
  (filePath : string) (options : MediaReader.Options)
  (p : Player.t) (s : Store.t Frame) : Prop :=
  Player.stopped p = false ->
  exists e, Player.play getMediaReader filePath options p s = (Thrown e, p, s).

(** "When the tick observes that the bound FrameSet has no buffered
    frame left and is finalized, it calls Controller.stop()." *)
Definition autoStop {Frame : Type}
  (statusText : Display.t Frame -> Store.t Frame -> option Frame -> string)
  (c : Controller.t Frame) : Prop :=
  forall fs,
    Controller.bound c = Some fs ->
    FrameSet.hasNext fs = false ->
    FrameSet.finalized fs = true ->
    Controller.tickStops statusText c = true.

End Stated.

(** ** Concrete inputs

Inputs on which the properties are instantiated; numbers stand for
frames where the frames themselves do not matter. *)

(** Two frames are added to a new frame set and [subSet(0, 1)] is taken. *)
Definition sliceOfTwo : FrameSet.construction nat :=
  FrameSet.SubSetOf (FrameSet.New None)
    [FrameSet.OpAdd 1%nat; FrameSet.OpAdd 2%nat] (Some 0) (Some 1).

(** The colour (1, 2, 3) with full opacity. *)
Definition opaque123 : Color.t :=
  Color.constructor (JNum 1) (JNum 2) (JNum 3) (JNum 255).

(** Three pixels of the palette colour 16 and three transparent ones in
    one cell. *)
Definition blackAndClear : Paint.hist := [(16, 3); (-1, 3)].

(** Two cells, of the colours 1 and 2. *)
Definition twoColours : list (option Paint.hist) := [Some [(1, 1)]; Some [(2, 1)]].

(** The conversion of color-convert, for the examples that need a
    palette: grays go to the ramp 232-255 (or to 16 and 231 at the
    ends), other colours to the 6x6x6 cube. *)
Definition sampleAnsi256 (r g b : value) : Z :=
  match r, g, b with
  | JNum r, JNum g, JNum b =>
      if (r =? g) && (g =? b) then
        if r <? 8 then 16
        else if 248 <? r then 231
        else (2 * 24 * (r - 8) + 247) / (2 * 247) + 232
      else
        16 + 36 * ((10 * r + 255) / 510) + 6 * ((10 * g + 255) / 510)
        + (10 * b + 255) / 510
  | _, _, _ => 0
  end.

Definition repeatPixels (n : nat) (pixel : list Z) : list Z :=
  concat (repeat pixel n).

(** A 3x3 frame of opaque red and a 2x2 frame of transparent pixels. *)
Definition redFrame : Frame.t :=
  {| Frame._kind := Frame.Alpha; Frame._index := 0;
     Frame._pixels := repeatPixels 9 [255; 0; 0; 255];
     Frame._dimension := Dimension.constructor 3 3;
     Frame._paintCache := ∅ |}.

Definition clearFrame : Frame.t :=
  {| Frame._kind := Frame.Alpha; Frame._index := 1;
     Frame._pixels := repeatPixels 4 [0; 0; 0; 0];
     Frame._dimension := Dimension.constructor 2 2;
     Frame._paintCache := ∅ |}.

(** A second 2x2 frame, of opaque red. *)
Definition smallRedFrame : Frame.t :=
  {| Frame._kind := Frame.Alpha; Frame._index := 0;
     Frame._pixels := repeatPixels 4 [255; 0; 0; 255];
     Frame._dimension := Dimension.constructor 2 2;
     Frame._paintCache := ∅ |}.

Definition viewport3 : Dimension.t := Dimension.constructor 3 3.

(** The paint of the red 3x3 frame for the 3x3 viewport. *)
Definition redPaint : Paint.t :=
  Paint.constructor 0 0
    (fst (Frame.countColors sampleAnsi256 redFrame viewport3 ∅)) None.

(** The paint of the red 2x2 frame for the 3x3 viewport. *)
Definition smallRedPaint : Paint.t :=
  Paint.constructor 0 0
    (fst (Frame.countColors sampleAnsi256 smallRedFrame viewport3 ∅)) None.

(** A 1x1 frame of one transparent pixel, and the paint of a red 2x1
    frame for a 2x1 viewport. *)
Definition onePixelClear : Frame.t :=
  {| Frame._kind := Frame.Alpha; Frame._index := 1;
     Frame._pixels := [0; 0; 0; 0];
     Frame._dimension := Dimension.constructor 1 1;
     Frame._paintCache := ∅ |}.

Definition viewport2x1 : Dimension.t := Dimension.constructor 2 1.

Definition wideRedPaint : Paint.t :=
  Paint.constructor 0 0
    (fst (Frame.countColors sampleAnsi256
            {| Frame._kind := Frame.Alpha; Frame._index := 0;
               Frame._pixels := repeatPixels 2 [255; 0; 0; 255];
               Frame._dimension := Dimension.constructor 2 1;
               Frame._paintCache := ∅ |}
            viewport2x1 ∅)) None.

(** A heap with the red 3x3 frame at address 0, the transparent 2x2
    frame at address 1 and a red 2x2 frame at address 2. *)
Definition sampleHeap : Frame.heap :=
  let red := [255; 0; 0; 255] in
  let h := Frame.emptyHeap in
  let h := snd (Frame.constructor Frame.Alpha 0 (repeatPixels 9 red) 3 3 h) in
  let h := snd (Frame.constructor Frame.Alpha 1 (repeatPixels 4 [0; 0; 0; 0]) 2 2 h) in
  snd (Frame.constructor Frame.Alpha 0 (repeatPixels 4 red) 2 2 h).

Definition noPaint : Paint.t := Paint.constructor 0 0 [] None.

Definition paintOf (r : option (Paint.t * Frame.heap)) : Paint.t :=
  match r with Some (p, _) => p | None => noPaint end.

Definition heapOf (r : option (Paint.t * Frame.heap)) : Frame.heap :=
  match r with Some (_, h) => h | None => Frame.emptyHeap end.

(** The transparent frame is painted after the red 3x3 frame. *)
Definition clearOverRed : option (Paint.t * Frame.heap) :=
  Frame.getPaint sampleAnsi256 1 viewport3 (Some 0%nat) sampleHeap.

(** After the transparent frame was painted after the red 3x3 frame,
    a second transparent 2x2 frame is created, at address 3. *)
Definition twoClearFrames : Frame.heap :=
  snd (Frame.constructor Frame.Alpha 2 (repeatPixels 4 [0; 0; 0; 0]) 2 2
         (heapOf clearOverRed)).

(** A frame and an opaque frame made from one buffer of twelve
    components: three pixels of four components for the one, four
    pixels of three components for the other. *)
Definition sharedBuffer : Frame.heap :=
  let pixels := repeatPixels 3 [255; 0; 0; 255] in
  let h := snd (Frame.constructor Frame.Alpha 0 pixels 2 2 Frame.emptyHeap) in
  snd (Frame.constructor Frame.Opaque 1 pixels 2 2 h).

(** The red 2x2 frame is painted with no previous frame; later the
    transparent frame is painted after it, a second red 2x2 frame is
    created, at address 3, and painted with no previous frame. *)
Definition firstRed : option (Paint.t * Frame.heap) :=
  Frame.getPaint sampleAnsi256 2 viewport3 None sampleHeap.

Definition afterFirstRed : list Frame.action :=
  [Frame.GetPaint 1 viewport3 (Some 2%nat);
   Frame.Construct Frame.Alpha 1 (repeatPixels 4 [255; 0; 0; 255]) 2 2].

(** What happens after the transparent frame was painted: the red 2x2
    frame is painted and a frame is created. *)
Definition laterActions : list Frame.action :=
  [Frame.GetPaint 2 viewport3 None;
   Frame.Construct Frame.Opaque 2 [1; 2; 3] 1 1].

Definition secondRed : option (Paint.t * Frame.heap) :=
  Frame.getPaint sampleAnsi256 3 viewport3 None
    (Frame.performAll sampleAnsi256 afterFirstRed (heapOf firstRed)).

(** A decoder that reads the frames 10 and 11 of a 2x2 medium and one
    that finishes without reading any frame. *)
Definition twoFrameReader : MediaReader.t nat :=
  {| MediaReader.readTitle := Returned "movie";
     MediaReader.readDimension := Returned (Dimension.constructor 2 2);
     MediaReader.readFrames := fun _ => ([10%nat; 11%nat], true, Returned tt) |}.

Definition noFrameReader : MediaReader.t nat :=
  {| MediaReader.readTitle := Returned "movie";
     MediaReader.readDimension := Returned (Dimension.constructor 2 2);
     MediaReader.readFrames := fun _ => ([], true, Returned tt) |}.

Definition readerOf (filePath : string) (options : MediaReader.Options)
  : outcome (MediaReader.t nat) :=
  if String.eqb filePath "empty.gif" then Returned noFrameReader
  else Returned twoFrameReader.

Definition plainStatus (d : Display.t nat) (s : Store.t nat) (frame : option nat)
  : string := "".

Definition anyFile (filePath : string) : outcome bool := Returned true.

(** A controller as the command line builds it, and the same after
    [play] on a medium of two frames and on one without frames. *)
Definition idle : Controller.t nat :=
  Controller.constructor
    (Display.constructor "term-player" None None None) Player.constructor.

Definition playingTwo : Controller.t nat :=
  snd (Controller.play plainStatus readerOf anyFile "movie.gif" None idle).

Definition playingNone : Controller.t nat :=
  snd (Controller.play plainStatus readerOf anyFile "empty.gif" None idle).

(** One tick later one frame is left. *)
Definition lastFrameLeft : Controller.t nat :=
  snd (Controller.paintNextFrame plainStatus playingTwo).

(** A decoder that fails to read the dimension of the medium, and one
    that fails after the first frame. *)
Definition noDimensionReader : MediaReader.t nat :=
  {| MediaReader.readTitle := Returned "broken";
     MediaReader.readDimension := Thrown "Invalid data found";
     MediaReader.readFrames := fun _ => ([], false, Returned tt) |}.

Definition brokenReaderOf (filePath : string) (options : MediaReader.Options)
  : outcome (MediaReader.t nat) :=
  if String.eqb filePath "broken.gif" then Returned noDimensionReader
  else Returned twoFrameReader.

(** A controller that has played a medium of two frames to its end. *)
Definition playedTwo : Controller.t nat :=
  Controller.ticks plainStatus 2
    (snd (Controller.play plainStatus brokenReaderOf anyFile "movie.gif" None idle)).

(** * Properties *)

(** ** FrameSet *)

Module FrameSetFacts.
Section WithFrame.

Context {Frame : Type}.
Implicit Types (s : FrameSet.t Frame) (o : FrameSet.op Frame)
  (ops : list (FrameSet.op Frame)) (c : FrameSet.construction Frame).

Lemma step_counts o s :
  FrameSet.totalLength (FrameSet.step o s)
  = FrameSet.totalLength s + FrameSet.successfulAdds [o] s.
Proof.
  unfold FrameSet.totalLength.
  destruct o; cbn [FrameSet.step FrameSet.successfulAdds];
    unfold FrameSet.add, FrameSet.finalize, FrameSet.next, FrameSet.finalized.
  - destruct (FrameSet._finalized s); cbn; lia.
  - destruct (FrameSet._finalized s); cbn; lia.
  - lia.
  - destruct (negb _); cbn; [lia|].
    destruct (FrameSet._frames s); cbn; lia.
Qed.

Lemma step_bounds o s :
  FrameSet.length s <= FrameSet.totalLength s ->
  FrameSet.length (FrameSet.step o s) <= FrameSet.totalLength (FrameSet.step o s).
Proof.
  unfold FrameSet.length, FrameSet.totalLength.
  destruct o; cbn [FrameSet.step];
    unfold FrameSet.add, FrameSet.finalize, FrameSet.next, FrameSet.finalized,
      FrameSet.hasNext; intros H.
  - destruct (FrameSet._finalized s); cbn; [lia|].
    rewrite List.length_app; cbn. lia.
  - destruct (FrameSet._finalized s); cbn; lia.
  - lia.
  - destruct (FrameSet._frames s) as [|frame rest] eqn:E;
      destruct (negb _); cbn [snd FrameSet._frames FrameSet._totalLength];
      rewrite ?E; cbn [List.length] in *; lia.
Qed.

Lemma step_keeps_finalized o s :
  FrameSet.finalized s = true ->
  FrameSet.finalized (FrameSet.step o s) = true
  /\ FrameSet.totalLength (FrameSet.step o s) = FrameSet.totalLength s.
Proof.
  unfold FrameSet.finalized, FrameSet.totalLength. intros H.
  destruct o; cbn [FrameSet.step];
    unfold FrameSet.add, FrameSet.finalize, FrameSet.next, FrameSet.finalized;
    rewrite ?H; cbn; auto.
  destruct (negb _); cbn; auto.
  destruct (FrameSet._frames s); cbn; auto.
Qed.

Lemma run_cons o ops s :
  FrameSet.run (o :: ops) s = FrameSet.run ops (FrameSet.step o s).
Proof. reflexivity. Qed.

Lemma run_counts ops : forall s,
  FrameSet.totalLength (FrameSet.run ops s)
  = FrameSet.totalLength s + FrameSet.successfulAdds ops s.
Proof.
  induction ops as [|o ops IH]; intros s.
  - cbn. lia.
  - rewrite run_cons, IH, step_counts.
    cbn [FrameSet.successfulAdds]. lia.
Qed.

Lemma run_bounds ops : forall s,
  FrameSet.length s <= FrameSet.totalLength s ->
  FrameSet.length (FrameSet.run ops s) <= FrameSet.totalLength (FrameSet.run ops s).
Proof.
  induction ops as [|o ops IH]; intros s H; [exact H|].
  rewrite run_cons. apply IH, step_bounds, H.
Qed.

Lemma run_frozen ops : forall s,
  FrameSet.finalized s = true ->
  FrameSet.totalLength (FrameSet.run ops s) = FrameSet.totalLength s.
Proof.
  induction ops as [|o ops IH]; intros s H; [reflexivity|].
  rewrite run_cons.
  destruct (step_keeps_finalized o s H) as [Hf Ht].
  rewrite (IH _ Hf). exact Ht.
Qed.

Lemma subSet_counted b e s :
  FrameSet.totalLength (FrameSet.subSet b e s)
  = FrameSet.length (FrameSet.subSet b e s).
Proof.
  unfold FrameSet.subSet. destruct (FrameSet._finalized s); reflexivity.
Qed.

Lemma build_counted c :
  FrameSet.startsCounted c ->
  FrameSet.totalLength (FrameSet.build c) = FrameSet.length (FrameSet.build c).
Proof.
  destruct c as [[[|frame frames]|]|parent ops b e]; cbn [FrameSet.build];
    intros H; try reflexivity; try contradiction.
  apply subSet_counted.
Qed.

(** C1, as the sources have it. For a frame set made by the
    constructor without initial frames, or returned by [subSet], and
    every sequence of operations on it: [totalLength >= length];
    [totalLength] is the number of frames the set started with (none,
    or the size of the slice) plus the number of [add] calls that
    succeeded; and once the set is finalized no operation changes
    [totalLength]. *)
Theorem totalLength_counts c ops :
  FrameSet.startsCounted c ->
  let s := FrameSet.run ops (FrameSet.build c) in
  FrameSet.length s <= FrameSet.totalLength s
  /\ FrameSet.totalLength s
     = FrameSet.length (FrameSet.build c)
       + FrameSet.successfulAdds ops (FrameSet.build c)
  /\ (FrameSet.finalized s = true ->
      forall later,
        FrameSet.totalLength (FrameSet.run later s) = FrameSet.totalLength s).
Proof.
  intros Hc s. pose proof (build_counted c Hc) as H0.
  repeat split.
  - apply run_bounds. lia.
  - subst s. rewrite run_counts. lia.
  - intros Hf later. apply run_frozen, Hf.
Qed.

(** C6. On a frame set without buffered frames, finalized or not,
    [next()] throws and the frame set after the call is the frame set
    before it: same frames, [totalLength], [finalized] flag, and no
    event emitted. *)
Theorem next_on_empty_fails s :
  FrameSet._frames s = [] ->
  FrameSet.next s = (Thrown "No more frames in set", s).
Proof.
  intros H. unfold FrameSet.next, FrameSet.hasNext. rewrite H. reflexivity.
Qed.

End WithFrame.
End FrameSetFacts.

(** Closed instances for [FrameSet]. *)

Lemma totalLength_counts_witness :
  FrameSet.startsCounted sliceOfTwo
  /\ (let s := FrameSet.run
                 [FrameSet.OpAdd 3%nat; FrameSet.OpFinalize;
                  FrameSet.OpAdd 4%nat; FrameSet.OpNext]
                 (FrameSet.build sliceOfTwo) in
      FrameSet.length s <= FrameSet.totalLength s
      /\ FrameSet.totalLength s
         = FrameSet.length (FrameSet.build sliceOfTwo)
           + FrameSet.successfulAdds
               [FrameSet.OpAdd 3%nat; FrameSet.OpFinalize;
                FrameSet.OpAdd 4%nat; FrameSet.OpNext]
               (FrameSet.build sliceOfTwo)
      /\ (FrameSet.finalized s = true ->
          forall later,
            FrameSet.totalLength (FrameSet.run later s) = FrameSet.totalLength s)).
Proof.
  split; [exact I|].
  apply (FrameSetFacts.totalLength_counts sliceOfTwo
           [FrameSet.OpAdd 3%nat; FrameSet.OpFinalize;
            FrameSet.OpAdd 4%nat; FrameSet.OpNext]).
  exact I.
Defined.

(** A frame set returned by [subSet] starts with [totalLength] equal to
    the size of the slice although [add] was never called on it: the
    parent received two frames, the slice holds one. *)
Lemma totalLength_law_fails_on_subSet :
  ~ Stated.totalLengthLaw sliceOfTwo [].
Proof.
  intros [_ [H _]]. vm_compute in H. discriminate H.
Qed.

(** The constructor leaves [totalLength] at zero when it is handed
    frames, where [subSet] sets it to their number. *)
Lemma constructor_with_frames_not_counted :
  let s := FrameSet.constructor (Some [7%nat]) in
  FrameSet.length s = 1 /\ FrameSet.totalLength s = 0
  /\ ~ Stated.totalLengthLaw (FrameSet.New (Some [7%nat])) [].
Proof.
  repeat split. intros [H _]. vm_compute in H. apply H. reflexivity.
Qed.

Lemma next_on_empty_fails_witness :
  let s := snd (FrameSet.finalize (FrameSet.constructor (@None (list nat)))) in
  FrameSet._frames s = []
  /\ FrameSet.finalized s = true
  /\ FrameSet.next s = (Thrown "No more frames in set", s).
Proof.
  split; [reflexivity|]. split; [reflexivity|].
  apply (FrameSetFacts.next_on_empty_fails
           (snd (FrameSet.finalize (FrameSet.constructor (@None (list nat)))))).
  reflexivity.
Defined.

(** ** Color *)

Module ColorFacts.

Lemma split_on_plain s : noComma s = true -> split_on "," s = [s].
Proof.
  induction s as [|c rest IH]; cbn [noComma split_on]; [reflexivity|].
  intros H. apply andb_prop in H as [Hc Hr].
  apply negb_true_iff in Hc. rewrite Hc, (IH Hr). reflexivity.
Qed.

Lemma split_on_field s rest :
  noComma s = true ->
  split_on "," (s ++ String "," rest)%string = s :: split_on "," rest.
Proof.
  induction s as [|c s IH]; intros H.
  - reflexivity.
  - cbn [noComma] in H. apply andb_prop in H as [Hc Hs].
    apply negb_true_iff in Hc.
    change (split_on "," (String c (s ++ String "," rest)%string)
            = String c s :: split_on "," rest).
    cbn [split_on]. rewrite Hc, (IH Hs). reflexivity.
Qed.

Lemma byte_cases n :
  0 <= n <= 255 -> In (Z.to_nat n) (seq 0 256).
Proof. intros H. apply in_seq. lia. Qed.

Lemma dec_noComma n : 0 <= n <= 255 -> noComma (dec n) = true.
Proof.
  intros H.
  assert (All : forallb (fun k => noComma (dec (Z.of_nat k))) (seq 0 256) = true)
    by (vm_compute; reflexivity).
  rewrite forallb_forall in All.
  specialize (All _ (byte_cases n H)).
  rewrite Z2Nat.id in All by lia. exact All.
Qed.

(** What the round trip returns for components in 0-255: the four
    components come back as the strings of their decimal digits. *)
Lemma deserialize_serialize_strings r g b a :
  0 <= r <= 255 -> 0 <= g <= 255 -> 0 <= b <= 255 -> 0 <= a <= 255 ->
  Color.deserialize
    (Color.serialize (Some (Color.constructor (JNum r) (JNum g) (JNum b) (JNum a))))
  = Some {| Color._red := JStr (dec r); Color._green := JStr (dec g);
            Color._blue := JStr (dec b); Color._alpha := JStr (dec a) |}.
Proof.
  intros Hr Hg Hb Ha.
  unfold Color.serialize, Color.deserialize, Color.constructor,
    Color.red, Color.green, Color.blue, Color.alpha.
  cbn [Color._red Color._green Color._blue Color._alpha to_string].
  change (dec r ++ "," ++ dec g ++ "," ++ dec b ++ "," ++ dec a)%string
    with (dec r ++ String "," (dec g ++ String "," (dec b ++ String "," (dec a))))%string.
  rewrite !split_on_field, split_on_plain by (apply dec_noComma; assumption).
  reflexivity.
Qed.

(** The strings that come back still denote the numbers that went in. *)
Lemma dec_to_number n : 0 <= n <= 255 -> to_number (JStr (dec n)) = Some n.
Proof.
  intros H.
  assert (All : forallb (fun k => match to_number (JStr (dec (Z.of_nat k))) with
                                  | Some m => m =? Z.of_nat k
                                  | None => false
                                  end) (seq 0 256) = true)
    by (vm_compute; reflexivity).
  rewrite forallb_forall in All.
  specialize (All _ (byte_cases n H)).
  rewrite Z2Nat.id in All by lia.
  destruct (to_number (JStr (dec n))); [|discriminate].
  apply Z.eqb_eq in All. congruence.
Qed.

(** C7, on the colour (1, 2, 3, 255): [deserialize] hands the pieces
    of the split string to the constructor as they are, so the
    components of the result are strings, not the numbers of the
    colour that was serialized. *)
Theorem deserialize_serialize_opaque123 :
  Color.deserialize (Color.serialize (Some opaque123))
  = Some {| Color._red := JStr "1"; Color._green := JStr "2";
            Color._blue := JStr "3"; Color._alpha := JStr "255" |}
  /\ strict_eq (JStr "1") (Color.red opaque123) = false
  /\ ~ Stated.roundTrip opaque123.
Proof.
  split; [reflexivity|]. split; [reflexivity|].
  unfold Stated.roundTrip. vm_compute. discriminate.
Qed.

End ColorFacts.

(** ** Paint *)

Module PaintFacts.

(** *** Weights *)

Lemma half_le_whole n :
  0 < n -> Qle_bool (inject_Z n / 2) (inject_Z n) = true.
Proof.
  intros H. unfold Qle_bool, Qdiv, Qmult, Qinv, inject_Z. cbn.
  apply Z.leb_le. lia.
Qed.

Lemma whole_not_le_half n :
  0 < n -> Qle_bool (inject_Z n) (inject_Z n / 2) = false.
Proof.
  intros H. unfold Qle_bool, Qdiv, Qmult, Qinv, inject_Z. cbn.
  apply Z.leb_gt. lia.
Qed.

Lemma weigh_plain index previousColors k n :
  k <> Paint.TRANSPARENT_ANSI \/ previousColors = None ->
  Paint.weigh index previousColors (k, n)
  = {| Paint.color := JNum k;
       Paint.count := if Color.isAnsiGrayscale (JNum k)
                      then (inject_Z n / 2)%Q else inject_Z n |}.
Proof.
  intros H. unfold Paint.weigh. cbn [fst snd].
  destruct previousColors as [previous|]; [|reflexivity].
  destruct H as [H|H]; [|discriminate].
  apply Z.eqb_neq in H. rewrite H. reflexivity.
Qed.

Lemma gray_not_transparent g :
  Color.isAnsiGrayscale (JNum g) = true -> g <> Paint.TRANSPARENT_ANSI.
Proof. intros H ->. vm_compute in H. discriminate. Qed.

(** C4, as the sources have it. In a colour count of exactly two
    codes with the same positive number of pixels, one grayscale and
    one not, the code that is not grayscale is the prominent colour,
    provided it is not the transparency code replaced by the colour
    of a previous paint: the replacement happens before the weights
    are compared. *)
Theorem grayscale_bias index gray other n previousColors colors :
  0 < n ->
  Color.isAnsiGrayscale (JNum gray) = true ->
  Color.isAnsiGrayscale (JNum other) = false ->
  other <> Paint.TRANSPARENT_ANSI \/ previousColors = None ->
  colors = [(gray, n); (other, n)] \/ colors = [(other, n); (gray, n)] ->
  Paint.getProminentColor index (Some colors) previousColors = JNum other.
Proof.
  intros Hn Hg Ho Hsub Hc.
  pose proof (gray_not_transparent gray Hg) as Hgt.
  unfold Paint.getProminentColor.
  destruct Hc as [-> | ->]; cbn [map];
    rewrite (weigh_plain index previousColors other n Hsub),
      (weigh_plain index previousColors gray n (or_introl Hgt)), Hg, Ho;
    unfold Paint.sort; cbn [fold_right Paint.insert];
    unfold Paint.compare; cbn [Paint.count];
    rewrite ?half_le_whole, ?whole_not_le_half by assumption;
    reflexivity.
Qed.

Lemma weigh_resolved index previousColors k n :
  Paint.weigh index previousColors (k, n)
  = {| Paint.color := Paint.resolved index previousColors k;
       Paint.count :=
         if Color.isAnsiGrayscale (Paint.resolved index previousColors k)
         then (inject_Z n / 2)%Q else inject_Z n |}.
Proof.
  unfold Paint.resolved, Paint.weigh. cbn [fst snd Paint.color].
  destruct previousColors as [previous|]; [|reflexivity].
  destruct (k =? Paint.TRANSPARENT_ANSI); reflexivity.
Qed.

(** The bias in terms of the colours the two entries stand for: with
    equal positive counts, when one of the two colours is grayscale and
    the other is not, the other is the prominent colour, in whichever
    order the entries come. *)
Lemma grayscale_bias_resolved index k1 k2 n previousColors :
  0 < n ->
  Color.isAnsiGrayscale (Paint.resolved index previousColors k1) = true ->
  Color.isAnsiGrayscale (Paint.resolved index previousColors k2) = false ->
  Paint.getProminentColor index (Some [(k1, n); (k2, n)]) previousColors
  = Paint.resolved index previousColors k2
  /\ Paint.getProminentColor index (Some [(k2, n); (k1, n)]) previousColors
     = Paint.resolved index previousColors k2.
Proof.
  intros Hn H1 H2. unfold Paint.getProminentColor. cbn [map].
  rewrite !weigh_resolved, H1, H2.
  unfold Paint.sort; cbn [fold_right Paint.insert].
  unfold Paint.compare; cbn [Paint.count].
  rewrite half_le_whole, whole_not_le_half by assumption.
  split; reflexivity.
Qed.

(** *** The loop of the constructor *)

Lemma append_cons x (a b : string) :
  (String x a ++ b)%string = String x (a ++ b)%string.
Proof. reflexivity. Qed.

Lemma append_assoc (a b c : string) :
  ((a ++ b) ++ c)%string = (a ++ (b ++ c))%string.
Proof.
  induction a as [|x a IH]; [reflexivity|]. now rewrite !append_cons, IH.
Qed.

Lemma append_empty (a : string) : (a ++ "")%string = a.
Proof.
  induction a as [|x a IH]; [reflexivity|]. now rewrite append_cons, IH.
Qed.

Lemma renderAll_cons tk tks :
  Paint.renderAll (tk :: tks)
  = (Paint.render tk ++ Paint.renderAll tks)%string.
Proof. reflexivity. Qed.

Lemma renderAll_app xs ys :
  Paint.renderAll (xs ++ ys)
  = (Paint.renderAll xs ++ Paint.renderAll ys)%string.
Proof.
  induction xs as [|x xs IH]; [reflexivity|].
  rewrite <- app_comm_cons, !renderAll_cons, IH.
  now rewrite append_assoc.
Qed.

Lemma nonempty_app_r a b :
  Paint.nonempty b = true -> Paint.nonempty (a ++ b)%string = true.
Proof. destruct a; [now intros H|reflexivity]. Qed.

Lemma nonempty_after_glyph a tks :
  Paint.nonempty (a ++ Paint.renderAll (tks ++ [Paint.Glyph]))%string = true.
Proof.
  apply nonempty_app_r. rewrite renderAll_app. apply nonempty_app_r.
  reflexivity.
Qed.

Lemma strict_eq_eq a b : strict_eq a b = true -> a = b.
Proof.
  destruct a, b; cbn; intros H; try discriminate; try reflexivity.
  - apply Z.eqb_eq in H. now subst.
  - apply String.eqb_eq in H. now subst.
Qed.

(** One turn of the loop appends the tokens of one cell. *)
Lemma body_tokens previousColors i colors st :
  let c := Paint.getProminentColor i colors previousColors in
  let st' := Paint.body previousColors i colors st in
  Paint.l_colors st' = Paint.l_colors st ++ [c]
  /\ Paint.l_previousColor st'
     = (if strict_eq c (Paint.l_previousColor st)
        then Paint.l_previousColor st else c)
  /\ Paint.l_ascii st'
     = (Paint.l_ascii st
        ++ Paint.renderAll
             ((if strict_eq c (Paint.l_previousColor st) then []
               else (if negb (Paint.nonempty (Paint.l_ascii st)) then []
                     else [Paint.Close]) ++ [Paint.Open c])
              ++ [Paint.Glyph]))%string.
Proof.
  intros c st'. subst c st'. unfold Paint.body.
  cbn [Paint.l_colors Paint.l_previousColor Paint.l_ascii].
  destruct (strict_eq _ _); cbn [negb].
  - cbn. auto.
  - cbn [Paint.l_colors Paint.l_previousColor Paint.l_ascii].
    destruct (Paint.nonempty (Paint.l_ascii st)); cbn [negb app];
      repeat split; cbn [Paint.renderAll fold_right Paint.render];
      rewrite ?append_assoc, ?append_empty; reflexivity.
Qed.

Lemma iterate_tokens previousColors countedColors : forall i st,
  let cs := Paint.chosen previousColors i countedColors in
  let st' := Paint.iterate previousColors i countedColors st in
  Paint.l_colors st' = Paint.l_colors st ++ cs
  /\ Paint.l_ascii st'
     = (Paint.l_ascii st
        ++ Paint.renderAll
             (Paint.cellTokens (negb (Paint.nonempty (Paint.l_ascii st)))
                               (Paint.l_previousColor st) cs))%string.
Proof.
  induction countedColors as [|colors rest IH]; intros i st.
  - cbn. rewrite app_nil_r, append_empty. auto.
  - cbn [Paint.chosen Paint.iterate Paint.cellTokens].
    destruct (body_tokens previousColors i colors st) as (Hc & Hp & Ha).
    destruct (IH (S i) (Paint.body previousColors i colors st)) as (IHc & IHa).
    cbn zeta in *. rewrite IHc, IHa, Hc, Hp, Ha. split.
    + now rewrite <- app_assoc.
    + rewrite nonempty_after_glyph. cbn [negb].
      rewrite append_assoc, <- renderAll_app, <- app_assoc.
      reflexivity.
Qed.

Lemma cellTokens_nonempty first current cs :
  cs <> [] ->
  Paint.nonempty (Paint.renderAll (Paint.cellTokens first current cs)) = true.
Proof.
  destruct cs as [|c rest]; [congruence|]. intros _.
  cbn [Paint.cellTokens].
  destruct (strict_eq c current); [reflexivity|].
  destruct first; reflexivity.
Qed.

Lemma countGlyph_cellTokens cs : forall first current,
  Paint.countGlyph (Paint.cellTokens first current cs) = List.length cs.
Proof.
  unfold Paint.countGlyph.
  induction cs as [|c rest IH]; intros first current; [reflexivity|].
  cbn [Paint.cellTokens]. rewrite List.filter_app, List.length_app.
  cbn [List.filter List.length]. rewrite IH.
  destruct (strict_eq c current); [reflexivity|].
  destruct first; reflexivity.
Qed.

Lemma closes_match_opens cs : forall current,
  Paint.countClose (Paint.cellTokens false current cs)
  = Paint.countOpen (Paint.cellTokens false current cs).
Proof.
  unfold Paint.countClose, Paint.countOpen.
  induction cs as [|c rest IH]; intros current; [reflexivity|].
  cbn [Paint.cellTokens]. rewrite !List.filter_app, !List.length_app.
  cbn [List.filter List.length]. rewrite IH.
  destruct (strict_eq c current); reflexivity.
Qed.

Lemma countClose_encoding cs :
  Paint.countClose (Paint.encoding cs)
  = match cs with
    | [] => 0%nat
    | c :: _ =>
        (Paint.countOpen (Paint.encoding cs)
         + (if strict_eq c JNull then 1 else 0))%nat
    end.
Proof.
  destruct cs as [|c rest]; [reflexivity|].
  pose proof (closes_match_opens rest (if strict_eq c JNull then JNull else c)) as H.
  unfold Paint.encoding, Paint.countClose, Paint.countOpen in *.
  cbn [Paint.cellTokens].
  rewrite !List.filter_app, !List.length_app.
  cbn [List.filter List.length]. rewrite H.
  destruct (strict_eq c JNull); cbn; lia.
Qed.

Lemma length_chosen previousColors countedColors : forall i,
  List.length (Paint.chosen previousColors i countedColors)
  = List.length countedColors.
Proof.
  induction countedColors as [|c rest IH]; intros i; cbn; [reflexivity|].
  now rewrite IH.
Qed.

Lemma constructor_colors self frame countedColors lastPaint :
  Paint.colors (Paint.constructor self frame countedColors lastPaint)
  = Paint.chosen (option_map Paint._colors lastPaint) 0 countedColors.
Proof.
  unfold Paint.constructor, Paint.colors. cbn [Paint._colors].
  destruct (iterate_tokens (option_map Paint._colors lastPaint) countedColors 0
              {| Paint.l_ascii := ""; Paint.l_colors := [];
                 Paint.l_previousColor := JNull |}) as [Hc _].
  cbn zeta in Hc. rewrite Hc. reflexivity.
Qed.

(** C5, as the sources have it. The string of a paint is the
    rendering of [Paint.encoding] applied to its chosen colours, cell
    after cell in the order of the array: an open-colour escape
    exactly at the cells whose colour differs from the running colour
    ([null] at the start), preceded by a close escape unless it
    starts the string; one glyph per cell; and a close escape at the
    very end when there is at least one cell. *)
Theorem ascii_is_encoding self frame countedColors lastPaint :
  let p := Paint.constructor self frame countedColors lastPaint in
  Paint.colors p
  = Paint.chosen (option_map Paint._colors lastPaint) 0 countedColors
  /\ Paint.ascii p = Paint.renderAll (Paint.encoding (Paint.colors p))
  /\ Paint.countGlyph (Paint.encoding (Paint.colors p))
     = List.length countedColors
  /\ Paint.countClose (Paint.encoding (Paint.colors p))
     = match Paint.colors p with
       | [] => 0%nat
       | c :: _ =>
           (Paint.countOpen (Paint.encoding (Paint.colors p))
            + (if strict_eq c JNull then 1 else 0))%nat
       end.
Proof.
  intros p. split; [apply constructor_colors|].
  split; [|split; [|apply countClose_encoding]].
  all: subst p; rewrite constructor_colors.
  all: set (previousColors := option_map Paint._colors lastPaint).
  - unfold Paint.constructor, Paint.ascii. cbn [Paint._ascii].
    fold previousColors.
    destruct (iterate_tokens previousColors countedColors 0
                {| Paint.l_ascii := ""; Paint.l_colors := [];
                   Paint.l_previousColor := JNull |}) as [_ Ha].
    cbn zeta in Ha. cbn [Paint.l_ascii Paint.l_previousColor Paint.nonempty negb] in Ha.
    rewrite Ha.
    change (String.append "" ?x) with x.
    unfold Paint.encoding. rewrite renderAll_app.
    destruct countedColors as [|colors rest]; [reflexivity|].
    rewrite cellTokens_nonempty by (cbn; congruence).
    reflexivity.
  - unfold Paint.encoding, Paint.countGlyph.
    rewrite List.filter_app, List.length_app.
    fold (Paint.countGlyph
            (Paint.cellTokens true JNull (Paint.chosen previousColors 0 countedColors))).
    rewrite countGlyph_cellTokens, length_chosen.
    destruct (Paint.chosen previousColors 0 countedColors); cbn; lia.
Qed.

End PaintFacts.

(** Closed instances for [Paint]. *)

Lemma grayscale_bias_witness :
  0 < 3
  /\ Color.isAnsiGrayscale (JNum 16) = true
  /\ Color.isAnsiGrayscale (JNum 196) = false
  /\ Paint.getProminentColor 0 (Some [(16, 3); (196, 3)]) (Some [JNum 232])
     = JNum 196.
Proof.
  split; [lia|]. split; [reflexivity|]. split; [reflexivity|].
  apply (PaintFacts.grayscale_bias 0 16 196 3 (Some [JNum 232]) [(16, 3); (196, 3)]).
  - lia.
  - reflexivity.
  - reflexivity.
  - left. unfold Paint.TRANSPARENT_ANSI. lia.
  - left. reflexivity.
Defined.

(** With a previous paint whose colour for the cell is 100, the
    transparency code of the count is replaced before the weights are
    compared, and the prominent colour is 100: it is not the code other
    than 16 that the count contains. *)
Lemma grayscale_bias_fails_on_transparency :
  ~ Stated.grayscaleBias 0 16 (-1) 3 (Some [JNum 100]) blackAndClear.
Proof.
  intros H.
  assert (E : Paint.getProminentColor 0 (Some blackAndClear) (Some [JNum 100])
              = JNum (-1)).
  { apply H; [lia | reflexivity | reflexivity | left; reflexivity]. }
  vm_compute in E. discriminate E.
Qed.

(** When the colour borrowed from the previous paint is itself
    grayscale, both weights are halved and the code 16 of the count is
    the prominent colour. *)
Lemma grayscale_selected_after_borrowing :
  Paint.getProminentColor 0 (Some blackAndClear) (Some [JNum 232]) = JNum 16.
Proof. reflexivity. Qed.

(** Two cells of different colours: the string closes the styling
    twice, once before the second colour is opened and once at the
    end. *)
Lemma closed_once_fails_on_two_colours :
  ~ Stated.closedOnce (Paint.constructor 0 0 twoColours None).
Proof.
  unfold Stated.closedOnce. vm_compute. discriminate.
Qed.

Lemma two_colours_close_twice :
  let p := Paint.constructor 0 0 twoColours None in
  Paint.ascii p
  = (Color.openAnsi (JNum 1) ++ "#" ++ Color.closeAnsi
     ++ Color.openAnsi (JNum 2) ++ "#" ++ Color.closeAnsi)%string
  /\ Paint.countClose (Paint.encoding (Paint.colors p)) = 2%nat
  /\ Paint.countClose (Paint.specifiedEncoding (Paint.colors p)) = 1%nat.
Proof. repeat split. Qed.

(** ** Frame: the cache of paints *)

Module FrameCacheFacts.
Section WithPalette.

Variable ansi256 : value -> value -> value -> Z.

Lemma holds_cached frames f this key paint cache next :
  (f < List.length frames)%nat ->
  Frame.holds
    {| Frame.frames := <[f := Frame.cached this key paint]> frames;
       Frame.ansiCache := cache;
       Frame.nextPaint := next |} f key paint.
Proof.
  intros Hf. exists (Frame.cached this key paint). cbn.
  rewrite list_lookup_insert_eq by exact Hf. split; [reflexivity|].
  apply lookup_insert_eq.
Qed.

Lemma holds_elsewhere h (f g : nat) this key key' paint paint' frames' cache next :
  frames' !! g = Some this ->
  (forall k p, Frame.holds h f k p ->
               Frame.holds {| Frame.frames := frames'; Frame.ansiCache := cache;
                              Frame.nextPaint := next |} f k p) ->
  Frame.holds h f key paint ->
  (f = g -> key <> key') ->
  Frame.holds
    {| Frame.frames := <[g := Frame.cached this key' paint']> frames';
       Frame.ansiCache := cache;
       Frame.nextPaint := S next |} f key paint.
Proof.
  intros Hg Hkeep Hh Hne.
  destruct (Hkeep _ _ Hh) as (that & Hf & Hk). cbn in Hf.
  pose proof (lookup_lt_Some _ _ _ Hg) as Hlt.
  destruct (decide (f = g)) as [->|Hfg].
  - exists (Frame.cached this key' paint'). cbn.
    rewrite list_lookup_insert_eq by exact Hlt. split; [reflexivity|].
    rewrite lookup_insert_ne by (intros E; now apply (Hne eq_refl)).
    congruence.
  - exists that. cbn. rewrite list_lookup_insert_ne by congruence. auto.
Qed.

(** A call answers from the cache when the cache has the key. *)
Lemma body_hit recur self dimension previousFrame h paint :
  Frame.holds h self (Dimension.toString dimension) paint ->
  Frame.getPaintBody ansi256 recur self dimension previousFrame h = Some (paint, h).
Proof.
  intros (this & Hf & Hk). unfold Frame.getPaintBody. now rewrite Hf, Hk.
Qed.

(** What a call that misses the cache does, given that the call on the
    previous frame keeps the entries of every cache. *)
Lemma body_effect recur self dimension previousFrame h paint h' :
  (forall g d h0 p0 h1, recur g d h0 = Some (p0, h1) ->
     forall f key p, Frame.holds h0 f key p -> Frame.holds h1 f key p) ->
  Frame.getPaintBody ansi256 recur self dimension previousFrame h = Some (paint, h') ->
  Frame.holds h' self (Dimension.toString dimension) paint
  /\ (forall f key p, Frame.holds h f key p -> Frame.holds h' f key p).
Proof.
  intros Hrecur. unfold Frame.getPaintBody.
  destruct (Frame.frames h !! self) as [this|] eqn:Hself; [|discriminate].
  destruct (Frame._paintCache this !! Dimension.toString dimension)
    as [hit|] eqn:Hkey.
  { intros [= <- <-]. split; [now exists this|auto]. }
  destruct (Frame.countColors ansi256 this dimension (Frame.ansiCache h))
    as [countedColors cache].
  set (h0 := {| Frame.frames := Frame.frames h; Frame.ansiCache := cache;
                Frame.nextPaint := Frame.nextPaint h |}).
  assert (Hh0 : forall f key p, Frame.holds h f key p -> Frame.holds h0 f key p)
    by (intros f key p Hh; exact Hh).
  assert (Hmiss : forall p, ~ Frame.holds h self (Dimension.toString dimension) p).
  { intros p (that & Hf & Hk). congruence. }
  destruct previousFrame as [previous|].
  - destruct (recur previous dimension h0) as [[lastPaint h1]|] eqn:Hcall;
      [|discriminate].
    pose proof (Hrecur _ _ _ _ _ Hcall) as Hkeep.
    destruct (Frame.frames h1 !! self) as [this1|] eqn:Hself1; [|discriminate].
    intros [= <- <-].
    split; [apply holds_cached, (lookup_lt_Some _ _ _ Hself1)|].
    intros f key p Hh. destruct h1 as [frames1 cache1 next1].
    eapply holds_elsewhere; eauto.
    intros -> ->. exact (Hmiss _ Hh).
  - fold h0. destruct (Frame.frames h0 !! self) as [this1|] eqn:Hself1; [|discriminate].
    intros [= <- <-].
    split; [apply holds_cached, (lookup_lt_Some _ _ _ Hself1)|].
    intros f key p Hh. subst h0.
    eapply holds_elsewhere; eauto.
    intros -> ->. exact (Hmiss _ Hh).
Qed.

Lemma alone_keeps self dimension h paint h' :
  Frame.getPaintAlone ansi256 self dimension h = Some (paint, h') ->
  forall f key p, Frame.holds h f key p -> Frame.holds h' f key p.
Proof.
  intros H. eapply body_effect in H; [apply H|]. discriminate.
Qed.

Lemma getPaint_effect self dimension previousFrame h paint h' :
  Frame.getPaint ansi256 self dimension previousFrame h = Some (paint, h') ->
  Frame.holds h' self (Dimension.toString dimension) paint
  /\ (forall f key p, Frame.holds h f key p -> Frame.holds h' f key p).
Proof.
  apply body_effect. intros g d h0 p0 h1. apply alone_keeps.
Qed.

Lemma constructor_keeps k index pixels width height h f key p :
  Frame.holds h f key p ->
  Frame.holds (snd (Frame.constructor k index pixels width height h)) f key p.
Proof.
  intros (this & Hf & Hk). exists this. cbn.
  split; [|exact Hk]. rewrite lookup_app_l; [exact Hf|].
  exact (lookup_lt_Some _ _ _ Hf).
Qed.

Lemma perform_keeps a h f key p :
  Frame.holds h f key p -> Frame.holds (Frame.perform ansi256 h a) f key p.
Proof.
  destruct a as [k index pixels width height|self dimension previousFrame];
    cbn [Frame.perform].
  - apply constructor_keeps.
  - destruct (Frame.getPaint ansi256 self dimension previousFrame h)
      as [[paint h']|] eqn:E; [|auto].
    apply (getPaint_effect _ _ _ _ _ _ E).
Qed.

Lemma performAll_keeps actions : forall h f key p,
  Frame.holds h f key p -> Frame.holds (Frame.performAll ansi256 actions h) f key p.
Proof.
  induction actions as [|a actions IH]; intros h f key p H; [exact H|].
  apply IH, perform_keeps, H.
Qed.

Lemma later_call_hits f d p h paint h1 :
  Frame.getPaint ansi256 f d p h = Some (paint, h1) ->
  forall actions q,
    Frame.getPaint ansi256 f d q (Frame.performAll ansi256 actions h1)
    = Some (paint, Frame.performAll ansi256 actions h1).
Proof.
  intros H actions q.
  destruct (getPaint_effect _ _ _ _ _ _ H) as [Hh _].
  apply body_hit, performAll_keeps, Hh.
Qed.

(** C10. Once [f.getPaint(d, p)] has returned a paint, every later
    call [f.getPaint(d, q)], after any creation of frames and any
    further [getPaint] calls on any frames, and for every previous
    frame [q], [null] included, returns that same paint object and
    changes nothing: the previous frame only matters on the first call
    for a dimension. *)
Theorem getPaint_ignores_later_previous
  (f : nat) (d : Dimension.t) (p : option nat) (h : Frame.heap)
  (paint : Paint.t) (h1 : Frame.heap) :
  Frame.getPaint ansi256 f d p h = Some (paint, h1) ->
  forall (actions : list Frame.action) (q : option nat),
    Frame.getPaint ansi256 f d q (Frame.performAll ansi256 actions h1)
    = Some (paint, Frame.performAll ansi256 actions h1).
Proof.
  intros H actions q. now apply (later_call_hits f d p h).
Qed.

End WithPalette.
End FrameCacheFacts.

(** ** Frame: the colour cache and the determinism of painting *)

Module FrameColorFacts.
Section WithPalette.

Variable ansi256 : value -> value -> value -> Z.

Implicit Types (cache : gmap string Z).

(** A conversion leaves a cache in which the same conversion, now or
    after the cache has grown, gives the same code and adds nothing. *)
Lemma toAnsi_settles c cache v cache' :
  Color.toAnsi ansi256 c cache = (v, cache') ->
  cache ⊆ cache'
  /\ forall later, cache' ⊆ later -> Color.toAnsi ansi256 c later = (v, later).
Proof.
  unfold Color.toAnsi.
  destruct (cache !! _) as [known|] eqn:E; intros [= <- <-].
  - split; [reflexivity|]. intros later Hsub.
    now rewrite (lookup_weaken _ _ _ _ E Hsub).
  - split; [now apply insert_subseteq|]. intros later Hsub.
    erewrite lookup_weaken; [reflexivity| |exact Hsub].
    apply lookup_insert_eq.
Qed.

Lemma getPixelColor_settles k pixels i cache v cache' :
  Frame.getPixelColor ansi256 k pixels i cache = (v, cache') ->
  cache ⊆ cache'
  /\ forall later, cache' ⊆ later ->
       Frame.getPixelColor ansi256 k pixels i later = (v, later).
Proof.
  unfold Frame.getPixelColor. destruct k.
  - destruct (Color.hasTransparency _).
    + intros [= <- <-]. split; [reflexivity|auto].
    + apply toAnsi_settles.
  - apply toAnsi_settles.
Qed.

Lemma countPixel_settles f g target pixelIndex cells cache cells' cache' :
  Frame.alike f g ->
  Frame.countPixel ansi256 f target pixelIndex (cells, cache) = (cells', cache') ->
  cache ⊆ cache'
  /\ forall later, cache' ⊆ later ->
       Frame.countPixel ansi256 g target pixelIndex (cells, later) = (cells', later).
Proof.
  intros (Hk & Hp & Hd). unfold Frame.countPixel, Frame.dimension.
  rewrite <- Hk, <- Hp, <- Hd. cbn [fst snd].
  destruct (Frame.getPixelColor ansi256 _ _ _ cache) as [color cache1] eqn:E.
  destruct (getPixelColor_settles _ _ _ _ _ _ E) as [Hsub Hlater].
  intros Hres.
  assert (cache1 = cache') as -> by (destruct (Num.toIndex _); congruence).
  split; [exact Hsub|]. intros later Hl. rewrite (Hlater later Hl).
  destruct (Num.toIndex _); congruence.
Qed.

Lemma fold_settles f g target pixelIndexes : forall cells cache cells' cache',
  Frame.alike f g ->
  fold_left (fun st pixelIndex => Frame.countPixel ansi256 f target pixelIndex st)
            pixelIndexes (cells, cache) = (cells', cache') ->
  cache ⊆ cache'
  /\ forall later, cache' ⊆ later ->
       fold_left (fun st pixelIndex => Frame.countPixel ansi256 g target pixelIndex st)
                 pixelIndexes (cells, later) = (cells', later).
Proof.
  induction pixelIndexes as [|pixelIndex rest IH]; intros cells cache cells' cache' Hs.
  - cbn. intros [= <- <-]. split; [reflexivity|auto].
  - cbn [fold_left].
    destruct (Frame.countPixel ansi256 f target pixelIndex (cells, cache))
      as [cells1 cache1] eqn:E.
    destruct (countPixel_settles _ _ _ _ _ _ _ _ Hs E) as [Hsub1 Hlater1].
    intros Hrest. destruct (IH _ _ _ _ Hs Hrest) as [Hsub Hlater].
    split; [now transitivity cache1|].
    intros later Hl. rewrite (Hlater1 later) by (now transitivity cache').
    apply Hlater, Hl.
Qed.

Lemma turns_alike f g : Frame.alike f g -> Frame.turns f = Frame.turns g.
Proof. intros (Hk & Hp & _). unfold Frame.turns. now rewrite Hk, Hp. Qed.

Lemma countColors_alike f g target cache :
  Frame.alike f g ->
  cache ⊆ snd (Frame.countColors ansi256 f target cache)
  /\ forall later,
       snd (Frame.countColors ansi256 f target cache) ⊆ later ->
       Frame.countColors ansi256 g target later
       = (fst (Frame.countColors ansi256 f target cache), later).
Proof.
  intros Hs. unfold Frame.countColors. rewrite <- (turns_alike _ _ Hs).
  destruct (fold_left _ (seq 0 (Frame.turns f)) ([], cache)) as [cells cache'] eqn:E.
  exact (fold_settles f g target _ _ _ _ _ Hs E).
Qed.

(** Frames of the two classes whose buffers both have the required
    length and are equal have no pixel at all. *)
Lemma similar_cases f g :
  Frame.similar f g ->
  Frame.alike f g \/ (Frame._pixels f = [] /\ Frame._pixels g = []).
Proof.
  intros (Hp & Hd & [Hk | [Hf Hg]]); [left; now repeat split|].
  destruct (Frame._kind f) eqn:Kf, (Frame._kind g) eqn:Kg;
    try (left; repeat split; congruence).
  all: right; unfold Frame.wellFormed in *;
    rewrite Kf in Hf; rewrite Kg in Hg; rewrite <- Hp, <- Hd in Hg;
    cbn [Frame.getPixelLength] in *;
    assert (Hlen : List.length (Frame._pixels f) = 0%nat) by lia;
    rewrite <- Hp; destruct (Frame._pixels f); [auto|discriminate Hlen].
Qed.

Lemma countColors_empty f target cache :
  Frame._pixels f = [] -> Frame.countColors ansi256 f target cache = ([], cache).
Proof.
  intros H. unfold Frame.countColors, Frame.turns. rewrite H.
  now destruct (Frame._kind f).
Qed.

(** Counting the colours of a frame leaves a cache in which counting
    the colours of a frame with the same pixels gives the same counts. *)
Lemma countColors_settles f g target cache :
  Frame.similar f g ->
  cache ⊆ snd (Frame.countColors ansi256 f target cache)
  /\ forall later,
       snd (Frame.countColors ansi256 f target cache) ⊆ later ->
       Frame.countColors ansi256 g target later
       = (fst (Frame.countColors ansi256 f target cache), later).
Proof.
  intros Hs. destruct (similar_cases f g Hs) as [Ha | [Hf Hg]].
  - now apply countColors_alike.
  - rewrite (countColors_empty f target cache Hf). cbn [fst snd].
    split; [reflexivity|]. intros later _. now apply countColors_empty.
Qed.

Lemma similar_refl f : Frame.similar f f.
Proof. repeat split. now left. Qed.

(** *** The colour cache only grows *)

Lemma body_cache_grows recur self dimension previousFrame h paint h' :
  (forall g d h0 p0 h1, recur g d h0 = Some (p0, h1) ->
     Frame.ansiCache h0 ⊆ Frame.ansiCache h1) ->
  Frame.getPaintBody ansi256 recur self dimension previousFrame h = Some (paint, h') ->
  Frame.ansiCache h ⊆ Frame.ansiCache h'.
Proof.
  intros Hrecur. unfold Frame.getPaintBody.
  destruct (Frame.frames h !! self) as [this|]; [|discriminate].
  destruct (Frame._paintCache this !! _).
  { now intros [= _ <-]. }
  pose proof (proj1 (countColors_settles this this dimension (Frame.ansiCache h)
                       (similar_refl this))) as Hgrow.
  destruct (Frame.countColors ansi256 this dimension (Frame.ansiCache h))
    as [countedColors cache]. cbn [snd] in Hgrow.
  destruct previousFrame as [previous|].
  - destruct (recur previous dimension _) as [[lastPaint h1]|] eqn:Hcall;
      [|discriminate].
    apply Hrecur in Hcall. cbn in Hcall.
    destruct (Frame.frames h1 !! self); [|discriminate].
    intros [= _ <-]. cbn. now transitivity cache.
  - cbn. destruct (Frame.frames h !! self); [|discriminate].
    intros [= _ <-]. exact Hgrow.
Qed.

Lemma getPaint_cache_grows self dimension previousFrame h paint h' :
  Frame.getPaint ansi256 self dimension previousFrame h = Some (paint, h') ->
  Frame.ansiCache h ⊆ Frame.ansiCache h'.
Proof.
  apply body_cache_grows. intros g d h0 p0 h1.
  apply body_cache_grows. discriminate.
Qed.

Lemma performAll_cache_grows actions : forall h,
  Frame.ansiCache h ⊆ Frame.ansiCache (Frame.performAll ansi256 actions h).
Proof.
  induction actions as [|a actions IH]; intros h; [reflexivity|].
  cbn [Frame.performAll fold_left].
  transitivity (Frame.ansiCache (Frame.perform ansi256 h a)); [|apply IH].
  destruct a as [k index pixels width height|self dimension previousFrame];
    cbn [Frame.perform]; [reflexivity|].
  destruct (Frame.getPaint ansi256 self dimension previousFrame h)
    as [[paint h']|] eqn:E; [|reflexivity].
  exact (getPaint_cache_grows _ _ _ _ _ _ E).
Qed.

(** A call without previous frame that misses the cache paints from
    the counted colours alone. *)
Lemma getPaint_fresh self dimension h this :
  Frame.frames h !! self = Some this ->
  Frame._paintCache this !! Dimension.toString dimension = None ->
  exists address,
    option_map fst (Frame.getPaint ansi256 self dimension None h)
    = Some (Paint.constructor address self
              (fst (Frame.countColors ansi256 this dimension (Frame.ansiCache h)))
              None)
    /\ option_map (fun r => Frame.ansiCache (snd r))
                  (Frame.getPaint ansi256 self dimension None h)
       = Some (snd (Frame.countColors ansi256 this dimension (Frame.ansiCache h))).
Proof.
  intros Hf Hk. exists (Frame.nextPaint h).
  unfold Frame.getPaint, Frame.getPaintBody. rewrite Hf, Hk.
  destruct (Frame.countColors ansi256 this dimension (Frame.ansiCache h))
    as [countedColors cache].
  cbn. rewrite Hf. cbn. auto.
Qed.

(** C8, as the sources have it. A second call of [getPaint] on the
    same frame with the same dimension returns the very paint object
    the first call returned, whatever previous frame it names, and
    changes nothing. And when two frame objects hold the same pixel
    buffer with the same source dimension, are of the same class (or
    both buffers have the length their class requires), have no paint
    for the target dimension in their caches, and each is painted for
    that dimension with no previous frame, one after the other with
    any creation of frames and any [getPaint] calls in between, the
    strings of their two paints are equal, and so are their chosen
    colours. *)
Theorem getPaint_cached_and_determined
  (a : nat) (d : Dimension.t) (p : option nat) (h : Frame.heap)
  (pa : Paint.t) (h1 : Frame.heap) :
  Frame.getPaint ansi256 a d p h = Some (pa, h1) ->
  (forall q, Frame.getPaint ansi256 a d q h1 = Some (pa, h1))
  /\ (forall (fa fb : Frame.t) (b : nat) (actions : list Frame.action)
             (pb : Paint.t) (h3 : Frame.heap),
        p = None ->
        Frame.frames h !! a = Some fa ->
        Frame._paintCache fa !! Dimension.toString d = None ->
        Frame.frames (Frame.performAll ansi256 actions h1) !! b = Some fb ->
        Frame._paintCache fb !! Dimension.toString d = None ->
        Frame.similar fa fb ->
        Frame.getPaint ansi256 b d None (Frame.performAll ansi256 actions h1)
        = Some (pb, h3) ->
        Paint.ascii pa = Paint.ascii pb /\ Paint.colors pa = Paint.colors pb).
Proof.
  intros Ha. split.
  - intros q.
    exact (FrameCacheFacts.later_call_hits ansi256 a d p h pa h1 Ha [] q).
  - intros fa fb b actions pb h3 -> Hfa Hka Hfb Hkb Hs Hb.
    destruct (getPaint_fresh a d h fa Hfa Hka) as (addrA & HpA & HcA).
    destruct (getPaint_fresh b d _ fb Hfb Hkb) as (addrB & HpB & _).
    rewrite Ha in HpA, HcA. rewrite Hb in HpB. cbn in HpA, HcA, HpB.
    injection HpA as ->. injection HpB as ->. injection HcA as HcA.
    destruct (countColors_settles fa fb d (Frame.ansiCache h) Hs) as [_ Hlater].
    rewrite (Hlater (Frame.ansiCache (Frame.performAll ansi256 actions h1))).
    + split; reflexivity.
    + rewrite <- HcA. apply performAll_cache_grows.
Qed.

End WithPalette.
End FrameColorFacts.

(** ** Frame: transparent pixels *)

Module FrameTransparencyFacts.
Section WithPalette.

Variable ansi256 : value -> value -> value -> Z.

Lemma count_clear colors :
  colors = [] \/ Frame.clear colors ->
  Frame.clear (Frame.count Paint.TRANSPARENT_ANSI colors).
Proof.
  intros [-> | [n ->]]; [now exists 1 | now exists (n + 1)].
Qed.

(** *** Reading and writing a sparse array *)

Lemma nth_error_lookup {A} (l : list A) : forall i, nth_error l i = l !! i.
Proof.
  induction l as [|x l IH]; intros [|i]; cbn; auto.
Qed.

Lemma slot_store {A} (a : list (option A)) i x j :
  Frame.slot (Frame.store a i x) j
  = if Nat.eqb j i then Some x else Frame.slot a j.
Proof.
  unfold Frame.slot, Frame.store.
  destruct (Nat.ltb_spec i (List.length a)) as [Hlt|Hge].
  - destruct (Nat.eqb_spec j i) as [->|Hne].
    + rewrite nth_error_lookup, list_lookup_insert_eq by lia. reflexivity.
    + rewrite !nth_error_lookup, list_lookup_insert_ne by congruence. reflexivity.
  - destruct (Nat.eqb_spec j i) as [->|Hne].
    + rewrite nth_error_app2 by lia.
      rewrite nth_error_app2 by (rewrite repeat_length; lia).
      rewrite repeat_length. replace (i - _ - _)%nat with 0%nat by lia.
      reflexivity.
    + destruct (Nat.lt_ge_cases j (List.length a)) as [Hj|Hj].
      * now rewrite nth_error_app1 by lia.
      * rewrite nth_error_app2 by lia.
        rewrite (proj2 (nth_error_None a j)) by lia.
        destruct (Nat.lt_ge_cases (j - List.length a) (i - List.length a)) as [Hk|Hk].
        -- rewrite nth_error_app1 by (rewrite repeat_length; lia).
           now rewrite nth_error_repeat by lia.
        -- rewrite nth_error_app2 by (rewrite repeat_length; lia).
           rewrite repeat_length.
           destruct (j - List.length a - (i - List.length a))%nat as [|[|k]] eqn:E;
             [lia|reflexivity|reflexivity].
Qed.

Lemma length_store {A} (a : list (option A)) i x :
  List.length (Frame.store a i x) = Nat.max (List.length a) (S i).
Proof.
  unfold Frame.store.
  destruct (Nat.ltb_spec i (List.length a)) as [Hlt|Hge].
  - rewrite length_insert. lia.
  - rewrite !List.length_app, repeat_length. cbn. lia.
Qed.

Lemma shape_store {A} (a : list (option A)) i x :
  Frame.shape (Frame.store a i x) = Frame.store (Frame.shape a) i tt.
Proof.
  unfold Frame.shape, Frame.store. rewrite List.length_map.
  destruct (i <? List.length a)%nat.
  - now rewrite list_fmap_insert.
  - rewrite !List.map_app, List.map_repeat. reflexivity.
Qed.

(** *** Counting a frame of transparent pixels *)

Lemma transparent_pixel f pixelIndex cache :
  Frame.allTransparent f = true ->
  In pixelIndex (seq 0 (Frame.turns f)) ->
  Frame.getPixelColor ansi256 (Frame._kind f) (Frame._pixels f)
    (pixelIndex * Z.to_nat (Frame.getPixelLength (Frame._kind f))) cache
  = (Paint.TRANSPARENT_ANSI, cache).
Proof.
  unfold Frame.allTransparent. rewrite forallb_forall. intros Hall Hin.
  specialize (Hall _ Hin). unfold Frame.getPixelColor.
  destruct (Frame._kind f); [now rewrite Hall|].
  discriminate Hall.
Qed.

Lemma countPixel_transparent f target pixelIndex cells cache :
  Frame.allTransparent f = true ->
  In pixelIndex (seq 0 (Frame.turns f)) ->
  Frame.allClear cells ->
  exists cells',
    Frame.countPixel ansi256 f target pixelIndex (cells, cache) = (cells', cache)
    /\ Frame.allClear cells'
    /\ Frame.shape cells'
       = match Num.toIndex (Frame.cellIndex (Frame.dimension f) target
                              (Z.of_nat pixelIndex)) with
         | Some index => Frame.store (Frame.shape cells) index tt
         | None => Frame.shape cells
         end.
Proof.
  intros Hall Hin Hclear. unfold Frame.countPixel. cbn [fst snd].
  rewrite (transparent_pixel f pixelIndex cache Hall Hin).
  destruct (Num.toIndex _) as [index|]; [|eauto].
  eexists. split; [reflexivity|]. split; [|apply shape_store].
  intros i colors. rewrite slot_store.
  destruct (Nat.eqb i index); [|apply Hclear].
  intros [= <-]. apply count_clear.
  destruct (Frame.slot cells index) as [known|] eqn:E; cbn; eauto.
Qed.

Lemma fold_transparent f target pixelIndexes : forall cells cache,
  Frame.allTransparent f = true ->
  (forall pixelIndex, In pixelIndex pixelIndexes ->
                      In pixelIndex (seq 0 (Frame.turns f))) ->
  Frame.allClear cells ->
  exists cells',
    fold_left (fun st pixelIndex => Frame.countPixel ansi256 f target pixelIndex st)
              pixelIndexes (cells, cache) = (cells', cache)
    /\ Frame.allClear cells'.
Proof.
  induction pixelIndexes as [|pixelIndex rest IH]; intros cells cache Hall Hin Hclear.
  - exists cells. auto.
  - destruct (countPixel_transparent f target pixelIndex cells cache Hall
                (Hin _ (or_introl eq_refl)) Hclear) as (cells1 & E & Hclear1 & _).
    cbn [fold_left]. rewrite E.
    apply IH; auto. intros p Hp. apply Hin. now right.
Qed.

Lemma countColors_transparent f target cache :
  Frame.allTransparent f = true ->
  Frame.allClear (fst (Frame.countColors ansi256 f target cache)).
Proof.
  intros Hall. unfold Frame.countColors.
  destruct (fold_transparent f target (seq 0 (Frame.turns f)) [] cache Hall)
    as (cells & E & Hclear); [auto| |now rewrite E].
  intros i colors. unfold Frame.slot. now destruct i.
Qed.

(** The cells that hold a count are decided by the two dimensions and
    the number of pixels, whatever the pixels are. *)
Lemma shape_fold f target pixelIndexes : forall st,
  Frame.shape
    (fst (fold_left (fun st pixelIndex => Frame.countPixel ansi256 f target pixelIndex st)
                    pixelIndexes st))
  = fold_left
      (fun covered pixelIndex =>
         match Num.toIndex (Frame.cellIndex (Frame.dimension f) target
                              (Z.of_nat pixelIndex)) with
         | Some index => Frame.store covered index tt
         | None => covered
         end)
      pixelIndexes (Frame.shape (fst st)).
Proof.
  induction pixelIndexes as [|pixelIndex rest IH]; intros st; [reflexivity|].
  cbn [fold_left]. rewrite IH. f_equal.
  unfold Frame.countPixel.
  destruct (Frame.getPixelColor ansi256 _ _ _ _) as [color cache].
  destruct (Num.toIndex _); [apply shape_store|reflexivity].
Qed.

Lemma shape_countColors f target cache :
  Frame.shape (fst (Frame.countColors ansi256 f target cache))
  = Frame.coverage (Frame.dimension f) target (Frame.turns f).
Proof. unfold Frame.countColors. now rewrite shape_fold. Qed.

Lemma slot_shape {A} (cells : list (option A)) i :
  Frame.slot (Frame.shape cells) i = option_map (fun _ => tt) (Frame.slot cells i).
Proof.
  unfold Frame.slot, Frame.shape. rewrite nth_error_map.
  now destruct (nth_error cells i) as [[x|]|].
Qed.

(** *** The colours chosen for the cells *)

Lemma prominent_clear i n previous :
  Paint.getProminentColor i (Some [(Paint.TRANSPARENT_ANSI, n)]) (Some previous)
  = js_nth previous i.
Proof. reflexivity. Qed.

Lemma nth_chosen previousColors cells : forall i j,
  (j < List.length cells)%nat ->
  js_nth (Paint.chosen previousColors i cells) j
  = Paint.getProminentColor (i + j) (Frame.slot cells j) previousColors.
Proof.
  unfold js_nth, Frame.slot.
  induction cells as [|colors rest IH]; intros i j Hj; cbn in Hj; [lia|].
  destruct j as [|j]; cbn [Paint.chosen nth nth_error].
  - rewrite Nat.add_0_r. now destruct colors.
  - rewrite IH by lia. now replace (S i + j)%nat with (i + S j)%nat by lia.
Qed.

Lemma chosen_borrowed previous cells i :
  Frame.allClear cells ->
  (i < List.length cells)%nat ->
  js_nth (Paint.chosen (Some previous) 0 cells) i
  = match Frame.slot cells i with
    | Some _ => js_nth previous i
    | None => JNull
    end.
Proof.
  intros Hclear Hi. rewrite nth_chosen by exact Hi. cbn [Nat.add].
  destruct (Frame.slot cells i) as [colors|] eqn:E; [|reflexivity].
  destruct (Hclear _ _ E) as [n ->]. apply prominent_clear.
Qed.

Lemma chosen_hole previousColors cells i :
  (i < List.length cells)%nat ->
  Frame.slot cells i = None ->
  js_nth (Paint.chosen previousColors 0 cells) i = JNull.
Proof.
  intros Hi E. rewrite nth_chosen by exact Hi. now rewrite E.
Qed.

(** C3, as the sources have it. When every pixel of a frame is
    transparent and the frame is painted against a previous paint, the
    chosen colour of every cell that received a pixel of the frame is
    the previous paint's colour for that cell ([undefined] when the
    previous paint has no such cell), and the chosen colour of a cell
    that received none is [null]. The two arrays are equal when the
    previous paint was painted, for the same target dimension, from a
    frame with the same source dimension and the same number of
    pixels. *)
Theorem transparent_frame_borrows
  (f : Frame.t) (target : Dimension.t) (cache : gmap string Z)
  (self address : nat) (previous : Paint.t) :
  Frame.allTransparent f = true ->
  let cells := fst (Frame.countColors ansi256 f target cache) in
  let p := Paint.constructor self address cells (Some previous) in
  List.length (Paint.colors p) = List.length cells
  /\ (forall i, (i < List.length cells)%nat ->
        js_nth (Paint.colors p) i
        = match Frame.slot cells i with
          | Some _ => js_nth (Paint.colors previous) i
          | None => JNull
          end)
  /\ (forall (g : Frame.t) (cache' : gmap string Z) (self' address' : nat)
             (last : option Paint.t),
        previous
        = Paint.constructor self' address'
            (fst (Frame.countColors ansi256 g target cache')) last ->
        Frame.dimension g = Frame.dimension f ->
        Frame.turns g = Frame.turns f ->
        Paint.colors p = Paint.colors previous).
Proof.
  intros Hall cells p.
  pose proof (countColors_transparent f target cache Hall) as Hclear.
  fold cells in Hclear.
  assert (Hcolors : Paint.colors p = Paint.chosen (Some (Paint.colors previous)) 0 cells)
    by apply PaintFacts.constructor_colors.
  assert (Hlen : List.length (Paint.colors p) = List.length cells)
    by (rewrite Hcolors; apply PaintFacts.length_chosen).
  assert (Hcell : forall i, (i < List.length cells)%nat ->
            js_nth (Paint.colors p) i
            = match Frame.slot cells i with
              | Some _ => js_nth (Paint.colors previous) i
              | None => JNull
              end).
  { intros i Hi. rewrite Hcolors. now apply chosen_borrowed. }
  split; [exact Hlen|]. split; [exact Hcell|].
  intros g cache' self' address' last -> Hd Ht.
  set (cells' := fst (Frame.countColors ansi256 g target cache')) in *.
  assert (Hshape : Frame.shape cells' = Frame.shape cells).
  { unfold cells', cells. now rewrite !shape_countColors, Hd, Ht. }
  assert (Hlen' : List.length cells' = List.length cells).
  { apply (f_equal (@List.length _)) in Hshape.
    unfold Frame.shape in Hshape. now rewrite !List.length_map in Hshape. }
  rewrite PaintFacts.constructor_colors in *.
  apply (nth_ext _ _ JUndefined JUndefined).
  - rewrite Hlen, PaintFacts.length_chosen. now symmetry.
  - intros i Hi. rewrite Hlen in Hi. fold (js_nth (Paint.colors p) i).
    rewrite (Hcell i Hi).
    destruct (Frame.slot cells i) as [colors|] eqn:E; [reflexivity|].
    symmetry. apply chosen_hole; [lia|].
    pose proof (slot_shape cells' i) as Hs. rewrite Hshape, slot_shape, E in Hs.
    destruct (Frame.slot cells' i); [discriminate|reflexivity].
Qed.

End WithPalette.
End FrameTransparencyFacts.

(** Closed instances for [Frame]. *)

Lemma getPaint_ignores_later_previous_witness :
  Frame.getPaint sampleAnsi256 1 viewport3 (Some 0%nat) sampleHeap
  = Some (paintOf clearOverRed, heapOf clearOverRed)
  /\ Frame.getPaint sampleAnsi256 1 viewport3 (Some 2%nat)
       (Frame.performAll sampleAnsi256 laterActions (heapOf clearOverRed))
     = Some (paintOf clearOverRed,
             Frame.performAll sampleAnsi256 laterActions (heapOf clearOverRed)).
Proof.
  assert (H : Frame.getPaint sampleAnsi256 1 viewport3 (Some 0%nat) sampleHeap
              = Some (paintOf clearOverRed, heapOf clearOverRed))
    by (vm_compute; reflexivity).
  split; [exact H|].
  exact (FrameCacheFacts.getPaint_ignores_later_previous sampleAnsi256
           1 viewport3 (Some 0%nat) sampleHeap
           (paintOf clearOverRed) (heapOf clearOverRed) H
           laterActions (Some 2%nat)).
Defined.

(** The same transparent frame painted after the red 3x3 frame and,
    in another run, after a red 2x2 frame: what the first call for a
    dimension stores is what every later call returns. *)
Lemma repainting_keeps_first_paint :
  Paint.colors (paintOf clearOverRed)
  = [JNum 196; JNum 196; JNull; JNum 196; JNull; JNum 196]
  /\ Paint.colors
       (paintOf (Frame.getPaint sampleAnsi256 1 viewport3 None (heapOf clearOverRed)))
     = [JNum 196; JNum 196; JNull; JNum 196; JNull; JNum 196]
  /\ Paint.colors
       (paintOf (Frame.getPaint sampleAnsi256 1 viewport3 None sampleHeap))
     = [JNum (-1); JNum (-1); JNull; JNum (-1); JNull; JNum (-1)].
Proof. repeat split; vm_compute; reflexivity. Qed.

Lemma getPaint_cached_and_determined_witness :
  Frame.getPaint sampleAnsi256 2 viewport3 None sampleHeap
  = Some (paintOf firstRed, heapOf firstRed)
  /\ Frame.getPaint sampleAnsi256 2 viewport3 (Some 0%nat) (heapOf firstRed)
     = Some (paintOf firstRed, heapOf firstRed)
  /\ Paint.ascii (paintOf firstRed) = Paint.ascii (paintOf secondRed)
  /\ Paint.colors (paintOf firstRed) = Paint.colors (paintOf secondRed).
Proof.
  assert (H : Frame.getPaint sampleAnsi256 2 viewport3 None sampleHeap
              = Some (paintOf firstRed, heapOf firstRed))
    by (vm_compute; reflexivity).
  split; [exact H|].
  destruct (FrameColorFacts.getPaint_cached_and_determined sampleAnsi256
              2 viewport3 None sampleHeap (paintOf firstRed) (heapOf firstRed) H)
    as [Hhit Hsame].
  split; [exact (Hhit (Some 0%nat))|].
  apply (Hsame smallRedFrame
           {| Frame._kind := Frame.Alpha; Frame._index := 1;
              Frame._pixels := repeatPixels 4 [255; 0; 0; 255];
              Frame._dimension := Dimension.constructor 2 2;
              Frame._paintCache := ∅ |}
           3%nat afterFirstRed (paintOf secondRed) (heapOf secondRed)).
  - reflexivity.
  - vm_compute. reflexivity.
  - vm_compute. reflexivity.
  - vm_compute. reflexivity.
  - vm_compute. reflexivity.
  - split; [reflexivity|]. split; [reflexivity|]. left. reflexivity.
  - vm_compute. reflexivity.
Defined.

(** Two transparent 2x2 frames with the same buffer, the first painted
    before, after the red 3x3 frame: the call without previous frame
    returns that paint from the cache, with the colour 196 the cells
    borrowed, and the second frame, painted now without previous
    frame, keeps the transparency code. *)
Lemma determinism_fails_on_cached_paint :
  ~ Stated.paintDeterminism sampleAnsi256 twoClearFrames 1 3 viewport3.
Proof.
  intros H.
  set (first := Frame.getPaint sampleAnsi256 1 viewport3 None twoClearFrames).
  set (second := Frame.getPaint sampleAnsi256 3 viewport3 None (heapOf first)).
  assert (E : Paint.ascii (paintOf first) = Paint.ascii (paintOf second)).
  { apply (H (default clearFrame (Frame.frames twoClearFrames !! 1%nat))
             (default clearFrame (Frame.frames twoClearFrames !! 3%nat))
             (paintOf first) (heapOf first) (paintOf second) (heapOf second));
      [discriminate|vm_compute; reflexivity ..]. }
  vm_compute in E. discriminate E.
Qed.

Lemma cached_paint_differs :
  Paint.colors (paintOf (Frame.getPaint sampleAnsi256 1 viewport3 None twoClearFrames))
  = [JNum 196; JNum 196; JNull; JNum 196; JNull; JNum 196]
  /\ Paint.colors (paintOf (Frame.getPaint sampleAnsi256 3 viewport3 None twoClearFrames))
     = [JNum (-1); JNum (-1); JNull; JNum (-1); JNull; JNum (-1)].
Proof. split; vm_compute; reflexivity. Qed.

(** A frame and an opaque frame that share one buffer read different
    pixels from it, three of one colour and four of four colours. *)
Lemma determinism_fails_across_classes :
  ~ Stated.paintDeterminism sampleAnsi256 sharedBuffer 0 1 viewport3.
Proof.
  intros H.
  set (first := Frame.getPaint sampleAnsi256 0 viewport3 None sharedBuffer).
  set (second := Frame.getPaint sampleAnsi256 1 viewport3 None (heapOf first)).
  assert (E : Paint.ascii (paintOf first) = Paint.ascii (paintOf second)).
  { apply (H (default clearFrame (Frame.frames sharedBuffer !! 0%nat))
             (default clearFrame (Frame.frames sharedBuffer !! 1%nat))
             (paintOf first) (heapOf first) (paintOf second) (heapOf second));
      [discriminate|vm_compute; reflexivity ..]. }
  vm_compute in E. discriminate E.
Qed.

Lemma transparent_frame_borrows_witness :
  Frame.allTransparent clearFrame = true
  /\ Paint.colors smallRedPaint
     = [JNum 196; JNum 196; JNull; JNum 196; JNull; JNum 196]
  /\ Paint.colors
       (Paint.constructor 1 1
          (fst (Frame.countColors sampleAnsi256 clearFrame viewport3 ∅))
          (Some smallRedPaint))
     = Paint.colors smallRedPaint.
Proof.
  split; [reflexivity|]. split; [vm_compute; reflexivity|].
  destruct (FrameTransparencyFacts.transparent_frame_borrows sampleAnsi256
              clearFrame viewport3 ∅ 1 1 smallRedPaint eq_refl)
    as (_ & _ & Hsame).
  apply (Hsame smallRedFrame ∅ 0%nat 0%nat None); reflexivity.
Defined.

(** The transparent 2x2 frame painted for the 3x3 viewport against the
    paint of the red 3x3 frame: the frame's pixels reach the cells 0,
    1, 3 and 5 only, so the array has six entries, two of them [null],
    where the previous paint has nine entries of the colour 196. *)
Lemma transparency_fallback_fails_on_uncovered_cells :
  ~ Stated.transparencyFallback sampleAnsi256 clearFrame viewport3 redPaint.
Proof.
  intros H. specialize (H eq_refl 1%nat 1%nat ∅).
  vm_compute in H. discriminate H.
Qed.

(** A transparent 1x1 frame painted for a 2x1 viewport against the
    paint of a 2x1 frame: its only cell holds the transparency code
    and borrows the colour 196, and the array has that one entry where
    the previous paint has two. *)
Lemma transparency_fallback_fails_on_shorter_frame :
  fst (Frame.countColors sampleAnsi256 onePixelClear viewport2x1 ∅)
  = [Some [(Paint.TRANSPARENT_ANSI, 1)]]
  /\ Paint.colors wideRedPaint = [JNum 196; JNum 196]
  /\ ~ Stated.transparencyFallback sampleAnsi256 onePixelClear viewport2x1
        wideRedPaint.
Proof.
  split; [reflexivity|]. split; [vm_compute; reflexivity|].
  intros H. specialize (H eq_refl 1%nat 1%nat ∅).
  vm_compute in H. discriminate H.
Qed.

Lemma uncovered_cells_through_getPaint :
  Paint.colors (paintOf (Frame.getPaint sampleAnsi256 0 viewport3 None sampleHeap))
  = repeat (JNum 196) 9
  /\ Paint.colors (paintOf clearOverRed)
     = [JNum 196; JNum 196; JNull; JNum 196; JNull; JNum 196].
Proof. split; vm_compute; reflexivity. Qed.

(** ** Player, Display and Controller *)

Module ControllerFacts.
Section WithFrame.

Context {Frame : Type}.
Variable statusText : Display.t Frame -> Store.t Frame -> option Frame -> string.
Variable getMediaReader :
  string -> MediaReader.Options -> outcome (MediaReader.t Frame).
Variable isFile : string -> outcome bool.

Implicit Types (c : Controller.t Frame) (fs : FrameSet.t Frame).

(** C2, as the sources have it. The guard is in the controller:
    [Controller.play] on a player that is not stopped settles as a
    failure and leaves the controller as it was, with its player, its
    display, the frame sets and the readers. [Player.play] has no
    guard of its own. *)
Theorem play_rejected_unless_stopped filePath options c :
  Player.stopped (Controller.player c) = false ->
  Controller.play statusText getMediaReader isFile filePath options c
  = (Thrown "Player must be stopped before playing another file", c).
Proof.
  intros H. unfold Controller.play. rewrite H. reflexivity.
Qed.

(** [Player.play] sets the state to PLAYING whatever the state was, as
    soon as a reader is obtained. *)
Lemma player_play_sets_playing filePath options p (s : Store.t Frame) reader :
  getMediaReader filePath options = Returned reader ->
  snd (fst (Player.play getMediaReader filePath options p s))
  = {| Player._state := PlayerState.PLAYING |}.
Proof.
  intros H. unfold Player.play. cbn. rewrite H.
  destruct (MediaReader.readDimension reader); [|reflexivity].
  destruct (MediaReader.readFrames reader a) as [[frames finish] settled].
  now destruct settled.
Qed.

Lemma bound_inv c fs :
  Controller.bound c = Some fs ->
  exists a, Display._frameSet (Controller.display c) = Some a
            /\ Store.frameSets (Controller.store c) !! a = Some fs.
Proof.
  unfold Controller.bound.
  destruct (Display._frameSet (Controller.display c)) as [a|]; [eauto|discriminate].
Qed.

Lemma stop_effect c :
  let c' := snd (Controller.stop statusText c) in
  Player.stopped (Controller.player c') = true
  /\ Display._frameSet (Controller.display c') = None
  /\ Display.frozen (Controller.display c') = true.
Proof.
  unfold Controller.stop.
  destruct (negb (Player.stopped (Controller.player c))); cbn;
    unfold Display.unload, Display.setFrozen; cbn;
    destruct (Display._refreshId (Controller.display c)); cbn; auto.
Qed.

(** What a tick does when a frame is buffered. *)
Lemma tick_paints c a fs frame rest :
  Display.frozen (Controller.display c) = false ->
  Display.isRendered (Controller.display c) = true ->
  Display._frameSet (Controller.display c) = Some a ->
  Store.frameSets (Controller.store c) !! a = Some fs ->
  FrameSet._frames fs = frame :: rest ->
  Controller.paintNextFrame statusText c
  = let fs' := {| FrameSet._finalized := FrameSet._finalized fs;
                  FrameSet._frames := rest;
                  FrameSet._totalLength := FrameSet._totalLength fs;
                  FrameSet.emitted := FrameSet.emitted fs ++ [FrameSet.EvNext frame] |} in
    let s := Store.update a fs' (Controller.store c) in
    let c1 := Controller.withDisplay
                (Display.show statusText frame s (Controller.display c))
                (Controller.withStore s c) in
    if match rest with [] => true | _ :: _ => false end && FrameSet._finalized fs
    then (Returned true, snd (Controller.stop statusText c1))
    else (Returned false, c1).
Proof.
  intros Hfrozen Hrendered Ha Hfs Hframes.
  assert (Hnext : FrameSet.hasNext fs = true)
    by (unfold FrameSet.hasNext; now rewrite Hframes).
  unfold Controller.paintNextFrame, Store.onFrameSet.
  rewrite Hfrozen, Hrendered, Ha, Hfs, Hnext. cbn [negb].
  unfold FrameSet.next. rewrite Hnext, Hframes. cbn [negb].
  cbn [Controller.withStore Controller.withDisplay Controller.store
       Controller.display Store.update Store.frameSets].
  rewrite lookup_insert_eq.
  unfold FrameSet.hasNext, FrameSet.finalized.
  cbn [FrameSet._frames FrameSet._finalized].
  destruct rest as [|frame' rest]; [reflexivity|].
  replace (0 <? Z.of_nat (List.length (frame' :: rest))) with true
    by (symmetry; apply Z.ltb_lt; cbn [List.length]; lia).
  reflexivity.
Qed.

(** [Controller.stop] leaves what was painted, the current frame and
    the frame sets as they are, and emits 'stop' when the player was
    not stopped. *)
Lemma stop_keeps c :
  let c' := snd (Controller.stop statusText c) in
  Display.painted (Controller.display c') = Display.painted (Controller.display c)
  /\ Display._currentFrame (Controller.display c')
     = Display._currentFrame (Controller.display c)
  /\ Controller.store c' = Controller.store c
  /\ Controller.emitted c'
     = Controller.emitted c
       ++ (if Player.stopped (Controller.player c) then []
           else [Controller.EvStop]).
Proof.
  unfold Controller.stop.
  destruct (Player.stopped (Controller.player c)); cbn;
    unfold Display.unload, Display.setFrozen; cbn;
    destruct (Display._refreshId (Controller.display c)); cbn;
    rewrite ?app_nil_r; auto.
Qed.

(** C9, as the sources have it. On a display that is not frozen, is
    rendered and has a frame set bound: a tick that finds no buffered
    frame does nothing at all, whether or not the frame set is
    finalized; a tick that finds one takes the first buffered frame
    out of the frame set, makes it the current frame and paints it,
    with one call of [paint] for that frame and the frame shown
    before, and it calls [Controller.stop] exactly when that was the
    last buffered frame and the frame set is finalized: then the
    player is stopped, the display frozen and detached and 'stop'
    emitted, and otherwise the player, the binding of the frame set
    and the events are as before and the display is still running. *)
Theorem tick_stops_after_last_frame c fs :
  Controller.bound c = Some fs ->
  Display.frozen (Controller.display c) = false ->
  Display.isRendered (Controller.display c) = true ->
  (FrameSet.hasNext fs = false ->
   Controller.paintNextFrame statusText c = (Returned false, c))
  /\ (forall frame rest,
        FrameSet._frames fs = frame :: rest ->
        let c' := snd (Controller.paintNextFrame statusText c) in
        Display.painted (Controller.display c')
        = Display.painted (Controller.display c)
          ++ [(frame, Display._currentFrame (Controller.display c))]
        /\ Display._currentFrame (Controller.display c') = Some frame
        /\ (exists a fs',
              Display._frameSet (Controller.display c) = Some a
              /\ Store.frameSets (Controller.store c') !! a = Some fs'
              /\ FrameSet._frames fs' = rest
              /\ FrameSet.emitted fs'
                 = FrameSet.emitted fs ++ [FrameSet.EvNext frame])
        /\ Controller.tickStops statusText c
           = match rest with [] => FrameSet.finalized fs | _ :: _ => false end
        /\ (Controller.tickStops statusText c = true ->
            Player.stopped (Controller.player c') = true
            /\ Display._frameSet (Controller.display c') = None
            /\ Display.frozen (Controller.display c') = true
            /\ Controller.emitted c'
               = Controller.emitted c
                 ++ (if Player.stopped (Controller.player c) then []
                     else [Controller.EvStop]))
        /\ (Controller.tickStops statusText c = false ->
            Controller.player c' = Controller.player c
            /\ Display._frameSet (Controller.display c')
               = Display._frameSet (Controller.display c)
            /\ Display.frozen (Controller.display c') = false
            /\ Controller.emitted c' = Controller.emitted c)).
Proof.
  intros Hb Hfrozen Hrendered.
  destruct (bound_inv c fs Hb) as (a & Ha & Hfs).
  split.
  - intros Hnone. unfold Controller.paintNextFrame.
    now rewrite Hfrozen, Hrendered, Ha, Hfs, Hnone.
  - intros frame rest Hframes. cbn zeta. unfold Controller.tickStops.
    rewrite (tick_paints c a fs frame rest Hfrozen Hrendered Ha Hfs Hframes).
    cbn zeta. unfold FrameSet.finalized.
    set (fs' := FrameSet.mk _ _ _ _).
    set (c1 := Controller.withDisplay _ _).
    assert (Hshown :
      Display.painted (Controller.display c1)
      = Display.painted (Controller.display c)
        ++ [(frame, Display._currentFrame (Controller.display c))]
      /\ Display._currentFrame (Controller.display c1) = Some frame
      /\ Store.frameSets (Controller.store c1) !! a = Some fs'
      /\ Controller.player c1 = Controller.player c
      /\ Display._frameSet (Controller.display c1) = Some a
      /\ Display.frozen (Controller.display c1) = false
      /\ Controller.emitted c1 = Controller.emitted c).
    { subst c1. cbn. rewrite lookup_insert_eq. repeat split; auto. }
    destruct Hshown as (Hp & Hc & Hs & Hpl & Hf & Hfr & He).
    pose proof (stop_effect c1) as (Hstopped & Hunbound & Hfrozen').
    pose proof (stop_keeps c1) as (Kp & Kc & Ks & Ke).
    rewrite Hpl, He in Ke.
    destruct (match rest with [] => true | _ :: _ => false end
              && FrameSet._finalized fs) eqn:Estop; cbn [fst snd].
    + rewrite Kp, Kc, Ks.
      split; [exact Hp|]. split; [exact Hc|].
      split; [exists a, fs'; auto|].
      split; [destruct rest; [now destruct (FrameSet._finalized fs)|discriminate]|].
      split; [auto|discriminate].
    + split; [exact Hp|]. split; [exact Hc|].
      split; [exists a, fs'; auto|].
      split; [destruct rest; [now destruct (FrameSet._finalized fs)|reflexivity]|].
      split; [discriminate|]. intros _. rewrite Ha. auto.
Qed.

End WithFrame.
End ControllerFacts.

(** Closed instances for the controller. *)

Lemma play_rejected_unless_stopped_witness :
  Player.stopped (Controller.player playingTwo) = false
  /\ Controller.play plainStatus readerOf anyFile "other.gif" None playingTwo
     = (Thrown "Player must be stopped before playing another file", playingTwo).
Proof.
  split; [reflexivity|].
  apply (ControllerFacts.play_rejected_unless_stopped plainStatus readerOf anyFile
           "other.gif" None playingTwo).
  reflexivity.
Defined.

(** [Player.play] called on a player that is playing does not fail: it
    obtains a reader, makes a new frame set, fills it and resolves. *)
Lemma player_play_has_no_guard :
  ~ Stated.sessionPlayGuard readerOf "other.gif" MediaReader.noOptions
      (Controller.player playingTwo) (Controller.store playingTwo).
Proof.
  intros H. destruct (H eq_refl) as [e He]. vm_compute in He. discriminate He.
Qed.

(** Called on a paused player it also moves the state to PLAYING. *)
Lemma player_play_resumes_paused :
  let '(settled, p, s) :=
    Player.play readerOf "other.gif" MediaReader.noOptions
      {| Player._state := PlayerState.PAUSED |} (@Store.empty nat) in
  settled = Returned 0%nat
  /\ p = {| Player._state := PlayerState.PLAYING |}.
Proof. split; reflexivity. Qed.

Lemma tick_stops_after_last_frame_witness :
  Controller.bound lastFrameLeft
  = Some {| FrameSet._finalized := true; FrameSet._frames := [11%nat];
            FrameSet._totalLength := 2;
            FrameSet.emitted :=
              [FrameSet.EvAdd 10%nat; FrameSet.EvAdd 11%nat;
               FrameSet.EvFinalize; FrameSet.EvNext 10%nat] |}
  /\ Display.painted
       (Controller.display (snd (Controller.paintNextFrame plainStatus lastFrameLeft)))
     = [(10%nat, None); (11%nat, Some 10%nat)]
  /\ Controller.tickStops plainStatus lastFrameLeft = true
  /\ Player.stopped
       (Controller.player (snd (Controller.paintNextFrame plainStatus lastFrameLeft)))
     = true.
Proof.
  assert (Hb : Controller.bound lastFrameLeft
               = Some {| FrameSet._finalized := true; FrameSet._frames := [11%nat];
                         FrameSet._totalLength := 2;
                         FrameSet.emitted :=
                           [FrameSet.EvAdd 10%nat; FrameSet.EvAdd 11%nat;
                            FrameSet.EvFinalize; FrameSet.EvNext 10%nat] |})
    by (vm_compute; reflexivity).
  split; [exact Hb|].
  destruct (ControllerFacts.tick_stops_after_last_frame plainStatus
              lastFrameLeft _ Hb eq_refl eq_refl) as [_ Hlast].
  destruct (Hlast 11%nat [] eq_refl) as (Hpainted & _ & _ & Hstops & Hafter & _).
  split; [exact Hpainted|].
  split; [exact Hstops|]. apply Hafter, Hstops.
Defined.

(** A medium without frames: the frame set is finalized and empty when
    it is bound to the display, every tick returns at once, and the
    player stays in the state PLAYING. *)
Lemma auto_stop_fails_on_empty_frame_set :
  ~ Stated.autoStop plainStatus playingNone.
Proof.
  intros H.
  specialize (H {| FrameSet._finalized := true; FrameSet._frames := [];
                   FrameSet._totalLength := 0;
                   FrameSet.emitted := [FrameSet.EvFinalize] |}).
  vm_compute in H. specialize (H eq_refl eq_refl eq_refl). discriminate H.
Qed.

Lemma empty_frame_set_never_stops :
  Controller.paintNextFrame plainStatus playingNone = (Returned false, playingNone)
  /\ Player.playing (Controller.player playingNone) = true.
Proof. split; vm_compute; reflexivity. Qed.

Lemma ticks_on_empty_frame_set (n : nat) :
  Nat.iter n (Controller.act plainStatus readerOf anyFile Controller.Tick) playingNone
  = playingNone.
Proof.
  induction n as [|n IH]; [reflexivity|].
  rewrite Nat.iter_succ, IH. cbn [Controller.act].
  now rewrite (proj1 empty_frame_set_never_stops).
Qed.

(** * Further properties *)

(** ** FrameSet: order, accounting and finalization *)

Module FrameSetOrderFacts.
Section WithFrame.

Context {Frame : Type}.
Implicit Types (s : FrameSet.t Frame) (o : FrameSet.op Frame)
  (ops : list (FrameSet.op Frame)) (c : FrameSet.construction Frame).

Lemma build_silent c : FrameSet.emitted (FrameSet.build c) = [].
Proof.
  destruct c as [frames|parent ops b e]; [reflexivity|].
  cbn [FrameSet.build]. unfold FrameSet.subSet.
  now destruct (FrameSet._finalized _).
Qed.

Lemma added_app (l1 l2 : list (@FrameSet.Event Frame)) :
  FrameSet.added (l1 ++ l2) = FrameSet.added l1 ++ FrameSet.added l2.
Proof. apply flat_map_app. Qed.

Lemma handedOut_app (l1 l2 : list (@FrameSet.Event Frame)) :
  FrameSet.handedOut (l1 ++ l2) = FrameSet.handedOut l1 ++ FrameSet.handedOut l2.
Proof. apply flat_map_app. Qed.

Lemma finalizations_app (l1 l2 : list (@FrameSet.Event Frame)) :
  FrameSet.finalizations (l1 ++ l2)
  = (FrameSet.finalizations l1 + FrameSet.finalizations l2)%nat.
Proof.
  unfold FrameSet.finalizations. now rewrite List.filter_app, List.length_app.
Qed.

(** The four operations, case by case. *)
Lemma step_cases o s :
  (exists frame, o = FrameSet.OpAdd frame /\ FrameSet._finalized s = false
     /\ FrameSet.step o s
        = {| FrameSet._finalized := false;
             FrameSet._frames := FrameSet._frames s ++ [frame];
             FrameSet._totalLength := FrameSet._totalLength s + 1;
             FrameSet.emitted := FrameSet.emitted s ++ [FrameSet.EvAdd frame] |})
  \/ (o = FrameSet.OpFinalize /\ FrameSet._finalized s = false
      /\ FrameSet.step o s
         = {| FrameSet._finalized := true;
              FrameSet._frames := FrameSet._frames s;
              FrameSet._totalLength := FrameSet._totalLength s;
              FrameSet.emitted := FrameSet.emitted s ++ [FrameSet.EvFinalize] |})
  \/ (exists frame rest, o = FrameSet.OpNext
        /\ FrameSet._frames s = frame :: rest
        /\ FrameSet.step o s
           = {| FrameSet._finalized := FrameSet._finalized s;
                FrameSet._frames := rest;
                FrameSet._totalLength := FrameSet._totalLength s;
                FrameSet.emitted := FrameSet.emitted s ++ [FrameSet.EvNext frame] |})
  \/ FrameSet.step o s = s.
Proof.
  destruct o as [frame| | |]; cbn [FrameSet.step].
  - unfold FrameSet.add, FrameSet.finalized.
    destruct (FrameSet._finalized s) eqn:E; [now repeat right|].
    left. exists frame. auto.
  - unfold FrameSet.finalize.
    destruct (FrameSet._finalized s) eqn:E; [now repeat right|].
    right. left. auto.
  - now repeat right.
  - unfold FrameSet.next, FrameSet.hasNext.
    destruct (FrameSet._frames s) as [|frame rest] eqn:E; [now repeat right|].
    right. right. left. exists frame, rest.
    replace (0 <? Z.of_nat (List.length (frame :: rest))) with true
      by (symmetry; apply Z.ltb_lt; cbn [List.length]; lia).
    auto.
Qed.

(** An invariant of the operations is an invariant of every run. *)
Lemma run_invariant (P : FrameSet.t Frame -> Prop) :
  (forall o s, P s -> P (FrameSet.step o s)) ->
  forall ops s, P s -> P (FrameSet.run ops s).
Proof.
  intros Hstep ops. induction ops as [|o ops IH]; intros s H; [exact H|].
  apply IH, Hstep, H.
Qed.

(** X1. First in, first out, under every interleaving: for every way
    of obtaining a frame set and every sequence of operations on it,
    the frames it started with followed by the frames added, in the
    order of the "add" events, are the frames handed out by [next], in
    the order of the "next" events, followed by the frames still
    buffered. No frame is lost, repeated or reordered. *)
Theorem frames_first_in_first_out c ops :
  let s := FrameSet.run ops (FrameSet.build c) in
  FrameSet._frames (FrameSet.build c) ++ FrameSet.added (FrameSet.emitted s)
  = FrameSet.handedOut (FrameSet.emitted s) ++ FrameSet._frames s.
Proof.
  cbn zeta.
  apply (run_invariant
           (fun s => FrameSet._frames (FrameSet.build c)
                     ++ FrameSet.added (FrameSet.emitted s)
                     = FrameSet.handedOut (FrameSet.emitted s) ++ FrameSet._frames s)).
  - intros o s H.
    destruct (step_cases o s)
      as [(frame & _ & _ & ->) | [(_ & _ & ->) | [(frame & rest & _ & E & ->) | ->]]];
      cbn [FrameSet._frames FrameSet.emitted];
      rewrite ?added_app, ?handedOut_app; cbn [FrameSet.added FrameSet.handedOut flat_map];
      rewrite ?app_nil_r; try exact H.
    + now rewrite !app_assoc, H.
    + rewrite H, E. now rewrite <- app_assoc.
  - rewrite build_silent. cbn. now rewrite app_nil_r.
Qed.

(** X2. For a frame set made without initial frames or returned by
    [subSet], [totalLength - length] is the number of frames that
    [next] has handed out; so the ratio of the status "Frames", shown
    once the set is finalized, has the number of frames handed out over
    the total, and lies between 0 and 1. *)
Theorem progress_counts_handed_out c ops :
  FrameSet.startsCounted c ->
  let s := FrameSet.run ops (FrameSet.build c) in
  let handed := Z.of_nat (List.length (FrameSet.handedOut (FrameSet.emitted s))) in
  FrameSet.totalLength s - FrameSet.length s = handed
  /\ 0 <= handed <= FrameSet.totalLength s
  /\ (FrameSet.finalized s = true ->
      FrameSet.progress s = Some (handed, FrameSet.totalLength s)).
Proof.
  intros Hc. cbn zeta.
  assert (H : FrameSet.totalLength (FrameSet.run ops (FrameSet.build c))
              = FrameSet.length (FrameSet.run ops (FrameSet.build c))
                + Z.of_nat (List.length
                    (FrameSet.handedOut
                       (FrameSet.emitted (FrameSet.run ops (FrameSet.build c)))))).
  { apply (run_invariant
             (fun s => FrameSet.totalLength s
                       = FrameSet.length s
                         + Z.of_nat (List.length
                                       (FrameSet.handedOut (FrameSet.emitted s))))).
    - intros o s H. unfold FrameSet.totalLength, FrameSet.length in *.
      destruct (step_cases o s)
        as [(frame & _ & _ & ->) | [(_ & _ & ->) | [(frame & rest & _ & E & ->) | ->]]];
        cbn [FrameSet._frames FrameSet.emitted FrameSet._totalLength];
        rewrite ?handedOut_app, ?List.length_app;
        cbn [FrameSet.handedOut flat_map List.length app]; try rewrite E in H;
        cbn [List.length] in *; lia.
    - rewrite build_silent. cbn [FrameSet.handedOut flat_map List.length].
      rewrite (FrameSetFacts.build_counted c Hc). lia. }
  unfold FrameSet.progress.
  assert (0 <= FrameSet.length (FrameSet.run ops (FrameSet.build c)))
    by (unfold FrameSet.length; lia).
  repeat split; try lia.
  intros ->. do 2 f_equal. lia.
Qed.

(** X3. Finalized means that no frame will ever come: from a finalized
    frame set on, whatever is called, the set stays finalized, no "add"
    event is emitted, no further "finalize" event is emitted, and the
    buffered frames are what is left of the frames buffered at that
    moment after those handed out since. *)
Theorem finalized_only_drains s ops :
  FrameSet.finalized s = true ->
  let s' := FrameSet.run ops s in
  FrameSet.finalized s' = true
  /\ FrameSet.added (FrameSet.emitted s') = FrameSet.added (FrameSet.emitted s)
  /\ FrameSet.finalizations (FrameSet.emitted s')
     = FrameSet.finalizations (FrameSet.emitted s)
  /\ exists handed,
       FrameSet.handedOut (FrameSet.emitted s')
       = FrameSet.handedOut (FrameSet.emitted s) ++ handed
       /\ FrameSet._frames s = handed ++ FrameSet._frames s'.
Proof.
  intros Hf. cbn zeta.
  apply (run_invariant
           (fun s' => FrameSet.finalized s' = true
              /\ FrameSet.added (FrameSet.emitted s') = FrameSet.added (FrameSet.emitted s)
              /\ FrameSet.finalizations (FrameSet.emitted s')
                 = FrameSet.finalizations (FrameSet.emitted s)
              /\ exists handed,
                   FrameSet.handedOut (FrameSet.emitted s')
                   = FrameSet.handedOut (FrameSet.emitted s) ++ handed
                   /\ FrameSet._frames s = handed ++ FrameSet._frames s')).
  - intros o s1 (H1 & H2 & H3 & handed & H4 & H5). unfold FrameSet.finalized in *.
    destruct (step_cases o s1)
      as [(frame & _ & E & _) | [(_ & E & _) | [(frame & rest & _ & E & ->) | ->]]];
      try congruence.
    + cbn [FrameSet._finalized FrameSet._frames FrameSet.emitted].
      rewrite added_app, finalizations_app, handedOut_app.
      cbn. rewrite app_nil_r, Nat.add_0_r.
      repeat split; try assumption.
      exists (handed ++ [frame]). rewrite H4, H5, E, <- !app_assoc. auto.
    + repeat split; try assumption. now exists handed.
  - repeat split; try assumption. exists []. now rewrite app_nil_r.
Qed.

(** X4. The "finalize" event is emitted at most once over every
    sequence of operations, and only on a frame set that is then
    finalized; on a frame set made by the constructor it has been
    emitted exactly when the set is finalized. *)
Theorem finalize_notifies_once c ops :
  let s := FrameSet.run ops (FrameSet.build c) in
  (FrameSet.finalizations (FrameSet.emitted s) <= 1)%nat
  /\ (FrameSet.finalizations (FrameSet.emitted s) = 1%nat ->
      FrameSet.finalized s = true)
  /\ (forall frames, c = FrameSet.New frames ->
      FrameSet.finalized s = true ->
      FrameSet.finalizations (FrameSet.emitted s) = 1%nat).
Proof.
  cbn zeta.
  assert (H : let s := FrameSet.run ops (FrameSet.build c) in
              (FrameSet.finalizations (FrameSet.emitted s)
               = if FrameSet.finalized s then 1%nat else 0%nat)
              \/ (FrameSet.finalizations (FrameSet.emitted s) = 0%nat
                  /\ FrameSet.finalized s = true
                  /\ forall frames, c <> FrameSet.New frames)).
  { apply (run_invariant
             (fun s => (FrameSet.finalizations (FrameSet.emitted s)
                        = if FrameSet.finalized s then 1%nat else 0%nat)
                       \/ (FrameSet.finalizations (FrameSet.emitted s) = 0%nat
                           /\ FrameSet.finalized s = true
                           /\ forall frames, c <> FrameSet.New frames))).
    - intros o s H. unfold FrameSet.finalized in *.
      destruct (step_cases o s)
        as [(frame & _ & E & ->) | [(_ & E & ->) | [(frame & rest & _ & E & ->) | ->]]];
        cbn [FrameSet._finalized FrameSet.emitted];
        rewrite ?finalizations_app; cbn [FrameSet.finalizations List.filter List.length];
        try exact H.
      + rewrite E in H. destruct H as [H | (_ & H & _)]; [|discriminate].
        left. rewrite H. reflexivity.
      + rewrite E in H. destruct H as [H | (_ & H & _)]; [|discriminate].
        left. rewrite H. reflexivity.
      + rewrite Nat.add_0_r. exact H.
    - rewrite build_silent. unfold FrameSet.finalized.
      destruct c as [frames|parent ops' b e]; [left; reflexivity|].
      cbn [FrameSet.build]. unfold FrameSet.subSet.
      destruct (FrameSet._finalized (FrameSet.run ops' (FrameSet.build parent)));
        [right|left; reflexivity].
      repeat split. discriminate. }
  cbn zeta in H.
  destruct H as [H | (H0 & Hf & Hc)].
  - rewrite H. destruct (FrameSet.finalized _); repeat split; try lia; auto; discriminate.
  - rewrite H0. repeat split; try lia; try discriminate.
    intros frames ->. now destruct (Hc frames).
Qed.

(** *** [subSet] *)

Lemma js_slice_infix {A} (l : list A) b e :
  exists before after, l = before ++ js_slice l b e ++ after.
Proof.
  unfold js_slice. cbn zeta.
  set (len := Z.of_nat (List.length l)).
  set (k := Z.to_nat (slice_bound len 0 b)).
  set (n := Z.to_nat (Z.max (slice_bound len len e - slice_bound len 0 b) 0)).
  exists (firstn k l), (skipn n (skipn k l)).
  now rewrite firstn_skipn, firstn_skipn.
Qed.

Lemma js_slice_all {A} (l : list A) : js_slice l None None = l.
Proof.
  unfold js_slice. cbn [slice_bound].
  rewrite Z.sub_0_r, Z.max_l by lia. cbn [Z.to_nat skipn].
  rewrite Nat2Z.id. apply firstn_all.
Qed.

(** X5. [subSet(begin, end)] returns a frame set of its own whose
    frames are a run of consecutive frames of the receiver, in the same
    order; it is finalized exactly when the receiver is, its
    [totalLength] is its [length], and it has emitted nothing. Without
    bounds it holds all the frames of the receiver. *)
Theorem subSet_is_a_run begin end_ s :
  let sub := FrameSet.subSet begin end_ s in
  (exists before after,
     FrameSet._frames s = before ++ FrameSet._frames sub ++ after)
  /\ FrameSet.finalized sub = FrameSet.finalized s
  /\ FrameSet.totalLength sub = FrameSet.length sub
  /\ FrameSet.emitted sub = []
  /\ FrameSet._frames (FrameSet.subSet None None s) = FrameSet._frames s.
Proof.
  cbn zeta. unfold FrameSet.subSet, FrameSet.finalized.
  destruct (FrameSet._finalized s) eqn:E; cbn;
    (split; [apply js_slice_infix|]); repeat split; apply js_slice_all.
Qed.

End WithFrame.
End FrameSetOrderFacts.

(** A slice of two added frames, then a frame added, the set finalized
    and two frames handed out: two of two frames shown. *)
Lemma progress_counts_handed_out_witness :
  FrameSet.startsCounted sliceOfTwo
  /\ FrameSet.progress
       (FrameSet.run
          [FrameSet.OpAdd 3%nat; FrameSet.OpFinalize; FrameSet.OpNext; FrameSet.OpNext]
          (FrameSet.build sliceOfTwo))
     = Some (2, 2).
Proof.
  split; [exact I|].
  apply (FrameSetOrderFacts.progress_counts_handed_out sliceOfTwo
           [FrameSet.OpAdd 3%nat; FrameSet.OpFinalize; FrameSet.OpNext; FrameSet.OpNext]
           I).
  reflexivity.
Defined.

(** A finalized set of two frames, on which a frame is added and one is
    handed out. *)
Lemma finalized_only_drains_witness :
  let s := FrameSet.run [FrameSet.OpAdd 1%nat; FrameSet.OpAdd 2%nat; FrameSet.OpFinalize]
             (FrameSet.constructor None) in
  FrameSet.finalized s = true
  /\ FrameSet.finalized (FrameSet.run [FrameSet.OpAdd 3%nat; FrameSet.OpNext] s) = true.
Proof.
  cbn zeta. split; [reflexivity|].
  apply (FrameSetOrderFacts.finalized_only_drains
           (FrameSet.run [FrameSet.OpAdd 1%nat; FrameSet.OpAdd 2%nat; FrameSet.OpFinalize]
              (FrameSet.constructor None))
           [FrameSet.OpAdd 3%nat; FrameSet.OpNext]).
  reflexivity.
Defined.

(** Finalizing twice notifies once. *)
Lemma finalize_notifies_once_witness :
  FrameSet.finalizations
    (FrameSet.emitted
       (FrameSet.run [FrameSet.OpFinalize; FrameSet.OpAdd 1%nat; FrameSet.OpFinalize]
          (FrameSet.build (FrameSet.New (@None (list nat))))))
  = 1%nat.
Proof.
  apply (FrameSetOrderFacts.finalize_notifies_once (FrameSet.New None)
           [FrameSet.OpFinalize; FrameSet.OpAdd 1%nat; FrameSet.OpFinalize])
    with (frames := None); reflexivity.
Defined.

(** ** Dimension: the string of a dimension as a key *)

Module DimensionFacts.

Lemma digits_cut d : forall d' t t',
  (NilEmpty.string_of_uint d ++ String "x" t)%string
  = (NilEmpty.string_of_uint d' ++ String "x" t')%string ->
  d = d' /\ t = t'.
Proof.
  induction d as [|d IH|d IH|d IH|d IH|d IH|d IH|d IH|d IH|d IH|d IH];
    intros d' t t' H; destruct d'; cbn [NilEmpty.string_of_uint] in H;
    try discriminate H;
    try (injection H as H; destruct (IH _ _ _ H) as [-> ->]; split; reflexivity).
  injection H as ->. split; reflexivity.
Qed.

Lemma dec_digits n :
  0 <= n ->
  exists u, u <> Decimal.Nil /\ Z.to_int n = Decimal.Pos u
            /\ dec n = NilEmpty.string_of_uint u.
Proof.
  intros H. destruct n as [|p|p]; [now exists Decimal.zero| |lia].
  exists (Pos.to_uint p).
  pose proof (DecimalPos.Unsigned.to_uint_nonnil p) as Hn.
  repeat split; [exact Hn|].
  unfold dec. cbn [Z.to_int NilZero.string_of_int].
  now destruct (Pos.to_uint p).
Qed.

Lemma constructor_abs w h :
  Dimension.constructor w h
  = {| Dimension._width := Z.abs w; Dimension._height := Z.abs h |}.
Proof.
  unfold Dimension.constructor.
  destruct (Z.eqb_spec w 0) as [->|_], (Z.eqb_spec h 0) as [->|_]; reflexivity.
Qed.

(** X6. The string of a dimension identifies it: two dimensions made
    by the constructor have the same [toString], the key under which a
    frame caches its paint, exactly when they are the same dimension,
    that is when their widths and their heights agree up to sign. *)
Theorem toString_identifies w h w' h' :
  (Dimension.toString (Dimension.constructor w h)
   = Dimension.toString (Dimension.constructor w' h')
   <-> Dimension.constructor w h = Dimension.constructor w' h')
  /\ (Dimension.constructor w h = Dimension.constructor w' h'
      <-> Z.abs w = Z.abs w' /\ Z.abs h = Z.abs h').
Proof.
  rewrite !constructor_abs. split; split.
  - unfold Dimension.toString, Dimension.width, Dimension.height.
    cbn [Dimension._width Dimension._height].
    destruct (dec_digits (Z.abs w) (Z.abs_nonneg w)) as (a & _ & Ha & ->).
    destruct (dec_digits (Z.abs h) (Z.abs_nonneg h)) as (b & Nb & Hb & _).
    destruct (dec_digits (Z.abs w') (Z.abs_nonneg w')) as (a' & _ & Ha' & ->).
    destruct (dec_digits (Z.abs h') (Z.abs_nonneg h')) as (b' & Nb' & Hb1 & _).
    intros H. apply digits_cut in H as [-> H].
    assert (E : Z.to_int (Z.abs h) = Z.to_int (Z.abs h')).
    { apply (f_equal (fun s => NilZero.int_of_string s)) in H.
      unfold dec in H.
      rewrite !NilZero.isi in H; try congruence. }
    apply (f_equal Z.of_int) in E. rewrite !DecimalZ.of_to in E.
    rewrite <- Ha' in Ha. apply (f_equal Z.of_int) in Ha.
    rewrite !DecimalZ.of_to in Ha. now rewrite Ha, E.
  - now intros ->.
  - intros H. injection H as -> ->. auto.
  - now intros [-> ->].
Qed.

End DimensionFacts.

(** ** Color and Frame: the colour cache is transparent *)

Module ColorCacheFacts.

Lemma noComma_digits u : noComma (NilEmpty.string_of_uint u) = true.
Proof. induction u; cbn [NilEmpty.string_of_uint noComma]; auto. Qed.

Lemma noComma_uint u : noComma (NilZero.string_of_uint u) = true.
Proof. destruct u; try reflexivity; apply (noComma_digits (_ u)). Qed.

Lemma noComma_dec n : noComma (dec n) = true.
Proof.
  unfold dec. destruct n as [|p|p]; cbn [Z.to_int NilZero.string_of_int noComma].
  - reflexivity.
  - apply noComma_uint.
  - apply noComma_uint.
Qed.

Lemma dec_parse n : NilZero.int_of_string (dec n) = Some (Z.to_int n).
Proof.
  unfold dec. apply NilZero.isi; destruct n as [|p|p]; cbn [Z.to_int];
    try discriminate; intros [= E];
    exact (DecimalPos.Unsigned.to_uint_nonnil p E).
Qed.

Lemma dec_inj n m : dec n = dec m -> n = m.
Proof.
  intros H. apply (f_equal NilZero.int_of_string) in H.
  rewrite !dec_parse in H. injection H as H.
  apply (f_equal Z.of_int) in H. now rewrite !DecimalZ.of_to in H.
Qed.

Lemma comma_cut s : forall s' t t',
  noComma s = true -> noComma s' = true ->
  (s ++ String "," t)%string = (s' ++ String "," t')%string ->
  s = s' /\ t = t'.
Proof.
  induction s as [|c s IH]; intros [|c' s'] t t' Hs Hs' H.
  - injection H as ->. auto.
  - injection H as <- _. discriminate Hs'.
  - injection H as -> _. discriminate Hs.
  - injection H as <- H. cbn [noComma] in Hs, Hs'.
    apply andb_prop in Hs as [_ Hs]. apply andb_prop in Hs' as [_ Hs'].
    destruct (IH _ _ _ Hs Hs' H) as [-> ->]. auto.
Qed.

(** The values a pixel buffer gives: a number, or [undefined] past its
    end. *)
Lemma at_cases pixels i :
  Frame.at_ pixels i = JUndefined \/ exists n, Frame.at_ pixels i = JNum n.
Proof. unfold Frame.at_. destruct (nth_error pixels i); eauto. Qed.

Lemma noComma_value v :
  (v = JUndefined \/ exists n, v = JNum n) -> noComma (to_string v) = true.
Proof. intros [->|(n & ->)]; [reflexivity|apply noComma_dec]. Qed.

Lemma to_string_inj v v' :
  (v = JUndefined \/ exists n, v = JNum n) ->
  (v' = JUndefined \/ exists n, v' = JNum n) ->
  to_string v = to_string v' -> v = v'.
Proof.
  intros [->|(n & ->)] [->|(m & ->)]; cbn [to_string]; intros H.
  - reflexivity.
  - apply (f_equal NilZero.int_of_string) in H. rewrite dec_parse in H.
    discriminate H.
  - apply (f_equal NilZero.int_of_string) in H. rewrite dec_parse in H.
    discriminate H.
  - now rewrite (dec_inj _ _ H).
Qed.

Lemma value_cut v v' t t' :
  (v = JUndefined \/ exists n, v = JNum n) ->
  (v' = JUndefined \/ exists n, v' = JNum n) ->
  (to_string v ++ String "," t)%string = (to_string v' ++ String "," t')%string ->
  v = v' /\ t = t'.
Proof.
  intros Hv Hv' H.
  apply comma_cut in H as [H ->]; auto using noComma_value.
  split; [now apply to_string_inj|reflexivity].
Qed.

(** The string of a colour built from a pixel buffer tells its red,
    green and blue components. *)
Lemma serialize_tells k pixels i k' pixels' i' :
  Color.serialize (Some (Frame.pixelColor k pixels i))
  = Color.serialize (Some (Frame.pixelColor k' pixels' i')) ->
  Color.red (Frame.pixelColor k pixels i) = Color.red (Frame.pixelColor k' pixels' i')
  /\ Color.green (Frame.pixelColor k pixels i)
     = Color.green (Frame.pixelColor k' pixels' i')
  /\ Color.blue (Frame.pixelColor k pixels i)
     = Color.blue (Frame.pixelColor k' pixels' i').
Proof.
  unfold Color.serialize. intros [= H].
  assert (Hc : forall k pixels i,
             let c := Frame.pixelColor k pixels i in
             (Color.red c = JUndefined \/ exists n, Color.red c = JNum n)
             /\ (Color.green c = JUndefined \/ exists n, Color.green c = JNum n)
             /\ (Color.blue c = JUndefined \/ exists n, Color.blue c = JNum n)).
  { intros [] ps j; cbn; auto using at_cases. }
  destruct (Hc k pixels i) as (Hr & Hg & Hb).
  destruct (Hc k' pixels' i') as (Hr' & Hg' & Hb').
  cbn zeta in *.
  apply value_cut in H as [Er H]; [|assumption..].
  apply value_cut in H as [Eg H]; [|assumption..].
  apply value_cut in H as [Eb _]; [|assumption..].
  auto.
Qed.

Section WithPalette.

Variable ansi256 : value -> value -> value -> Z.

Implicit Types (cache : gmap string Z).

Lemma coherent_empty : Frame.coherent ansi256 ∅.
Proof. intros key code H. now rewrite lookup_empty in H. Qed.

(** In a coherent cache the conversion of a colour of a pixel buffer
    gives the code of the palette for its components, and leaves the
    cache coherent. *)
Lemma toAnsi_coherent k pixels i cache :
  Frame.coherent ansi256 cache ->
  let c := Frame.pixelColor k pixels i in
  fst (Color.toAnsi ansi256 c cache)
  = ansi256 (Color.red c) (Color.green c) (Color.blue c)
  /\ Frame.coherent ansi256 (snd (Color.toAnsi ansi256 c cache)).
Proof.
  intros Hc. cbn zeta. unfold Color.toAnsi.
  destruct (Color.serialize (Some (Frame.pixelColor k pixels i))) as [key|] eqn:Ek;
    [|discriminate Ek].
  cbn [from_option id].
  destruct (cache !! key) as [code|] eqn:E; cbn [fst snd].
  - split; [|exact Hc].
    destruct (Hc _ _ E) as (k' & pixels' & i' & Hkey & ->).
    rewrite <- Ek in Hkey.
    destruct (serialize_tells _ _ _ _ _ _ Hkey) as (-> & -> & ->). reflexivity.
  - split; [reflexivity|].
    intros key' code' H.
    destruct (decide (key' = key)) as [->|Hne].
    + rewrite lookup_insert_eq in H. injection H as <-.
      exists k, pixels, i. auto.
    + rewrite lookup_insert_ne in H by congruence. exact (Hc _ _ H).
Qed.

Lemma getPixelColor_coherent k pixels i cache :
  Frame.coherent ansi256 cache ->
  fst (Frame.getPixelColor ansi256 k pixels i cache)
  = fst (Frame.getPixelColor ansi256 k pixels i ∅)
  /\ Frame.coherent ansi256 (snd (Frame.getPixelColor ansi256 k pixels i cache)).
Proof.
  intros Hc.
  destruct (toAnsi_coherent k pixels i cache Hc) as [E1 C1].
  destruct (toAnsi_coherent k pixels i ∅ coherent_empty) as [E2 _].
  cbn zeta in *. unfold Frame.getPixelColor. destruct k.
  - destruct (Color.hasTransparency _); [auto|].
    rewrite E1, E2. auto.
  - rewrite E1, E2. auto.
Qed.

Lemma countPixel_coherent f target pixelIndex cells cache1 cache2 :
  Frame.coherent ansi256 cache1 -> Frame.coherent ansi256 cache2 ->
  fst (Frame.countPixel ansi256 f target pixelIndex (cells, cache1))
  = fst (Frame.countPixel ansi256 f target pixelIndex (cells, cache2))
  /\ Frame.coherent ansi256
       (snd (Frame.countPixel ansi256 f target pixelIndex (cells, cache1))).
Proof.
  intros H1 H2. unfold Frame.countPixel. cbn [fst snd].
  destruct (getPixelColor_coherent (Frame._kind f) (Frame._pixels f)
              (pixelIndex * Z.to_nat (Frame.getPixelLength (Frame._kind f)))
              cache1 H1) as [E1 C1].
  destruct (getPixelColor_coherent (Frame._kind f) (Frame._pixels f)
              (pixelIndex * Z.to_nat (Frame.getPixelLength (Frame._kind f)))
              cache2 H2) as [E2 _].
  destruct (Frame.getPixelColor ansi256 _ _ _ cache1) as [color1 cache1'].
  destruct (Frame.getPixelColor ansi256 _ _ _ cache2) as [color2 cache2'].
  cbn [fst snd] in *. rewrite E1, <- E2.
  destruct (Num.toIndex _); auto.
Qed.

Lemma fold_coherent f target pixelIndexes : forall cells cache1 cache2,
  Frame.coherent ansi256 cache1 -> Frame.coherent ansi256 cache2 ->
  fst (fold_left (fun st pixelIndex => Frame.countPixel ansi256 f target pixelIndex st)
                 pixelIndexes (cells, cache1))
  = fst (fold_left (fun st pixelIndex => Frame.countPixel ansi256 f target pixelIndex st)
                   pixelIndexes (cells, cache2))
  /\ Frame.coherent ansi256
       (snd (fold_left
               (fun st pixelIndex => Frame.countPixel ansi256 f target pixelIndex st)
               pixelIndexes (cells, cache1))).
Proof.
  induction pixelIndexes as [|pixelIndex rest IH]; intros cells cache1 cache2 H1 H2.
  - auto.
  - cbn [fold_left].
    destruct (countPixel_coherent f target pixelIndex cells cache1 cache2 H1 H2)
      as [E C1].
    destruct (countPixel_coherent f target pixelIndex cells cache2 cache1 H2 H1)
      as [_ C2].
    destruct (Frame.countPixel ansi256 f target pixelIndex (cells, cache1))
      as [cells1 cache1'].
    destruct (Frame.countPixel ansi256 f target pixelIndex (cells, cache2))
      as [cells2 cache2'].
    cbn [fst snd] in *. subst cells2. now apply IH.
Qed.

Lemma countColors_coherent f target cache :
  Frame.coherent ansi256 cache ->
  fst (Frame.countColors ansi256 f target cache)
  = fst (Frame.countColors ansi256 f target ∅)
  /\ Frame.coherent ansi256 (snd (Frame.countColors ansi256 f target cache)).
Proof.
  intros H. apply fold_coherent; [exact H|apply coherent_empty].
Qed.

Lemma body_coherent recur self dimension previousFrame h paint h' :
  (forall g d h0 p0 h1, recur g d h0 = Some (p0, h1) ->
     Frame.coherent ansi256 (Frame.ansiCache h0) ->
     Frame.coherent ansi256 (Frame.ansiCache h1)) ->
  Frame.getPaintBody ansi256 recur self dimension previousFrame h = Some (paint, h') ->
  Frame.coherent ansi256 (Frame.ansiCache h) ->
  Frame.coherent ansi256 (Frame.ansiCache h').
Proof.
  intros Hrecur. unfold Frame.getPaintBody.
  destruct (Frame.frames h !! self) as [this|]; [|discriminate].
  destruct (Frame._paintCache this !! _); [now intros [= _ <-]|].
  intros H Hc.
  destruct (countColors_coherent this dimension _ Hc) as [_ C].
  destruct (Frame.countColors ansi256 this dimension (Frame.ansiCache h))
    as [countedColors cache].
  cbn [snd] in C.
  destruct previousFrame as [previous|].
  - destruct (recur previous dimension _) as [[lastPaint h1]|] eqn:Hcall;
      [|discriminate].
    apply Hrecur in Hcall; [|exact C].
    destruct (Frame.frames h1 !! self); [|discriminate].
    injection H as _ <-. exact Hcall.
  - cbn [Frame.frames Frame.ansiCache Frame.nextPaint] in H.
    destruct (Frame.frames h !! self); [|discriminate].
    injection H as _ <-. exact C.
Qed.

Lemma perform_coherent a h :
  Frame.coherent ansi256 (Frame.ansiCache h) ->
  Frame.coherent ansi256 (Frame.ansiCache (Frame.perform ansi256 h a)).
Proof.
  intros Hc. destruct a as [k index pixels width height|self dimension previousFrame];
    cbn [Frame.perform]; [exact Hc|].
  destruct (Frame.getPaint ansi256 self dimension previousFrame h)
    as [[paint h']|] eqn:E; [|exact Hc].
  revert E Hc. apply body_coherent.
  intros g d h0 p0 h1. apply body_coherent. discriminate.
Qed.

Lemma performAll_coherent actions : forall h,
  Frame.coherent ansi256 (Frame.ansiCache h) ->
  Frame.coherent ansi256 (Frame.ansiCache (Frame.performAll ansi256 actions h)).
Proof.
  induction actions as [|a actions IH]; intros h H; [exact H|].
  apply IH, perform_coherent, H.
Qed.

(** X7. The colour cache is transparent. In every state the program
    reaches from its start by creating frames and calling [getPaint],
    the colour counts of any frame for any dimension are those counted
    with an empty colour cache; and [getPaint] without previous frame,
    on a frame that has no paint for the dimension yet, returns the
    paint made of those counts. What was painted before has no
    influence on what a frame looks like. *)
Theorem painting_ignores_history (actions : list Frame.action) :
  let h := Frame.performAll ansi256 actions Frame.emptyHeap in
  (forall f d,
     fst (Frame.countColors ansi256 f d (Frame.ansiCache h))
     = fst (Frame.countColors ansi256 f d ∅))
  /\ (forall self d this,
        Frame.frames h !! self = Some this ->
        Frame._paintCache this !! Dimension.toString d = None ->
        exists address h',
          Frame.getPaint ansi256 self d None h
          = Some (Paint.constructor address self
                    (fst (Frame.countColors ansi256 this d ∅)) None,
                  h')).
Proof.
  cbn zeta.
  assert (Hc : Frame.coherent ansi256
                 (Frame.ansiCache (Frame.performAll ansi256 actions Frame.emptyHeap)))
    by apply performAll_coherent, coherent_empty.
  split.
  - intros f d. now apply countColors_coherent.
  - intros self d this Hf Hk.
    destruct (FrameColorFacts.getPaint_fresh ansi256 self d _ this Hf Hk)
      as (address & Hp & _).
    destruct (Frame.getPaint ansi256 self d None _) as [[paint h']|];
      [|discriminate Hp].
    injection Hp as ->. exists address, h'.
    now rewrite (proj1 (countColors_coherent this d _ Hc)).
Qed.

End WithPalette.
End ColorCacheFacts.

(** The red 2x2 frame, created after a red 3x3 frame was painted, is
    painted as if nothing had been painted before. *)
Lemma painting_ignores_history_witness :
  exists address h',
    Frame.getPaint sampleAnsi256 1 viewport3 None
      (Frame.performAll sampleAnsi256
         [Frame.Construct Frame.Alpha 0 (repeatPixels 9 [255; 0; 0; 255]) 3 3;
          Frame.GetPaint 0 viewport3 None;
          Frame.Construct Frame.Alpha 0 (repeatPixels 4 [255; 0; 0; 255]) 2 2]
         Frame.emptyHeap)
    = Some (Paint.constructor address 1
              (fst (Frame.countColors sampleAnsi256 smallRedFrame viewport3 ∅)) None,
            h').
Proof.
  apply (proj2 (ColorCacheFacts.painting_ignores_history sampleAnsi256
                  [Frame.Construct Frame.Alpha 0 (repeatPixels 9 [255; 0; 0; 255]) 3 3;
                   Frame.GetPaint 0 viewport3 None;
                   Frame.Construct Frame.Alpha 0 (repeatPixels 4 [255; 0; 0; 255]) 2 2])
               1%nat viewport3 smallRedFrame);
    vm_compute; reflexivity.
Defined.

(** ** Frame: what [getPaint] leaves alone *)

Module FrameKeepsFacts.
Section WithPalette.

Variable ansi256 : value -> value -> value -> Z.

Lemma keeps_refl key h : Frame.keeps key h h.
Proof. split; [reflexivity|]. intros f this H. exists this. auto 10. Qed.

Lemma keeps_trans key h1 h2 h3 :
  Frame.keeps key h1 h2 -> Frame.keeps key h2 h3 -> Frame.keeps key h1 h3.
Proof.
  intros [L1 K1] [L2 K2]. split; [congruence|].
  intros f this H.
  destruct (K1 _ _ H) as (this2 & H2 & Ek & Ei & Ep & Ed & Ec).
  destruct (K2 _ _ H2) as (this3 & H3 & Ek' & Ei' & Ep' & Ed' & Ec').
  exists this3. repeat split; try congruence.
  intros other Hne. now rewrite Ec', Ec.
Qed.

Lemma keeps_cache key h cache :
  Frame.keeps key h {| Frame.frames := Frame.frames h; Frame.ansiCache := cache;
                       Frame.nextPaint := Frame.nextPaint h |}.
Proof. split; [reflexivity|]. intros f this H. exists this. auto 10. Qed.

Lemma keeps_cached key h self this paint cache next :
  Frame.frames h !! self = Some this ->
  Frame.keeps key h
    {| Frame.frames := <[self := Frame.cached this key paint]> (Frame.frames h);
       Frame.ansiCache := cache; Frame.nextPaint := next |}.
Proof.
  intros Hs. split; [apply length_insert|].
  intros f that H. cbn [Frame.frames].
  destruct (decide (f = self)) as [->|Hne].
  - rewrite list_lookup_insert_eq by exact (lookup_lt_Some _ _ _ Hs).
    assert (that = this) as -> by congruence.
    exists (Frame.cached this key paint). repeat split.
    intros other Ho. cbn. now rewrite lookup_insert_ne by congruence.
  - rewrite list_lookup_insert_ne by congruence.
    exists that. auto 10.
Qed.

Lemma body_keeps recur self dimension previousFrame h paint h' :
  (forall g d h0 p0 h1, recur g d h0 = Some (p0, h1) ->
     Frame.keeps (Dimension.toString d) h0 h1
     /\ forall f, f <> g -> Frame.frames h1 !! f = Frame.frames h0 !! f) ->
  Frame.getPaintBody ansi256 recur self dimension previousFrame h = Some (paint, h') ->
  Frame.keeps (Dimension.toString dimension) h h'
  /\ forall f, f <> self -> Some f <> previousFrame ->
       Frame.frames h' !! f = Frame.frames h !! f.
Proof.
  intros Hrecur. unfold Frame.getPaintBody.
  destruct (Frame.frames h !! self) as [this|] eqn:Hself; [|discriminate].
  destruct (Frame._paintCache this !! _).
  { intros [= _ <-]. split; [apply keeps_refl|reflexivity]. }
  destruct (Frame.countColors ansi256 this dimension (Frame.ansiCache h))
    as [countedColors cache].
  destruct previousFrame as [previous|].
  - destruct (recur previous dimension _) as [[lastPaint h1]|] eqn:Hcall;
      [|discriminate].
    destruct (Hrecur _ _ _ _ _ Hcall) as [K F].
    destruct (Frame.frames h1 !! self) as [this1|] eqn:Hself1; [|discriminate].
    intros [= _ <-]. split.
    + eapply keeps_trans; [apply keeps_cache|].
      eapply keeps_trans; [exact K|]. now apply keeps_cached.
    + intros f Hne Hp. cbn [Frame.frames].
      rewrite list_lookup_insert_ne by congruence.
      rewrite F by congruence. reflexivity.
  - cbn [Frame.frames Frame.ansiCache Frame.nextPaint].
    rewrite Hself. intros [= _ <-]. split.
    + apply (keeps_cached _ h self this _ cache (S (Frame.nextPaint h)) Hself).
    + intros f Hne _. cbn [Frame.frames].
      now rewrite list_lookup_insert_ne by congruence.
Qed.

(** X8. What [getPaint] leaves alone. A call
    [self.getPaint(dimension, previousFrame)] creates and removes no
    frame and changes the class, index, pixels and dimension of none;
    it leaves the paint that any frame holds for any other key than
    the string of [dimension] as it is, present or absent; and it
    leaves every frame other than [self] and [previousFrame] exactly as
    it is. *)
Theorem getPaint_keeps self dimension previousFrame h paint h' :
  Frame.getPaint ansi256 self dimension previousFrame h = Some (paint, h') ->
  Frame.keeps (Dimension.toString dimension) h h'
  /\ forall f, f <> self -> Some f <> previousFrame ->
       Frame.frames h' !! f = Frame.frames h !! f.
Proof.
  apply body_keeps. intros g d h0 p0 h1 H.
  apply body_keeps in H; [|discriminate].
  destruct H as [K F]. split; [exact K|].
  intros f Hne. now apply F.
Qed.

End WithPalette.
End FrameKeepsFacts.

(** Painting the transparent frame after the red one over the sample
    heap leaves the third frame as it is. *)
Lemma getPaint_keeps_witness :
  Frame.frames (heapOf clearOverRed) !! 2%nat = Frame.frames sampleHeap !! 2%nat.
Proof.
  apply (FrameKeepsFacts.getPaint_keeps sampleAnsi256 1 viewport3 (Some 0%nat)
           sampleHeap (paintOf clearOverRed) (heapOf clearOverRed));
    [vm_compute; reflexivity|lia|discriminate].
Defined.

(** ** Paint: which colour is the prominent one *)

Module PaintChoiceFacts.

Lemma compare_le (a b : Paint.weighted) :
  (Paint.compare a b <=? 0) = Qle_bool (Paint.count b) (Paint.count a).
Proof.
  unfold Paint.compare.
  destruct (Qle_bool (Paint.count b) (Paint.count a)); [|reflexivity].
  now destruct (Qle_bool (Paint.count a) (Paint.count b)).
Qed.

(** The first element of the sorted array: the first of the heaviest. *)
Lemma sort_head {A} (f : A -> Paint.weighted) (l : list A) :
  l <> [] ->
  exists before x after tail,
    l = before ++ x :: after
    /\ Paint.sort (map f l) = f x :: tail
    /\ (forall e, In e l -> (Paint.count (f e) <= Paint.count (f x))%Q)
    /\ (forall e, In e before -> (Paint.count (f e) < Paint.count (f x))%Q).
Proof.
  induction l as [|x rest IH]; [congruence|]. intros _.
  destruct rest as [|x' rest'].
  - exists [], x, [], []. repeat split.
    + intros e [<-|[]]. apply Qle_refl.
    + intros e [].
  - destruct IH as (before & y & after & tail & Hl & Hs & Hmax & Hlt); [discriminate|].
    cbn [map Paint.sort fold_right] in *.
    change (fold_right Paint.insert [] (map f rest'))
      with (Paint.sort (map f rest')) in *.
    rewrite Hs. cbn [Paint.insert]. rewrite compare_le.
    destruct (Qle_bool (Paint.count (f y)) (Paint.count (f x))) eqn:E.
    + apply Qle_bool_iff in E.
      exists [], x, (x' :: rest'), (f y :: tail). repeat split.
      * intros e [<-|He]; [apply Qle_refl|].
        eapply Qle_trans; [apply (Hmax e He)|exact E].
      * intros e [].
    + assert (Hxy : (Paint.count (f x) < Paint.count (f y))%Q).
      { apply Qnot_le_lt. intros H. apply Qle_bool_iff in H. congruence. }
      exists (x :: before), y, after, (Paint.insert (f x) tail). repeat split.
      * cbn [app]. now rewrite Hl.
      * intros e [<-|He]; [now apply Qlt_le_weak|now apply Hmax].
      * intros e [<-|He]; [exact Hxy|now apply Hlt].
Qed.

(** X9. The prominent colour of a "pixel area" that has a colour count
    is the colour of the heaviest entry of the count, where an entry
    weighs its count, halved when its colour is grayscale, and its
    colour is that of the previous paint when it is the transparency
    code and there is a previous paint; among several heaviest entries
    it is the first in the order of the keys of the count. A pixel
    area without colour count has the colour [null]. *)
Theorem prominent_is_first_heaviest (index : nat) (colors : Paint.hist)
  (previousColors : option (list value)) :
  Paint.getProminentColor index None previousColors = JNull
  /\ (colors <> [] ->
      exists before entry after,
        colors = before ++ entry :: after
        /\ Paint.getProminentColor index (Some colors) previousColors
           = Paint.color (Paint.weigh index previousColors entry)
        /\ (forall e, In e colors ->
              (Paint.count (Paint.weigh index previousColors e)
               <= Paint.count (Paint.weigh index previousColors entry))%Q)
        /\ (forall e, In e before ->
              (Paint.count (Paint.weigh index previousColors e)
               < Paint.count (Paint.weigh index previousColors entry))%Q)).
Proof.
  split; [reflexivity|]. intros Hne.
  destruct (sort_head (Paint.weigh index previousColors) colors Hne)
    as (before & entry & after & tail & Hl & Hs & Hmax & Hlt).
  exists before, entry, after. unfold Paint.getProminentColor.
  rewrite Hs. auto.
Qed.

End PaintChoiceFacts.

(** Of the counts 3 for the code 16 (grayscale, weight 3/2), 2 for 21
    and 2 for 196, the code 21 is chosen. *)
Lemma prominent_is_first_heaviest_witness :
  exists before entry after,
    [(16, 3); (21, 2); (196, 2)] = before ++ entry :: after
    /\ Paint.getProminentColor 0 (Some [(16, 3); (21, 2); (196, 2)]) None
       = Paint.color (Paint.weigh 0 None entry)
    /\ (forall e, In e [(16, 3); (21, 2); (196, 2)] ->
          (Paint.count (Paint.weigh 0 None e)
           <= Paint.count (Paint.weigh 0 None entry))%Q)
    /\ (forall e, In e before ->
          (Paint.count (Paint.weigh 0 None e)
           < Paint.count (Paint.weigh 0 None entry))%Q).
Proof.
  apply (proj2 (PaintChoiceFacts.prominent_is_first_heaviest
                  0 [(16, 3); (21, 2); (196, 2)] None)).
  discriminate.
Defined.

(** ** Frame and Paint: a frame without transparency ignores the previous frame *)

Module FrameSolidFacts.

(** *** Paint: only the transparency code borrows *)

Lemma weigh_own index previousColors entry :
  fst entry <> Paint.TRANSPARENT_ANSI ->
  Paint.weigh index previousColors entry = Paint.weigh index None entry.
Proof.
  intros H. unfold Paint.weigh. destruct previousColors as [previous|]; [|reflexivity].
  now rewrite (proj2 (Z.eqb_neq _ _) H).
Qed.

Lemma prominent_own index cell previousColors :
  (forall colors, cell = Some colors ->
     forall entry, In entry colors -> fst entry <> Paint.TRANSPARENT_ANSI) ->
  Paint.getProminentColor index cell previousColors
  = Paint.getProminentColor index cell None.
Proof.
  intros H. destruct cell as [colors|]; [|reflexivity].
  unfold Paint.getProminentColor.
  rewrite (map_ext_in (Paint.weigh index previousColors) (Paint.weigh index None));
    [reflexivity|].
  intros entry Hin. apply weigh_own. now apply (H colors).
Qed.

Lemma iterate_own previousColors cells : forall index st,
  Frame.solid cells ->
  Paint.iterate previousColors index cells st = Paint.iterate None index cells st.
Proof.
  induction cells as [|cell rest IH]; intros index st Hs; [reflexivity|].
  cbn [Paint.iterate].
  assert (Hb : Paint.body previousColors index cell st = Paint.body None index cell st).
  { unfold Paint.body. rewrite (prominent_own index cell previousColors); [reflexivity|].
    intros colors ->. exact (Hs 0%nat colors eq_refl). }
  rewrite Hb. apply IH.
  intros i colors Hi. exact (Hs (S i) colors Hi).
Qed.

Lemma constructor_own address frame cells lastPaint :
  Frame.solid cells ->
  Paint.constructor address frame cells lastPaint
  = Paint.constructor address frame cells None.
Proof.
  intros Hs. unfold Paint.constructor. now rewrite iterate_own.
Qed.

(** *** Frame: counting never makes up the transparency code *)

Lemma define_keys k n colors entry :
  In entry (Frame.define k n colors) -> fst entry = k \/ In entry colors.
Proof.
  induction colors as [|[k' n'] rest IH]; cbn [Frame.define].
  - intros [<-|[]]. now left.
  - destruct (_ && _).
    + intros [<-|H]; [now left|now right].
    + intros [<-|H]; [right; now left|].
      destruct (IH H) as [E|Hin]; [now left|right; now right].
Qed.

Lemma increment_keys k colors entry :
  In entry (Frame.increment k colors) ->
  exists entry', In entry' colors /\ fst entry = fst entry'.
Proof.
  induction colors as [|[k' n'] rest IH]; cbn [Frame.increment]; [intros []|].
  destruct (k =? k').
  - intros [<-|H]; [exists (k', n')|exists entry]; cbn; auto.
  - intros [<-|H]; [exists (k', n'); cbn; auto|].
    destruct (IH H) as (entry' & Hin & E). exists entry'. cbn. auto.
Qed.

Lemma count_keys color colors entry :
  In entry (Frame.count color colors) -> fst entry = color \/
  exists entry', In entry' colors /\ fst entry = fst entry'.
Proof.
  unfold Frame.count. intros H.
  apply increment_keys in H as (entry' & Hin & E).
  destruct (Frame.hasKey color colors); [right; eauto|].
  apply define_keys in Hin as [Hk|Hin]; [left; congruence|right; eauto].
Qed.

Lemma opaque_noTransparency f :
  Frame._kind f = Frame.Opaque -> Frame.noTransparency f = true.
Proof.
  intros Hk. unfold Frame.noTransparency. rewrite Hk.
  apply forallb_forall. intros pixelIndex _. reflexivity.
Qed.

Section WithPalette.

Variable ansi256 : value -> value -> value -> Z.

Hypothesis palette : forall r g b, ansi256 r g b <> Paint.TRANSPARENT_ANSI.

Lemma solid_pixel f pixelIndex cache :
  Frame.noTransparency f = true ->
  In pixelIndex (seq 0 (Frame.turns f)) ->
  Frame.coherent ansi256 cache ->
  fst (Frame.getPixelColor ansi256 (Frame._kind f) (Frame._pixels f)
         (pixelIndex * Z.to_nat (Frame.getPixelLength (Frame._kind f))) cache)
  <> Paint.TRANSPARENT_ANSI.
Proof.
  unfold Frame.noTransparency. rewrite forallb_forall. intros Hall Hin Hc.
  specialize (Hall _ Hin). apply negb_true_iff in Hall.
  destruct (ColorCacheFacts.toAnsi_coherent ansi256 (Frame._kind f) (Frame._pixels f)
              (pixelIndex * Z.to_nat (Frame.getPixelLength (Frame._kind f)))
              cache Hc) as [E _].
  cbn zeta in E. unfold Frame.getPixelColor.
  destruct (Frame._kind f); [rewrite Hall|]; rewrite E; apply palette.
Qed.

Lemma fold_solid f target pixelIndexes : forall cells cache,
  Frame.noTransparency f = true ->
  (forall pixelIndex, In pixelIndex pixelIndexes ->
                      In pixelIndex (seq 0 (Frame.turns f))) ->
  Frame.coherent ansi256 cache ->
  Frame.solid cells ->
  Frame.solid
    (fst (fold_left (fun st pixelIndex => Frame.countPixel ansi256 f target pixelIndex st)
                    pixelIndexes (cells, cache))).
Proof.
  induction pixelIndexes as [|pixelIndex rest IH]; intros cells cache Hn Hin Hc Hs;
    [exact Hs|].
  cbn [fold_left].
  pose proof (solid_pixel f pixelIndex cache Hn (Hin _ (or_introl eq_refl)) Hc) as Hp.
  destruct (ColorCacheFacts.countPixel_coherent ansi256 f target pixelIndex cells
              cache cache Hc Hc) as [_ Hc'].
  revert Hc'. unfold Frame.countPixel. cbn [fst snd].
  destruct (Frame.getPixelColor ansi256 _ _ _ cache) as [color cache1].
  cbn [fst] in Hp.
  destruct (Num.toIndex _) as [index|]; cbn [snd]; intros Hc'.
  - apply IH; auto.
    + intros p Hp'. apply Hin. now right.
    + intros i colors. rewrite FrameTransparencyFacts.slot_store.
      destruct (Nat.eqb i index); [|apply Hs].
      intros [= <-] entry He.
      apply count_keys in He as [E|(entry' & Hin' & E)]; [congruence|].
      rewrite E.
      destruct (Frame.slot cells index) as [known|] eqn:Ek; [|destruct Hin'].
      exact (Hs _ _ Ek _ Hin').
  - apply IH; auto. intros p Hp'. apply Hin. now right.
Qed.

Lemma countColors_solid f target cache :
  Frame.noTransparency f = true ->
  Frame.coherent ansi256 cache ->
  Frame.solid (fst (Frame.countColors ansi256 f target cache)).
Proof.
  intros Hn Hc. unfold Frame.countColors. apply fold_solid; auto.
  intros i colors. unfold Frame.slot. now destruct i.
Qed.

(** [previousFrame.getPaint(dimension)] returns for every frame there is. *)
Lemma alone_returns previous dimension h that :
  Frame.frames h !! previous = Some that ->
  exists paint h', Frame.getPaintAlone ansi256 previous dimension h = Some (paint, h').
Proof.
  intros Hf. unfold Frame.getPaintAlone, Frame.getPaintBody. rewrite Hf.
  destruct (Frame._paintCache that !! _); [eauto|].
  destruct (Frame.countColors ansi256 that dimension (Frame.ansiCache h))
    as [countedColors cache].
  cbn [Frame.frames]. rewrite Hf. eauto.
Qed.

(** X10. A frame without transparency ignores the previous frame.
    When the palette never answers the transparency code -1, in every
    state the program reaches from its start, [getPaint] on a frame of
    the class [OpaqueFrame], or on a frame none of whose pixels has
    alpha below 255, that has no paint for the dimension yet, returns,
    whatever previous frame is passed, the paint made of the colour
    counts of the frame alone: the same string and colours as without
    previous frame. *)
Theorem solid_frame_ignores_previous (actions : list Frame.action)
  (self : nat) (d : Dimension.t) (this : Frame.t) (previousFrame : option nat) :
  let h := Frame.performAll ansi256 actions Frame.emptyHeap in
  Frame.frames h !! self = Some this ->
  Frame._kind this = Frame.Opaque \/ Frame.noTransparency this = true ->
  Frame._paintCache this !! Dimension.toString d = None ->
  (forall previous, previousFrame = Some previous ->
                    (previous < List.length (Frame.frames h))%nat) ->
  exists address h',
    Frame.getPaint ansi256 self d previousFrame h
    = Some (Paint.constructor address self
              (fst (Frame.countColors ansi256 this d ∅)) None,
            h').
Proof.
  cbn zeta. intros Hf Hk Hmiss Hprev.
  set (h := Frame.performAll ansi256 actions Frame.emptyHeap) in *.
  assert (Hc : Frame.coherent ansi256 (Frame.ansiCache h))
    by apply ColorCacheFacts.performAll_coherent, ColorCacheFacts.coherent_empty.
  assert (Hn : Frame.noTransparency this = true)
    by (destruct Hk as [Hk|Hk]; [now apply opaque_noTransparency|exact Hk]).
  pose proof (countColors_solid this d _ Hn Hc) as Hs.
  destruct (ColorCacheFacts.countColors_coherent ansi256 this d _ Hc) as [E _].
  unfold Frame.getPaint, Frame.getPaintBody. rewrite Hf, Hmiss.
  destruct (Frame.countColors ansi256 this d (Frame.ansiCache h))
    as [countedColors cache].
  cbn [fst] in Hs, E. rewrite <- E.
  destruct previousFrame as [previous|].
  - destruct (lookup_lt_is_Some_2 (Frame.frames h) previous (Hprev _ eq_refl))
      as [that Hthat].
    set (h0 := {| Frame.frames := Frame.frames h; Frame.ansiCache := cache;
                  Frame.nextPaint := Frame.nextPaint h |}).
    destruct (alone_returns previous d h0 that Hthat) as (lastPaint & h1 & Hcall).
    rewrite Hcall.
    assert (K : Frame.keeps (Dimension.toString d) h0 h1).
    { eapply FrameKeepsFacts.body_keeps; [|exact Hcall]. discriminate. }
    destruct (proj2 K self this Hf) as (this1 & Hf1 & _).
    rewrite Hf1. rewrite (constructor_own _ _ _ (Some lastPaint) Hs). eauto.
  - cbn [Frame.frames]. rewrite Hf. eauto.
Qed.

End WithPalette.
End FrameSolidFacts.

(** Two opaque frames of one pixel, with a palette of one colour: the
    second is painted after the first as it is painted alone. *)
Lemma solid_frame_ignores_previous_witness :
  exists address h',
    Frame.getPaint (fun _ _ _ => 196) 1 (Dimension.constructor 1 1) (Some 0%nat)
      (Frame.performAll (fun _ _ _ => 196)
         [Frame.Construct Frame.Opaque 0 [1; 2; 3] 1 1;
          Frame.Construct Frame.Opaque 1 [4; 5; 6] 1 1]
         Frame.emptyHeap)
    = Some (Paint.constructor address 1
              (fst (Frame.countColors (fun _ _ _ => 196)
                      {| Frame._kind := Frame.Opaque; Frame._index := 1;
                         Frame._pixels := [4; 5; 6];
                         Frame._dimension := Dimension.constructor 1 1;
                         Frame._paintCache := ∅ |}
                      (Dimension.constructor 1 1) ∅)) None,
            h').
Proof.
  apply (FrameSolidFacts.solid_frame_ignores_previous (fun _ _ _ => 196)
           (fun _ _ _ => ltac:(discriminate))
           [Frame.Construct Frame.Opaque 0 [1; 2; 3] 1 1;
            Frame.Construct Frame.Opaque 1 [4; 5; 6] 1 1]
           1%nat (Dimension.constructor 1 1) _ (Some 0%nat)).
  - vm_compute; reflexivity.
  - left; reflexivity.
  - vm_compute; reflexivity.
  - intros previous [= <-]. vm_compute. lia.
Defined.

(** ** Player: what a play leaves behind *)

Module PlayerFacts.
Section WithFrame.

Context {Frame : Type}.
Variable getMediaReader :
  string -> MediaReader.Options -> outcome (MediaReader.t Frame).

Implicit Types (s : Store.t Frame) (fs : FrameSet.t Frame).

Lemma onFrameSet_effect {A} a (method : FrameSet.t Frame -> outcome A * FrameSet.t Frame)
  s fs :
  Store.frameSets s !! a = Some fs ->
  snd (Store.onFrameSet a method s) = Store.update a (snd (method fs)) s.
Proof.
  intros H. unfold Store.onFrameSet. rewrite H. now destruct (method fs).
Qed.

Lemma update_update a fs fs' s :
  Store.update a fs' (Store.update a fs s) = Store.update a fs' s.
Proof. unfold Store.update. cbn. now rewrite insert_insert_eq. Qed.

Lemma update_same a fs s :
  Store.frameSets s !! a = Some fs -> Store.update a fs s = s.
Proof.
  intros H. destruct s as [sets next log]. unfold Store.update. cbn in *.
  now rewrite insert_id.
Qed.

(** Feeding the frames of a decoder into the frame set at [a] is
    running [add] for each and then [finalize] on it. *)
Lemma feed_runs a frames finish : forall s fs,
  Store.frameSets s !! a = Some fs ->
  Player.feed a frames finish s
  = Store.update a
      (FrameSet.run (map FrameSet.OpAdd frames
                     ++ if finish then [FrameSet.OpFinalize] else []) fs)
      s.
Proof.
  unfold Player.feed.
  assert (Hadds : forall frames s fs,
             Store.frameSets s !! a = Some fs ->
             fold_left (fun s frame =>
                          snd (Store.onFrameSet a (FrameSet.add frame) s)) frames s
             = Store.update a (FrameSet.run (map FrameSet.OpAdd frames) fs) s).
  { clear frames. induction frames as [|frame frames IH]; intros s fs H.
    - cbn. now rewrite update_same.
    - cbn [fold_left map FrameSet.run].
      rewrite (onFrameSet_effect _ _ _ _ H).
      rewrite (IH _ (snd (FrameSet.add frame fs))).
      + rewrite update_update. reflexivity.
      + cbn. apply lookup_insert_eq. }
  intros s fs H. rewrite (Hadds frames s fs H).
  assert (Hrun : FrameSet.run (map FrameSet.OpAdd frames
                               ++ if finish then [FrameSet.OpFinalize] else []) fs
                 = FrameSet.run (if finish then [FrameSet.OpFinalize] else [])
                     (FrameSet.run (map FrameSet.OpAdd frames) fs))
    by apply fold_left_app.
  rewrite Hrun.
  destruct finish; [|reflexivity].
  erewrite onFrameSet_effect by (cbn; apply lookup_insert_eq).
  now rewrite update_update.
Qed.

(** A new frame set after the frames of a decoder. *)
Lemma run_adds (frames : list Frame) (finish : bool) :
  FrameSet.run (map FrameSet.OpAdd frames
                ++ if finish then [FrameSet.OpFinalize] else [])
    (FrameSet.constructor (@None (list Frame)))
  = {| FrameSet._finalized := finish;
       FrameSet._frames := frames;
       FrameSet._totalLength := Z.of_nat (List.length frames);
       FrameSet.emitted := map FrameSet.EvAdd frames
                           ++ if finish then [FrameSet.EvFinalize] else [] |}.
Proof.
  assert (H : forall frames fs,
             FrameSet._finalized fs = false ->
             FrameSet.run (map FrameSet.OpAdd frames) fs
             = {| FrameSet._finalized := false;
                  FrameSet._frames := FrameSet._frames fs ++ frames;
                  FrameSet._totalLength :=
                    FrameSet._totalLength fs + Z.of_nat (List.length frames);
                  FrameSet.emitted :=
                    FrameSet.emitted fs ++ map FrameSet.EvAdd frames |}).
  { clear frames. induction frames as [|frame frames IH]; intros fs Hf.
    - cbn. rewrite !app_nil_r, Z.add_0_r. destruct fs. cbn in *. now subst.
    - cbn [map FrameSet.run fold_left FrameSet.step].
      change (fold_left (fun acc o => FrameSet.step o acc) (map FrameSet.OpAdd frames)
                (snd (FrameSet.add frame fs)))
        with (FrameSet.run (map FrameSet.OpAdd frames) (snd (FrameSet.add frame fs))).
      unfold FrameSet.add, FrameSet.finalized. rewrite Hf. cbn [snd].
      rewrite IH by reflexivity. cbn [FrameSet._frames FrameSet._totalLength
                                      FrameSet.emitted List.length].
      rewrite <- !app_assoc. cbn [app]. f_equal. lia. }
  assert (Hrun : forall ops1 ops2 (fs : FrameSet.t Frame),
             FrameSet.run (ops1 ++ ops2) fs = FrameSet.run ops2 (FrameSet.run ops1 fs))
    by (intros; apply fold_left_app).
  rewrite Hrun, H by reflexivity. cbn [FrameSet.constructor FrameSet._frames
                                 FrameSet._totalLength FrameSet.emitted app].
  destruct finish; cbn; [reflexivity|now rewrite app_nil_r].
Qed.

(** What [Player.play] has done when its promise resolves. *)
Lemma play_returned filePath options p s a p' s' :
  Player.play getMediaReader filePath options p s = (Returned a, p', s') ->
  exists reader dimension frames finish,
    getMediaReader filePath options = Returned reader
    /\ MediaReader.readDimension reader = Returned dimension
    /\ MediaReader.readFrames reader dimension = (frames, finish, Returned tt)
    /\ a = Store.nextFrameSet s
    /\ Store.frameSets s' !! a
       = Some {| FrameSet._finalized := finish;
                 FrameSet._frames := frames;
                 FrameSet._totalLength := Z.of_nat (List.length frames);
                 FrameSet.emitted := map FrameSet.EvAdd frames
                                     ++ if finish then [FrameSet.EvFinalize] else [] |}
    /\ (forall b, b <> a -> Store.frameSets s' !! b = Store.frameSets s !! b)
    /\ Store.readers s'
       = Store.readers s
         ++ [MediaReader.Created filePath; MediaReader.Destroyed filePath]
    /\ p' = {| Player._state := PlayerState.PLAYING |}.
Proof.
  unfold Player.play. cbn [Store.allocate].
  destruct (getMediaReader filePath options) as [reader|e]; [|discriminate].
  destruct (MediaReader.readDimension reader) as [dimension|e] eqn:Ed; [|discriminate].
  destruct (MediaReader.readFrames reader dimension) as [[frames finish] settled] eqn:Er.
  destruct settled as [[]|e]; [|discriminate].
  intros [= <- <- <-].
  exists reader, dimension, frames, finish.
  erewrite feed_runs by (cbn; apply lookup_insert_eq).
  rewrite run_adds. cbn. repeat split; try assumption.
  - apply lookup_insert_eq.
  - intros b Hb. now rewrite !lookup_insert_ne by congruence.
  - now rewrite <- app_assoc.
Qed.

(** X11. The frame set that [Player.play] resolves with. When the
    promise of [play] resolves, it resolves with a frame set created by
    this call that holds exactly the frames the reader has emitted, in
    their order, none handed out yet, with [totalLength] their number;
    the set is finalized exactly when the reader has emitted "finish";
    no other frame set has been touched, the reader has been destroyed
    and the player is PLAYING. *)
Theorem play_resolves_with_decoded_frames filePath options p s a p' s' :
  Player.play getMediaReader filePath options p s = (Returned a, p', s') ->
  exists reader dimension frames finish,
    getMediaReader filePath options = Returned reader
    /\ MediaReader.readDimension reader = Returned dimension
    /\ MediaReader.readFrames reader dimension = (frames, finish, Returned tt)
    /\ a = Store.nextFrameSet s
    /\ Store.frameSets s' !! a
       = Some {| FrameSet._finalized := finish;
                 FrameSet._frames := frames;
                 FrameSet._totalLength := Z.of_nat (List.length frames);
                 FrameSet.emitted := map FrameSet.EvAdd frames
                                     ++ if finish then [FrameSet.EvFinalize] else [] |}
    /\ (forall b, b <> a -> Store.frameSets s' !! b = Store.frameSets s !! b)
    /\ Store.readers s'
       = Store.readers s
         ++ [MediaReader.Created filePath; MediaReader.Destroyed filePath]
    /\ p' = {| Player._state := PlayerState.PLAYING |}.
Proof. apply play_returned. Qed.

(** X12. Every reader is destroyed. [getTitle] and [play] each obtain
    one reader and destroy it exactly once, whether the title, the
    dimension or the frames are read or reading fails; when no reader
    can be obtained none is created. *)
Theorem readers_are_destroyed filePath options p s :
  let afterTitle := snd (Player.getTitle getMediaReader filePath options s) in
  let afterPlay := snd (Player.play getMediaReader filePath options p s) in
  match getMediaReader filePath options with
  | Returned _ =>
      Store.readers afterTitle
      = Store.readers s
        ++ [MediaReader.Created filePath; MediaReader.Destroyed filePath]
      /\ Store.readers afterPlay
         = Store.readers s
           ++ [MediaReader.Created filePath; MediaReader.Destroyed filePath]
  | Thrown _ =>
      Store.readers afterTitle = Store.readers s
      /\ Store.readers afterPlay = Store.readers s
  end.
Proof.
  cbn zeta. unfold Player.getTitle, Player.play. cbn [Store.allocate].
  destruct (getMediaReader filePath options) as [reader|e]; [|split; reflexivity].
  split; [cbn; now rewrite <- app_assoc|].
  destruct (MediaReader.readDimension reader) as [dimension|e];
    [|cbn; now rewrite <- app_assoc].
  destruct (MediaReader.readFrames reader dimension) as [[frames finish] settled].
  erewrite feed_runs by (cbn; apply lookup_insert_eq).
  destruct settled; cbn; now rewrite <- app_assoc.
Qed.

End WithFrame.
End PlayerFacts.

(** Playing the medium of two frames on a new player. *)
Lemma play_resolves_with_decoded_frames_witness :
  let r := Player.play readerOf "movie.gif" MediaReader.noOptions
             Player.constructor Store.empty in
  r = (Returned 0%nat, snd (fst r), snd r)
  /\ exists reader dimension frames finish,
       readerOf "movie.gif" MediaReader.noOptions = Returned reader
       /\ MediaReader.readDimension reader = Returned dimension
       /\ MediaReader.readFrames reader dimension = (frames, finish, Returned tt)
       /\ 0%nat = Store.nextFrameSet (@Store.empty nat)
       /\ Store.frameSets (snd r) !! 0%nat
          = Some {| FrameSet._finalized := finish;
                    FrameSet._frames := frames;
                    FrameSet._totalLength := Z.of_nat (List.length frames);
                    FrameSet.emitted :=
                      map FrameSet.EvAdd frames
                      ++ if finish then [FrameSet.EvFinalize] else [] |}
       /\ (forall b, b <> 0%nat ->
             Store.frameSets (snd r) !! b = Store.frameSets (@Store.empty nat) !! b)
       /\ Store.readers (snd r)
          = Store.readers (@Store.empty nat)
            ++ [MediaReader.Created "movie.gif"; MediaReader.Destroyed "movie.gif"]
       /\ snd (fst r) = {| Player._state := PlayerState.PLAYING |}.
Proof.
  cbn zeta. split; [reflexivity|].
  apply (PlayerFacts.play_resolves_with_decoded_frames readerOf "movie.gif"
           MediaReader.noOptions Player.constructor Store.empty 0%nat).
  reflexivity.
Defined.

(** ** Controller: a session from play to stop *)

Module PlaybackFacts.
Section WithFrame.

Context {Frame : Type}.
Variable statusText : Display.t Frame -> Store.t Frame -> option Frame -> string.
Variable getMediaReader :
  string -> MediaReader.Options -> outcome (MediaReader.t Frame).
Variable isFile : string -> outcome bool.

Implicit Types (c : Controller.t Frame) (fs : FrameSet.t Frame)
  (d : Display.t Frame).

(** What [Controller.play] has done when its promise resolves. *)
Lemma controller_play_returned filePath options c a c' :
  Controller.play statusText getMediaReader isFile filePath options c
  = (Returned a, c') ->
  exists reader dimension title frames finish,
    getMediaReader filePath (default MediaReader.noOptions options) = Returned reader
    /\ MediaReader.readTitle reader = Returned title
    /\ MediaReader.readDimension reader = Returned dimension
    /\ MediaReader.readFrames reader dimension = (frames, finish, Returned tt)
    /\ Player.stopped (Controller.player c) = true
    /\ Display._frameSet (Controller.display c) = None
    /\ Controller.bound c'
       = Some {| FrameSet._finalized := finish;
                 FrameSet._frames := frames;
                 FrameSet._totalLength := Z.of_nat (List.length frames);
                 FrameSet.emitted := map FrameSet.EvAdd frames
                                     ++ if finish then [FrameSet.EvFinalize] else [] |}
    /\ Display._frameSet (Controller.display c') = Some a
    /\ Controller.player c' = {| Player._state := PlayerState.PLAYING |}
    /\ Display.isRendered (Controller.display c') = true
    /\ Display.frozen (Controller.display c') = false
    /\ Display.intervals (Controller.display c')
       = Display.intervals (Controller.display c)
         ++ [Display.nextInterval (Controller.display c)]
    /\ Display._refreshId (Controller.display c')
       = Some (Display.nextInterval (Controller.display c))
    /\ Display.nextInterval (Controller.display c')
       = S (Display.nextInterval (Controller.display c))
    /\ Display._title (Controller.display c')
       = match title with
         | EmptyString => Display._defaultTitle (Controller.display c)
         | _ => title
         end
    /\ Display._currentFrame (Controller.display c')
       = Display._currentFrame (Controller.display c)
    /\ Display.painted (Controller.display c')
       = Display.painted (Controller.display c)
    /\ Controller.emitted c'
       = Controller.emitted c
         ++ [Controller.EvPlay filePath title (default MediaReader.noOptions options)].
Proof.
  unfold Controller.play.
  destruct (Player.stopped (Controller.player c)) eqn:Hstopped; [|discriminate].
  cbn [negb].
  destruct (isFile filePath) as [[|]|e]; try discriminate.
  unfold Player.getTitle.
  destruct (getMediaReader filePath _) as [reader|e] eqn:Hreader; [|discriminate].
  destruct (MediaReader.readTitle reader) as [title|e] eqn:Htitle; [|discriminate].
  destruct (Player.play getMediaReader filePath _ _ _) as [[[frameSet|e] p'] s'] eqn:Hplay;
    [|discriminate].
  apply PlayerFacts.play_returned in Hplay
    as (reader' & dimension & frames & finish & Hr & Hd & Hf & Ha & Hfs & _ & _ & Hp).
  rewrite Hreader in Hr. injection Hr as <-.
  unfold Display.load.
  cbn [Controller.display Controller.withDisplay Controller.withStore
       Controller.withPlayer Controller.emit Display.render Display.setTitle
       Display._frameSet].
  destruct (Display._frameSet (Controller.display c)) eqn:Hunbound; [discriminate|].
  intros [= <- <-].
  exists reader, dimension, title, frames, finish.
  unfold Controller.bound. cbn. rewrite Hfs.
  repeat split; try assumption. now destruct title.
Qed.

(** X13. What a successful [Controller.play] establishes. When the
    promise of [play] resolves, the controller was stopped with no
    frame set loaded, and now: the frame set bound to the display
    holds exactly the frames the reader emitted, in order, finalized
    exactly when the reader emitted "finish"; the player is PLAYING;
    the display is rendered and not frozen, with one refresh interval
    started; its title is the title read from the medium, or the
    default title when that is empty; and one "play" event was
    emitted, with the path, the title and the options. Nothing was
    painted yet. *)
Theorem play_resolves_ready_to_paint filePath options c a c' :
  Controller.play statusText getMediaReader isFile filePath options c
  = (Returned a, c') ->
  exists reader dimension title frames finish,
    getMediaReader filePath (default MediaReader.noOptions options) = Returned reader
    /\ MediaReader.readTitle reader = Returned title
    /\ MediaReader.readDimension reader = Returned dimension
    /\ MediaReader.readFrames reader dimension = (frames, finish, Returned tt)
    /\ Player.stopped (Controller.player c) = true
    /\ Display._frameSet (Controller.display c) = None
    /\ Controller.bound c'
       = Some {| FrameSet._finalized := finish;
                 FrameSet._frames := frames;
                 FrameSet._totalLength := Z.of_nat (List.length frames);
                 FrameSet.emitted := map FrameSet.EvAdd frames
                                     ++ if finish then [FrameSet.EvFinalize] else [] |}
    /\ Display._frameSet (Controller.display c') = Some a
    /\ Controller.player c' = {| Player._state := PlayerState.PLAYING |}
    /\ Display.isRendered (Controller.display c') = true
    /\ Display.frozen (Controller.display c') = false
    /\ Display.intervals (Controller.display c')
       = Display.intervals (Controller.display c)
         ++ [Display.nextInterval (Controller.display c)]
    /\ Display._refreshId (Controller.display c')
       = Some (Display.nextInterval (Controller.display c))
    /\ Display.nextInterval (Controller.display c')
       = S (Display.nextInterval (Controller.display c))
    /\ Display._title (Controller.display c')
       = match title with
         | EmptyString => Display._defaultTitle (Controller.display c)
         | _ => title
         end
    /\ Display._currentFrame (Controller.display c')
       = Display._currentFrame (Controller.display c)
    /\ Display.painted (Controller.display c')
       = Display.painted (Controller.display c)
    /\ Controller.emitted c'
       = Controller.emitted c
         ++ [Controller.EvPlay filePath title (default MediaReader.noOptions options)].
Proof. apply controller_play_returned. Qed.

(** X14. A play that fails after its "play" event leaves the player
    PLAYING. When the promise of [Controller.play] is rejected after
    the "play" event was emitted (the dimension or the frames could
    not be read, or the display still had a frame set), the player is
    left in the state PLAYING; every further [play] is then rejected
    with "Player must be stopped before playing another file" and
    changes nothing, until [stop] is called. *)
Theorem failed_play_blocks_the_player filePath options c e c' :
  Controller.play statusText getMediaReader isFile filePath options c
  = (Thrown e, c') ->
  Controller.emitted c' <> Controller.emitted c ->
  Player.playing (Controller.player c') = true
  /\ (forall filePath' options',
        Controller.play statusText getMediaReader isFile filePath' options' c'
        = (Thrown "Player must be stopped before playing another file", c'))
  /\ Player.stopped (Controller.player (snd (Controller.stop statusText c'))) = true.
Proof.
  intros Hplay Hemitted.
  assert (Hp : Controller.player c' = {| Player._state := PlayerState.PLAYING |}).
  { revert Hplay. unfold Controller.play.
    destruct (negb (Player.stopped (Controller.player c)));
      [intros [= _ <-]; now destruct Hemitted|].
    destruct (isFile filePath) as [[|]|e0];
      try (intros [= _ <-]; now destruct Hemitted).
    unfold Player.getTitle.
    destruct (getMediaReader filePath _) as [reader|e0] eqn:Hreader;
      [|intros [= _ <-]; now destruct Hemitted].
    destruct (MediaReader.readTitle reader) as [title|e0];
      [|intros [= _ <-]; now destruct Hemitted].
    pose proof (ControllerFacts.player_play_sets_playing getMediaReader filePath
                  (default MediaReader.noOptions options)
                  (Controller.player c)
                  (Store.note (MediaReader.Destroyed filePath)
                     (Store.note (MediaReader.Created filePath) (Controller.store c)))
                  reader Hreader) as Hstate.
    cbn [Controller.display Controller.withDisplay Controller.withStore
         Controller.withPlayer Controller.emit Controller.player Controller.store].
    destruct (Player.play getMediaReader filePath _ _ _) as [[[frameSet|e1] p'] s'];
      cbn [fst snd] in Hstate; subst p'.
    - destruct (Display.load _ _ _ _) as [[[]|e1] d']; intros [= _ <-]; reflexivity.
    - intros [= _ <-]. reflexivity. }
  split; [now rewrite Hp|]. split.
  - intros filePath' options'. unfold Controller.play. now rewrite Hp.
  - apply (ControllerFacts.stop_effect statusText c').
Qed.

(** *** Ticks *)

Lemma ticks_add n m c :
  Controller.ticks statusText (n + m) c
  = Controller.ticks statusText m (Controller.ticks statusText n c).
Proof.
  revert c. induction n as [|n IH]; intros c; [reflexivity|].
  cbn [Nat.add Controller.ticks]. apply IH.
Qed.

Lemma last_cons {A} (l : list A) : forall x z : A,
  List.last (x :: l) z = List.last l x.
Proof.
  induction l as [|y l IH]; intros x z; [reflexivity|].
  change (List.last (x :: y :: l) z) with (List.last (y :: l) z).
  now rewrite !IH.
Qed.

Lemma paints_app (l1 l2 : list Frame) : forall current,
  Display.paints current (l1 ++ l2)
  = Display.paints current l1
    ++ Display.paints (List.last (map Some l1) current) l2.
Proof.
  induction l1 as [|frame l1 IH]; intros current; [reflexivity|].
  cbn [app Display.paints map]. rewrite IH, last_cons. reflexivity.
Qed.

(** A tick on a frozen display does nothing. *)
Lemma frozen_ticks n : forall c,
  Display.frozen (Controller.display c) = true ->
  Controller.ticks statusText n c = c.
Proof.
  induction n as [|n IH]; intros c H; [reflexivity|].
  cbn [Controller.ticks]. unfold Controller.paintNextFrame. rewrite H.
  cbn [snd]. now apply IH.
Qed.

(** The ticks that show frames while more frames are buffered or may
    still come. *)
Lemma ticks_show (shown : list Frame) : forall c a fs left,
  Display.frozen (Controller.display c) = false ->
  Display.isRendered (Controller.display c) = true ->
  Display._frameSet (Controller.display c) = Some a ->
  Store.frameSets (Controller.store c) !! a = Some fs ->
  FrameSet._frames fs = shown ++ left ->
  left <> [] \/ FrameSet._finalized fs = false ->
  let c' := Controller.ticks statusText (List.length shown) c in
  Display.frozen (Controller.display c') = false
  /\ Display.isRendered (Controller.display c') = true
  /\ Display._frameSet (Controller.display c') = Some a
  /\ Store.frameSets (Controller.store c') !! a
     = Some {| FrameSet._finalized := FrameSet._finalized fs;
               FrameSet._frames := left;
               FrameSet._totalLength := FrameSet._totalLength fs;
               FrameSet.emitted := FrameSet.emitted fs ++ map FrameSet.EvNext shown |}
  /\ Display.painted (Controller.display c')
     = Display.painted (Controller.display c)
       ++ Display.paints (Display._currentFrame (Controller.display c)) shown
  /\ Display._currentFrame (Controller.display c')
     = List.last (map Some shown) (Display._currentFrame (Controller.display c))
  /\ Controller.player c' = Controller.player c
  /\ Controller.emitted c' = Controller.emitted c
  /\ Display.intervals (Controller.display c')
     = Display.intervals (Controller.display c)
  /\ Display._refreshId (Controller.display c')
     = Display._refreshId (Controller.display c).
Proof.
  induction shown as [|frame shown IH];
    intros c a fs left Hfrozen Hrendered Ha Hfs Hframes Hmore; cbn zeta.
  - cbn [List.length Controller.ticks map Display.paints List.last].
    rewrite !app_nil_r. repeat split; try assumption.
    rewrite Hfs. destruct fs. cbn in *. now subst.
  - cbn [List.length Controller.ticks].
    rewrite (ControllerFacts.tick_paints statusText c a fs frame (shown ++ left)
               Hfrozen Hrendered Ha Hfs Hframes).
    cbn zeta.
    assert (Hgo : (match shown ++ left with [] => true | _ :: _ => false end
                   && FrameSet._finalized fs) = false).
    { destruct (shown ++ left) eqn:E; [|reflexivity].
      apply app_eq_nil in E as [_ ->].
      destruct Hmore as [Hl|Hf]; [now destruct Hl|now rewrite Hf]. }
    rewrite Hgo. cbn [snd].
    match goal with |- context [Controller.ticks _ _ ?c1] => set (c1' := c1) end.
    destruct (IH c1' a
                {| FrameSet._finalized := FrameSet._finalized fs;
                   FrameSet._frames := shown ++ left;
                   FrameSet._totalLength := FrameSet._totalLength fs;
                   FrameSet.emitted := FrameSet.emitted fs ++ [FrameSet.EvNext frame] |}
                left)
      as (H1 & H2 & H3 & H4 & H5 & H6 & H7 & H8 & H9 & H10);
      try (subst c1'; cbn; assumption).
    + subst c1'. cbn. apply lookup_insert_eq.
    + reflexivity.
    + repeat split; try assumption.
      * rewrite H4. cbn [FrameSet._finalized FrameSet._totalLength FrameSet.emitted map].
        now rewrite <- app_assoc.
      * rewrite H5. subst c1'. cbn. now rewrite <- app_assoc.
      * rewrite H6. subst c1'. cbn [map]. now rewrite last_cons.
Qed.

(** The ticks that show all the frames of a finalized frame set. *)
Lemma ticks_show_all (frames : list Frame) c a fs :
  Display.frozen (Controller.display c) = false ->
  Display.isRendered (Controller.display c) = true ->
  Display._frameSet (Controller.display c) = Some a ->
  Store.frameSets (Controller.store c) !! a = Some fs ->
  FrameSet._frames fs = frames ->
  frames <> [] ->
  FrameSet._finalized fs = true ->
  Player.stopped (Controller.player c) = false ->
  let c' := Controller.ticks statusText (List.length frames) c in
  Display.painted (Controller.display c')
  = Display.painted (Controller.display c)
    ++ Display.paints (Display._currentFrame (Controller.display c)) frames
  /\ Display._currentFrame (Controller.display c')
     = List.last (map Some frames) (Display._currentFrame (Controller.display c))
  /\ Player.stopped (Controller.player c') = true
  /\ Display.frozen (Controller.display c') = true
  /\ Display._frameSet (Controller.display c') = None
  /\ Controller.emitted c' = Controller.emitted c ++ [Controller.EvStop]
  /\ Store.frameSets (Controller.store c') !! a
     = Some {| FrameSet._finalized := true;
               FrameSet._frames := [];
               FrameSet._totalLength := FrameSet._totalLength fs;
               FrameSet.emitted := FrameSet.emitted fs ++ map FrameSet.EvNext frames |}
  /\ forall n, Controller.ticks statusText n c' = c'.
Proof.
  intros Hfrozen Hrendered Ha Hfs Hframes Hne Hfinal Hplaying. cbn zeta.
  destruct (exists_last Hne) as (shown & lastFrame & ->).
  rewrite List.length_app. cbn [List.length]. rewrite ticks_add.
  destruct (ticks_show shown c a fs [lastFrame] Hfrozen Hrendered Ha Hfs Hframes)
    as (H1 & H2 & H3 & H4 & H5 & H6 & H7 & H8 & _); [left; discriminate|].
  set (c1 := Controller.ticks statusText (List.length shown) c) in *.
  cbn [Controller.ticks].
  rewrite (ControllerFacts.tick_paints statusText c1 a _ lastFrame [] H1 H2 H3 H4 eq_refl).
  cbn [FrameSet._finalized FrameSet._totalLength FrameSet.emitted]. rewrite Hfinal.
  cbn [andb snd].
  assert (Hs : Player.stopped (Controller.player c1) = false) by now rewrite H7.
  unfold Controller.stop.
  cbn [Controller.player Controller.withDisplay Controller.withStore
       Controller.withPlayer]. rewrite Hs. cbn [negb snd].
  cbn. unfold Display.setFrozen. cbn.
  destruct (Display._refreshId (Controller.display c1)) as [id|]; cbn.
  all: repeat split;
    try (rewrite H5, paints_app; cbn; now rewrite H6, <- app_assoc);
    try (rewrite List.map_app; cbn [map]; now rewrite List.last_last);
    try (now rewrite H8);
    try (rewrite lookup_insert_eq, List.map_app, <- app_assoc; reflexivity);
    try (intros more; apply frozen_ticks; cbn; unfold Display.setFrozen; cbn;
         now destruct (Display._refreshId (Controller.display c1))).
Qed.

(** X15. Playback shows every frame once, in order, and then stops.
    On a display that is rendered and not frozen, bound to a finalized
    frame set with [n >= 1] buffered frames, and with a player that is
    not stopped: [n] ticks paint the buffered frames in their order,
    each with the frame shown before it as the current frame (the
    first one with the frame the display showed last); after fewer
    ticks the player is as it was and the frames shown are the first
    of them; the last tick stops the controller, so that the player is
    stopped, the display frozen and detached and one "stop" event
    emitted; and no later tick paints anything. *)
Theorem playback_shows_every_frame (frames : list Frame) c a fs :
  Display.frozen (Controller.display c) = false ->
  Display.isRendered (Controller.display c) = true ->
  Display._frameSet (Controller.display c) = Some a ->
  Store.frameSets (Controller.store c) !! a = Some fs ->
  FrameSet._frames fs = frames ->
  frames <> [] ->
  FrameSet._finalized fs = true ->
  Player.stopped (Controller.player c) = false ->
  let c' := Controller.ticks statusText (List.length frames) c in
  Display.painted (Controller.display c')
  = Display.painted (Controller.display c)
    ++ Display.paints (Display._currentFrame (Controller.display c)) frames
  /\ (forall k, (k < List.length frames)%nat ->
        Display.painted (Controller.display (Controller.ticks statusText k c))
        = Display.painted (Controller.display c)
          ++ Display.paints (Display._currentFrame (Controller.display c))
               (firstn k frames)
        /\ Controller.player (Controller.ticks statusText k c) = Controller.player c
        /\ Controller.emitted (Controller.ticks statusText k c) = Controller.emitted c)
  /\ Player.stopped (Controller.player c') = true
  /\ Display.frozen (Controller.display c') = true
  /\ Display._frameSet (Controller.display c') = None
  /\ Controller.emitted c' = Controller.emitted c ++ [Controller.EvStop]
  /\ forall n, Controller.ticks statusText n c' = c'.
Proof.
  intros Hfrozen Hrendered Ha Hfs Hframes Hne Hfinal Hplaying. cbn zeta.
  destruct (ticks_show_all frames c a fs Hfrozen Hrendered Ha Hfs Hframes Hne
              Hfinal Hplaying) as (H1 & _ & H3 & H4 & H5 & H6 & _ & H8).
  repeat split; try assumption;
    destruct (ticks_show (firstn k frames) c a fs (skipn k frames)
                Hfrozen Hrendered Ha Hfs)
      as (_ & _ & _ & _ & K5 & _ & K7 & K8 & _);
    try (now rewrite firstn_skipn);
    try (left; intros E; apply (f_equal (@List.length Frame)) in E;
         rewrite length_skipn in E; cbn in E; lia);
    rewrite length_firstn, Nat.min_l in * by lia; assumption.
Qed.

(** X16. From play to stop. When [Controller.play] resolves for a
    medium whose reader emits the frames [frames], at least one, and
    then "finish", the ticks of the refresh interval paint exactly
    these frames, in order, each against the one before it and the
    first against the frame the display showed last; the tick that
    paints the last one stops the controller. Over the whole session
    the controller emits "play" and then "stop" and nothing else. *)
Theorem play_to_the_end filePath options c a c1 reader dimension frames :
  Controller.play statusText getMediaReader isFile filePath options c
  = (Returned a, c1) ->
  getMediaReader filePath (default MediaReader.noOptions options) = Returned reader ->
  MediaReader.readDimension reader = Returned dimension ->
  MediaReader.readFrames reader dimension = (frames, true, Returned tt) ->
  frames <> [] ->
  let c2 := Controller.ticks statusText (List.length frames) c1 in
  Display.painted (Controller.display c2)
  = Display.painted (Controller.display c)
    ++ Display.paints (Display._currentFrame (Controller.display c)) frames
  /\ Player.stopped (Controller.player c2) = true
  /\ Display.frozen (Controller.display c2) = true
  /\ Controller.bound c2 = None
  /\ (exists title,
        MediaReader.readTitle reader = Returned title
        /\ Controller.emitted c2
           = Controller.emitted c
             ++ [Controller.EvPlay filePath title
                   (default MediaReader.noOptions options);
                 Controller.EvStop])
  /\ forall n, Controller.ticks statusText n c2 = c2.
Proof.
  intros Hplay Hreader Hdimension Hframes Hne. cbn zeta.
  destruct (controller_play_returned _ _ _ _ _ Hplay)
    as (reader' & dimension' & title & frames' & finish & Hr & Ht & Hd & Hf & _ & _
        & Hbound & Ha & Hp & Hrendered & Hfrozen & _ & _ & _ & _ & Hcurrent
        & Hpainted & Hemitted).
  rewrite Hreader in Hr. injection Hr as <-.
  rewrite Hdimension in Hd. injection Hd as <-.
  rewrite Hframes in Hf. injection Hf as <- <-.
  unfold Controller.bound in Hbound. rewrite Ha in Hbound.
  destruct (ticks_show_all frames c1 a _ Hfrozen Hrendered Ha Hbound eq_refl Hne eq_refl)
    as (H1 & _ & H3 & H4 & H5 & H6 & _ & H8); [now rewrite Hp|].
  rewrite H1, Hpainted, Hcurrent, H6, Hemitted, <- app_assoc.
  repeat split; try assumption.
  - unfold Controller.bound. now rewrite H5.
  - exists title. auto.
Qed.

(** *** Pause and resume *)

(** X17. Pausing holds the playback and resuming continues it. On a
    controller whose player is PLAYING, [pause] returns [true], and
    while paused no tick paints or consumes anything; [resume] then
    returns [true] and the player is PLAYING again with the same frame
    set bound and the same frames buffered, nothing painted in
    between, and the display not frozen. The two calls emit "pause"
    and "resume". On a controller that is not playing, [pause] returns
    [false] and changes nothing, and so does [resume] on one that is
    not paused. *)
Theorem pause_then_resume_continues c (n : nat) :
  (Player.playing (Controller.player c) = true ->
   let paused := snd (Controller.pause c) in
   let idle := Controller.ticks statusText n paused in
   let resumed := snd (Controller.resume idle) in
   fst (Controller.pause c) = true
   /\ Player.paused (Controller.player paused) = true
   /\ idle = paused
   /\ fst (Controller.resume idle) = true
   /\ Controller.player resumed = Controller.player c
   /\ Controller.store resumed = Controller.store c
   /\ Display._frameSet (Controller.display resumed)
      = Display._frameSet (Controller.display c)
   /\ Display.painted (Controller.display resumed)
      = Display.painted (Controller.display c)
   /\ Display._currentFrame (Controller.display resumed)
      = Display._currentFrame (Controller.display c)
   /\ Display.frozen (Controller.display resumed) = false
   /\ Controller.emitted resumed
      = Controller.emitted c ++ [Controller.EvPause; Controller.EvResume])
  /\ (Player.playing (Controller.player c) = false ->
      Controller.pause c = (false, c))
  /\ (Player.paused (Controller.player c) = false ->
      Controller.resume c = (false, c)).
Proof.
  split; [|split].
  - intros Hplaying. cbn zeta.
    assert (Hp : Controller.player c = {| Player._state := PlayerState.PLAYING |}).
    { destruct (Controller.player c) as [[]]; try discriminate Hplaying. reflexivity. }
    assert (Hpause : Controller.pause c
                     = (true,
                        Controller.emit Controller.EvPause
                          (Controller.withDisplay
                             (Display.setFrozen true (Controller.display c))
                             (Controller.withPlayer
                                {| Player._state := PlayerState.PAUSED |} c)))).
    { unfold Controller.pause. rewrite Hplaying. reflexivity. }
    rewrite Hpause. cbn [fst snd].
    rewrite frozen_ticks
      by (cbn; unfold Display.setFrozen; cbn;
          now destruct (Display._refreshId (Controller.display c))).
    unfold Controller.resume. cbn. rewrite Hp.
    repeat split; try reflexivity;
      unfold Display.setFrozen; cbn;
      destruct (Display._refreshId (Controller.display c)); cbn;
      try reflexivity; now rewrite <- app_assoc.
  - intros H. unfold Controller.pause. now rewrite H.
  - intros H. unfold Controller.resume. now rewrite H.
Qed.

End WithFrame.
End PlaybackFacts.

(** ** Display and Controller: the refresh interval *)

Module TimerFacts.
Section WithFrame.

Context {Frame : Type}.
Variable statusText : Display.t Frame -> Store.t Frame -> option Frame -> string.
Variable getMediaReader :
  string -> MediaReader.Options -> outcome (MediaReader.t Frame).
Variable isFile : string -> outcome bool.

Implicit Types (c : Controller.t Frame) (d : Display.t Frame).

(** X18. Unfreezing a display that is not frozen loses an interval.
    Setting [frozen = false] twice in a row starts two intervals and
    remembers only the second: whatever values [frozen] is set to
    afterwards, the first interval is never cleared and keeps calling
    [_paintNextFrame]. *)
Theorem unfreezing_twice_leaks d (later : list bool) :
  let id := Display.nextInterval d in
  let twice := Display.setFrozen false (Display.setFrozen false d) in
  let d' := fold_left (fun d frozen => Display.setFrozen frozen d) later twice in
  In id (Display.intervals d') /\ Display._refreshId d' <> Some id.
Proof.
  cbn zeta.
  assert (H : forall later d0,
             In (Display.nextInterval d) (Display.intervals d0)
             /\ Display._refreshId d0 <> Some (Display.nextInterval d)
             /\ (Display.nextInterval d < Display.nextInterval d0)%nat ->
             let d' := fold_left (fun d frozen => Display.setFrozen frozen d) later d0 in
             In (Display.nextInterval d) (Display.intervals d')
             /\ Display._refreshId d' <> Some (Display.nextInterval d)).
  { clear later. induction later as [|frozen later IH]; intros d0 (Hin & Hid & Hlt);
      cbn zeta; [auto|].
    cbn [fold_left]. apply IH. unfold Display.setFrozen.
    destruct frozen; cbn [negb].
    - destruct (Display._refreshId d0) as [id0|] eqn:E; cbn.
      + repeat split; [|discriminate|exact Hlt].
        apply filter_In. split; [exact Hin|].
        apply negb_true_iff, Nat.eqb_neq. congruence.
      + repeat split; [exact Hin|discriminate|exact Hlt].
    - cbn. repeat split.
      + apply in_or_app. now left.
      + intros [= E]. lia.
      + lia. }
  apply H. cbn. repeat split.
  - apply in_or_app. left. apply in_or_app. right. now left.
  - intros [= E]. lia.
  - lia.
Qed.

(** *** Through the controller *)

Lemma oneTimer_same d d' :
  Display._frozen d' = Display._frozen d ->
  Display.intervals d' = Display.intervals d ->
  Display._refreshId d' = Display._refreshId d ->
  Display.nextInterval d' = Display.nextInterval d ->
  Controller.oneTimer d -> Controller.oneTimer d'.
Proof.
  unfold Controller.oneTimer, Display.frozen. now intros -> -> -> ->.
Qed.

Lemma oneTimer_freeze d :
  Controller.oneTimer d -> Controller.oneTimer (Display.setFrozen true d).
Proof.
  unfold Controller.oneTimer, Display.setFrozen, Display.frozen. cbn [negb].
  destruct (Display._frozen d).
  - intros [Hi ->]. cbn. auto.
  - intros (id & Hi & -> & _). cbn. rewrite Hi. cbn.
    now rewrite Nat.eqb_refl.
Qed.

Lemma oneTimer_unfreeze d :
  Display.frozen d = true ->
  Controller.oneTimer d -> Controller.oneTimer (Display.setFrozen false d).
Proof.
  unfold Controller.oneTimer, Display.setFrozen, Display.frozen. cbn [negb].
  intros ->. intros [Hi _]. cbn. rewrite Hi.
  exists (Display.nextInterval d). cbn. repeat split. lia.
Qed.

Lemma oneTimer_unload s d :
  Controller.oneTimer d ->
  Controller.oneTimer (Display.unload statusText s d)
  /\ Display.frozen (Display.unload statusText s d) = true.
Proof.
  intros H. split.
  - apply (oneTimer_same (Display.setFrozen true d)); try reflexivity.
    now apply oneTimer_freeze.
  - unfold Display.unload, Display.setFrozen. cbn.
    now destruct (Display._refreshId d).
Qed.

Lemma oneTimer_stop c :
  Controller.oneTimer (Controller.display c) ->
  Controller.oneTimer (Controller.display (snd (Controller.stop statusText c)))
  /\ Display.frozen (Controller.display (snd (Controller.stop statusText c))) = true.
Proof.
  intros H. unfold Controller.stop.
  destruct (negb (Player.stopped (Controller.player c))); cbn [snd];
    cbn [Controller.emit Controller.withDisplay Controller.withPlayer
         Controller.display Controller.store];
    now apply oneTimer_unload.
Qed.

(** What a tick can do: nothing, fail in [next], or show a frame and
    then possibly stop. *)
Lemma tick_cases c :
  snd (Controller.paintNextFrame statusText c) = c
  \/ (exists s, snd (Controller.paintNextFrame statusText c)
                = Controller.withStore s c)
  \/ exists frame s,
       let c1 := Controller.withDisplay
                   (Display.show statusText frame s (Controller.display c))
                   (Controller.withStore s c) in
       snd (Controller.paintNextFrame statusText c) = c1
       \/ snd (Controller.paintNextFrame statusText c)
          = snd (Controller.stop statusText c1).
Proof.
  unfold Controller.paintNextFrame.
  destruct (Display.frozen (Controller.display c)); [now left|].
  destruct (negb (Display.isRendered (Controller.display c))); [now left|].
  destruct (Display._frameSet (Controller.display c)) as [a|]; [|now left].
  destruct (Store.frameSets (Controller.store c) !! a) as [fs|] eqn:Efs; [|now left].
  destruct (negb (FrameSet.hasNext fs)); [now left|].
  destruct (Store.onFrameSet a FrameSet.next (Controller.store c)) as [[frame|e] s];
    [|right; left; now exists s].
  right. right. exists frame, s. cbn zeta.
  cbn [Controller.withStore Controller.display Controller.player
       Controller.store Controller.withDisplay].
  destruct (Store.frameSets s !! a); [|now left].
  destruct (_ && _); [now right|now left].
Qed.

Ltac kept :=
  solve [cbn [snd Controller.withStore Controller.display Controller.player];
         split; auto].

(** What the commands, the ticks and the decoder keep: the display has
    its one interval exactly when it is not frozen, and it is frozen
    whenever the player is not PLAYING. *)
Lemma act_timer a c :
  Controller.oneTimer (Controller.display c)
  /\ (Player.playing (Controller.player c) = false ->
      Display.frozen (Controller.display c) = true) ->
  let c' := Controller.act statusText getMediaReader isFile a c in
  Controller.oneTimer (Controller.display c')
  /\ (Player.playing (Controller.player c') = false ->
      Display.frozen (Controller.display c') = true).
Proof.
  intros [Ht Hp]. cbn zeta.
  destruct a as [| | | |filePath options| |frameSet frame|frameSet];
    cbn [Controller.act].
  - (* help *) cbn. split; [|exact Hp].
    now apply (oneTimer_same (Controller.display c)).
  - (* pause *) unfold Controller.pause.
    destruct (Player.playing (Controller.player c)) eqn:E; cbn [negb snd];
      [|kept].
    cbn. split; [now apply oneTimer_freeze|].
    intros _. unfold Display.setFrozen. cbn.
    now destruct (Display._refreshId (Controller.display c)).
  - (* resume *) unfold Controller.resume.
    destruct (Player.paused (Controller.player c)) eqn:E; cbn [negb snd];
      [|kept].
    cbn. split; [|discriminate].
    apply oneTimer_unfreeze; [|exact Ht].
    apply Hp. destruct (Controller.player c) as [[]]; try discriminate E. reflexivity.
  - (* stop *) destruct (oneTimer_stop c Ht) as [H1 H2]. split; [exact H1|now intros _].
  - (* play *) unfold Controller.play.
    destruct (Player.stopped (Controller.player c)) eqn:Es; cbn [negb snd];
      [|kept].
    assert (Hf : Display.frozen (Controller.display c) = true).
    { apply Hp. destruct (Controller.player c) as [[]]; try discriminate Es.
      reflexivity. }
    destruct (isFile filePath) as [[|]|e]; try kept.
    unfold Player.getTitle.
    destruct (getMediaReader filePath _) as [reader|e] eqn:Hreader; [|kept].
    destruct (MediaReader.readTitle reader) as [title|e]; [|kept].
    pose proof (ControllerFacts.player_play_sets_playing getMediaReader filePath
                  (default MediaReader.noOptions options)
                  (Controller.player c)
                  (Store.note (MediaReader.Destroyed filePath)
                     (Store.note (MediaReader.Created filePath) (Controller.store c)))
                  reader Hreader) as Hstate.
    cbn [Controller.display Controller.withDisplay Controller.withStore
         Controller.withPlayer Controller.emit Controller.player Controller.store].
    destruct (Player.play getMediaReader filePath _ _ _) as [[[frameSet|e1] p'] s'];
      cbn [fst snd] in Hstate; subst p'.
    + unfold Display.load. cbn [Display._frameSet Display.render Display.setTitle].
      destruct (Display._frameSet (Controller.display c)); cbn [snd Controller.display
        Controller.withDisplay Controller.player Controller.withStore
        Controller.withPlayer].
      * split; [|discriminate].
        now apply (oneTimer_same (Controller.display c)).
      * split; [|discriminate].
        match goal with |- Controller.oneTimer ?x =>
          apply (oneTimer_same (Display.setFrozen false (Controller.display c)) x)
        end; try reflexivity.
        now apply oneTimer_unfreeze.
    + cbn. split; [|discriminate].
      now apply (oneTimer_same (Controller.display c)).
  - (* tick *)
    destruct (tick_cases c) as [-> | [(s & ->) | (frame & s & [-> | ->])]];
      try kept;
      try (split; [now apply (oneTimer_same (Controller.display c))|exact Hp]).
    match goal with
    | |- context [Controller.stop statusText ?x] => set (c1 := x)
    end.
    assert (H1 : Controller.oneTimer (Controller.display c1))
      by now apply (oneTimer_same (Controller.display c)).
    destruct (oneTimer_stop c1 H1) as [K1 K2]. split; [exact K1|now intros _].
  - (* a frame was decoded *) cbn. kept.
  - (* the decoder finished *) cbn. kept.
Qed.

(** X19. One refresh interval, and only while playing. On a
    controller built from a new display and a new player, after any
    sequence of commands, ticks and decoder events, each run to its
    end: the display has exactly one refresh interval running when it
    is not frozen and none when it is frozen, and it is frozen
    whenever the player is not PLAYING. *)
Theorem one_interval_while_playing (actions : list (Controller.action Frame))
  (name : string) (refreshRate : option Z) (status title : option string) :
  let c := Controller.runAll statusText getMediaReader isFile actions
             (Controller.constructor
                (Display.constructor name refreshRate status title)
                Player.constructor) in
  Controller.oneTimer (Controller.display c)
  /\ (Player.playing (Controller.player c) = false ->
      Display.frozen (Controller.display c) = true).
Proof.
  cbn zeta. unfold Controller.runAll.
  set (Inv := fun c : Controller.t Frame =>
                Controller.oneTimer (Controller.display c)
                /\ (Player.playing (Controller.player c) = false ->
                    Display.frozen (Controller.display c) = true)).
  assert (H : forall actions c, Inv c ->
                Inv (fold_left
                       (fun c a => Controller.act statusText getMediaReader isFile a c)
                       actions c)).
  { clear actions. induction actions as [|a actions IH]; intros c Hc; [exact Hc|].
    cbn [fold_left]. apply IH. now apply act_timer. }
  apply H. split; [|reflexivity]. cbn. auto.
Qed.

(** X20. Only a tick paints. No command and no decoder event paints a
    frame or changes the frame the display holds as the current one:
    [play] paints nothing itself, and [stop] does not forget the frame
    shown last, which is therefore the current frame passed to [paint]
    for the first frame of the next medium. *)
Theorem only_ticks_paint (actions : list (Controller.action Frame)) c :
  forallb (fun a => negb (Controller.isTick a)) actions = true ->
  let c' := Controller.runAll statusText getMediaReader isFile actions c in
  Display.painted (Controller.display c') = Display.painted (Controller.display c)
  /\ Display._currentFrame (Controller.display c')
     = Display._currentFrame (Controller.display c).
Proof.
  cbn zeta. unfold Controller.runAll. revert c.
  induction actions as [|a actions IH]; intros c Hall; [(split; reflexivity)|].
  cbn [forallb] in Hall. apply andb_prop in Hall as [Ha Hall].
  cbn [fold_left]. destruct (IH (Controller.act statusText getMediaReader isFile a c) Hall)
    as [-> ->].
  clear IH Hall.
  destruct a as [| | | |filePath options| |frameSet frame|frameSet];
    try discriminate Ha; clear Ha; cbn [Controller.act].
  - (split; reflexivity).
  - unfold Controller.pause. destruct (negb _); [(split; reflexivity)|].
    cbn. unfold Display.setFrozen. cbn.
    destruct (Display._refreshId (Controller.display c)); split; reflexivity.
  - unfold Controller.resume. destruct (negb _); (split; reflexivity).
  - unfold Controller.stop. destruct (negb _); cbn; unfold Display.setFrozen; cbn;
      destruct (Display._refreshId (Controller.display c)); split; reflexivity.
  - unfold Controller.play.
    destruct (negb _); [(split; reflexivity)|].
    destruct (isFile filePath) as [[|]|e]; try ((split; reflexivity)).
    destruct (Player.getTitle _ _ _ _) as [[title|e] s]; [|(split; reflexivity)].
    cbn [Controller.display Controller.withDisplay Controller.withStore
         Controller.withPlayer Controller.emit Controller.player Controller.store].
    destruct (Player.play _ _ _ _ _) as [[[frameSet|e1] p'] s']; [|(split; reflexivity)].
    unfold Display.load. cbn [Display._frameSet Display.render Display.setTitle].
    destruct (Display._frameSet (Controller.display c)); (split; reflexivity).
  - (split; reflexivity).
  - (split; reflexivity).
Qed.

(** X21. Resuming after a failed play makes the refresh interval
    throw. When [Controller.play] is rejected after its "play" event
    on a display that was rendered before and has no frame set, the
    player is left PLAYING with nothing to play: [pause] and then
    [resume] both return [true], [resume] starts the refresh interval,
    and its tick calls [hasNext] on the missing frame set and throws a
    TypeError. *)
Theorem resume_after_failed_play_throws filePath options c e c' :
  Controller.play statusText getMediaReader isFile filePath options c
  = (Thrown e, c') ->
  Controller.emitted c' <> Controller.emitted c ->
  Display.isRendered (Controller.display c) = true ->
  Display._frameSet (Controller.display c) = None ->
  let paused := snd (Controller.pause c') in
  let resumed := snd (Controller.resume paused) in
  fst (Controller.pause c') = true
  /\ fst (Controller.resume paused) = true
  /\ Display.frozen (Controller.display resumed) = false
  /\ Display.intervals (Controller.display resumed)
     = Display.intervals (Controller.display paused)
       ++ [Display.nextInterval (Controller.display paused)]
  /\ fst (Controller.paintNextFrame statusText resumed) = Thrown "TypeError".
Proof.
  intros Hplay Hemitted Hrendered Hunbound.
  assert (H : Controller.player c' = {| Player._state := PlayerState.PLAYING |}
              /\ Display.isRendered (Controller.display c') = true
              /\ Display._frameSet (Controller.display c') = None).
  { revert Hplay. unfold Controller.play.
    destruct (negb (Player.stopped (Controller.player c)));
      [intros [= _ <-]; now destruct Hemitted|].
    destruct (isFile filePath) as [[|]|e0];
      try (intros [= _ <-]; now destruct Hemitted).
    unfold Player.getTitle.
    destruct (getMediaReader filePath _) as [reader|e0] eqn:Hreader;
      [|intros [= _ <-]; now destruct Hemitted].
    destruct (MediaReader.readTitle reader) as [title|e0];
      [|intros [= _ <-]; now destruct Hemitted].
    pose proof (ControllerFacts.player_play_sets_playing getMediaReader filePath
                  (default MediaReader.noOptions options)
                  (Controller.player c)
                  (Store.note (MediaReader.Destroyed filePath)
                     (Store.note (MediaReader.Created filePath) (Controller.store c)))
                  reader Hreader) as Hstate.
    cbn [Controller.display Controller.withDisplay Controller.withStore
         Controller.withPlayer Controller.emit Controller.player Controller.store].
    destruct (Player.play getMediaReader filePath _ _ _) as [[[frameSet|e1] p'] s'];
      cbn [fst snd] in Hstate; subst p'.
    - unfold Display.load. cbn [Display._frameSet Display.render Display.setTitle].
      rewrite Hunbound. discriminate.
    - intros [= _ <-]. cbn. auto. }
  destruct H as (Hp & Hr & Hu). cbn zeta.
  unfold Controller.pause. rewrite Hp. cbn [Player.playing PlayerState.eqb
    Player._state negb fst snd].
  unfold Controller.resume. cbn. repeat split.
  unfold Controller.paintNextFrame. cbn.
  unfold Display.isRendered in Hr. rewrite Hr.
  unfold Display.setFrozen. cbn.
  destruct (Display._refreshId (Controller.display c')); cbn; now rewrite Hu.
Qed.

End WithFrame.
End TimerFacts.

(** Playing the medium of two frames on the idle controller. *)
Lemma play_resolves_ready_to_paint_witness :
  Controller.play plainStatus readerOf anyFile "movie.gif" None idle
  = (Returned 0%nat, playingTwo)
  /\ Display.frozen (Controller.display playingTwo) = false
  /\ Controller.emitted playingTwo
     = [Controller.EvPlay "movie.gif" "movie" MediaReader.noOptions].
Proof.
  split; [reflexivity|].
  destruct (PlaybackFacts.play_resolves_ready_to_paint plainStatus readerOf anyFile
              "movie.gif" None idle 0%nat playingTwo eq_refl)
    as (reader & dimension & title & frames & finish & _ & _ & _ & _ & _ & _ & _ & _
        & _ & _ & Hfrozen & _).
  split; [exact Hfrozen|reflexivity].
Defined.

(** Playing a medium whose dimension cannot be read. *)
Lemma failed_play_blocks_the_player_witness :
  let r := Controller.play plainStatus brokenReaderOf anyFile "broken.gif" None idle in
  fst r = Thrown "Invalid data found"
  /\ Controller.emitted (snd r) <> Controller.emitted idle
  /\ Player.playing (Controller.player (snd r)) = true
  /\ Controller.play plainStatus brokenReaderOf anyFile "movie.gif" None (snd r)
     = (Thrown "Player must be stopped before playing another file", snd r).
Proof.
  cbn zeta. split; [reflexivity|]. split; [discriminate|].
  destruct (PlaybackFacts.failed_play_blocks_the_player plainStatus brokenReaderOf
              anyFile "broken.gif" None idle "Invalid data found"
              (snd (Controller.play plainStatus brokenReaderOf anyFile
                      "broken.gif" None idle)))
    as (Hplaying & Hblocked & _); [reflexivity|discriminate|].
  split; [exact Hplaying|apply Hblocked].
Defined.

(** The two frames of the medium are painted by two ticks. *)
Lemma playback_shows_every_frame_witness :
  Display.painted (Controller.display (Controller.ticks plainStatus 2 playingTwo))
  = [(10%nat, None); (11%nat, Some 10%nat)]
  /\ Player.stopped
       (Controller.player (Controller.ticks plainStatus 2 playingTwo)) = true.
Proof.
  destruct (PlaybackFacts.playback_shows_every_frame plainStatus [10%nat; 11%nat]
              playingTwo 0%nat
              {| FrameSet._finalized := true;
                 FrameSet._frames := [10%nat; 11%nat];
                 FrameSet._totalLength := 2;
                 FrameSet.emitted := [FrameSet.EvAdd 10%nat; FrameSet.EvAdd 11%nat;
                                      FrameSet.EvFinalize] |})
    as (Hpainted & _ & Hstopped & _);
    try reflexivity; try discriminate.
  split; [exact Hpainted|exact Hstopped].
Defined.

Lemma play_to_the_end_witness :
  Display.painted (Controller.display (Controller.ticks plainStatus 2 playingTwo))
  = Display.painted (Controller.display idle)
    ++ Display.paints (Display._currentFrame (Controller.display idle))
         [10%nat; 11%nat]
  /\ Controller.bound (Controller.ticks plainStatus 2 playingTwo) = None.
Proof.
  destruct (PlaybackFacts.play_to_the_end plainStatus readerOf anyFile "movie.gif" None
              idle 0%nat playingTwo twoFrameReader (Dimension.constructor 2 2)
              [10%nat; 11%nat])
    as (Hpainted & _ & _ & Hbound & _);
    try reflexivity; try discriminate.
  split; [exact Hpainted|exact Hbound].
Defined.

(** Pausing the playback of the two frames, three ticks, resuming. *)
Lemma pause_then_resume_continues_witness :
  Player.playing (Controller.player playingTwo) = true
  /\ Controller.store
       (snd (Controller.resume
               (Controller.ticks plainStatus 3 (snd (Controller.pause playingTwo)))))
     = Controller.store playingTwo.
Proof.
  split; [reflexivity|].
  destruct (proj1 (PlaybackFacts.pause_then_resume_continues plainStatus playingTwo 3)
              eq_refl)
    as (_ & _ & _ & _ & _ & Hstore & _).
  exact Hstore.
Defined.

Lemma one_interval_while_playing_witness :
  Controller.oneTimer
    (Controller.display
       (Controller.runAll plainStatus readerOf anyFile
          [Controller.Play "movie.gif" None; Controller.Pause; Controller.Resume;
           Controller.Tick]
          idle)).
Proof.
  exact (proj1 (TimerFacts.one_interval_while_playing plainStatus readerOf anyFile
                  [Controller.Play "movie.gif" None; Controller.Pause;
                   Controller.Resume; Controller.Tick]
                  "term-player" None None None)).
Defined.

(** Stopping and playing again after the two frames were shown: the
    frame 11 is still the current frame. *)
Lemma only_ticks_paint_witness :
  Display._currentFrame
    (Controller.display
       (Controller.runAll plainStatus brokenReaderOf anyFile
          [Controller.Stop; Controller.Play "movie.gif" None] playedTwo))
  = Some 11%nat.
Proof.
  destruct (TimerFacts.only_ticks_paint plainStatus brokenReaderOf anyFile
              [Controller.Stop; Controller.Play "movie.gif" None] playedTwo eq_refl)
    as [_ Hcurrent].
  rewrite Hcurrent. reflexivity.
Defined.

(** After the two frames were shown, a medium that cannot be read is
    played, and the player paused and resumed. *)
Lemma resume_after_failed_play_throws_witness :
  let failed :=
    snd (Controller.play plainStatus brokenReaderOf anyFile "broken.gif" None playedTwo) in
  Display.isRendered (Controller.display playedTwo) = true
  /\ Display._frameSet (Controller.display playedTwo) = None
  /\ fst (Controller.paintNextFrame plainStatus
            (snd (Controller.resume (snd (Controller.pause failed)))))
     = Thrown "TypeError".
Proof.
  cbn zeta. split; [reflexivity|]. split; [reflexivity|].
  destruct (TimerFacts.resume_after_failed_play_throws plainStatus brokenReaderOf
              anyFile "broken.gif" None playedTwo "Invalid data found"
              (snd (Controller.play plainStatus brokenReaderOf anyFile
                      "broken.gif" None playedTwo)))
    as (_ & _ & _ & _ & Hthrows);
    [reflexivity|vm_compute; discriminate|reflexivity|reflexivity|exact Hthrows].
Defined.

(** ** Numbers: the double nearest to a rational *)

Module RoundingFacts.

Local Open Scope Q_scope.

(** *** Powers of two *)

Lemma two_nonzero : ~ 2 == 0.
Proof. intros H. discriminate H. Qed.

Lemma pow2_pos e : 0 < Num.pow2 e.
Proof. apply Qpower_0_lt. reflexivity. Qed.

Lemma pow2_add a b : Num.pow2 (a + b) == Num.pow2 a * Num.pow2 b.
Proof. apply Qpower_plus, two_nonzero. Qed.

Lemma pow2_opp a : Num.pow2 (- a) == / Num.pow2 a.
Proof. apply Qpower_opp. Qed.

Lemma pow2_Z e : (0 <= e)%Z -> Num.pow2 e == inject_Z (2 ^ e).
Proof. intros H. symmetry. apply (Zpower_Qpower 2 e H). Qed.

Lemma pow2_le a b : (a <= b)%Z -> Num.pow2 a <= Num.pow2 b.
Proof. intros H. apply Qpower_le_compat_l; [exact H|]. discriminate. Qed.

Lemma pow2_lt_inv a b : Num.pow2 a < Num.pow2 b -> (a < b)%Z.
Proof. intros H. apply (Qpower_lt_compat_l_inv 2); [exact H|reflexivity]. Qed.

Lemma Zpow2_pos e : (0 <= e)%Z -> 0 < inject_Z (2 ^ e).
Proof. intros H. rewrite <- pow2_Z by exact H. apply pow2_pos. Qed.


(** *** The binary logarithm: [2^ilog2(x) <= x < 2^(ilog2(x) + 1)] *)

Lemma ilog2_lower x : 0 < x -> Num.pow2 (Num.ilog2 x) <= x.
Proof.
  intros Hx. unfold Num.ilog2.
  destruct (Qle_bool _ x) eqn:E; [now apply Qle_bool_iff|]. clear E.
  destruct x as [n d]. cbn [Qnum Qden].
  assert (Hn : (0 < n)%Z) by (unfold Qlt in Hx; cbn in Hx; lia).
  pose proof (Z.log2_spec n Hn) as [Hn1 _].
  pose proof (Z.log2_spec (Zpos d) eq_refl) as [_ Hd2].
  pose proof (Z.log2_nonneg n) as Ha. pose proof (Z.log2_nonneg (Zpos d)) as Hb.
  set (a := Z.log2 n) in *. set (b := Z.log2 (Zpos d)) in *.
  replace (a - b - 1)%Z with (a + - Z.succ b)%Z by lia.
  rewrite pow2_add, pow2_opp, !pow2_Z by lia.
  rewrite (Qmake_Qdiv n d).
  rewrite Zle_Qle in Hn1. rewrite Zlt_Qlt in Hd2.
  pose proof (Zpow2_pos a Ha) as Hpa. pose proof (Zpow2_pos (Z.succ b) ltac:(lia)) as Hpb.
  assert (Hd : 0 < inject_Z (Zpos d)) by reflexivity.
  apply Qle_shift_div_l; [exact Hd|].
  unfold Qdiv. 
  assert (E : inject_Z (2 ^ a) * / inject_Z (2 ^ Z.succ b) * inject_Z (Z.pos d)
              == inject_Z (2 ^ a) * inject_Z (Z.pos d) / inject_Z (2 ^ Z.succ b))
    by (field; lra).
  rewrite E.
  apply Qle_shift_div_r; [exact Hpb|]. nra.
Qed.

Lemma ilog2_upper x : 0 < x -> x < Num.pow2 (Num.ilog2 x + 1).
Proof.
  intros Hx. unfold Num.ilog2.
  destruct (Qle_bool _ x) eqn:E.
  - clear E. destruct x as [n d]. cbn [Qnum Qden].
    assert (Hn : (0 < n)%Z) by (unfold Qlt in Hx; cbn in Hx; lia).
    pose proof (Z.log2_spec n Hn) as [_ Hn2].
    pose proof (Z.log2_spec (Zpos d) eq_refl) as [Hd1 _].
    pose proof (Z.log2_nonneg n) as Ha. pose proof (Z.log2_nonneg (Zpos d)) as Hb.
    set (a := Z.log2 n) in *. set (b := Z.log2 (Zpos d)) in *.
    replace (a - b + 1)%Z with (Z.succ a + - b)%Z by lia.
    rewrite pow2_add, pow2_opp, !pow2_Z by lia.
    rewrite (Qmake_Qdiv n d).
    rewrite Zlt_Qlt in Hn2. rewrite Zle_Qle in Hd1.
    pose proof (Zpow2_pos (Z.succ a) ltac:(lia)) as Hpa. pose proof (Zpow2_pos b Hb) as Hpb.
    assert (Hd : 0 < inject_Z (Zpos d)) by reflexivity.
    apply Qlt_shift_div_r; [exact Hd|].
    assert (E : inject_Z (2 ^ Z.succ a) * / inject_Z (2 ^ b) * inject_Z (Z.pos d)
                == inject_Z (2 ^ Z.succ a) * inject_Z (Z.pos d) / inject_Z (2 ^ b))
      by (field; lra).
    rewrite E.
    apply Qlt_shift_div_l; [exact Hpb|]. nra.
  - replace (Z.log2 (Qnum x) - Z.log2 (Z.pos (Qden x)) - 1 + 1)%Z
      with (Z.log2 (Qnum x) - Z.log2 (Z.pos (Qden x)))%Z by lia.
    apply Qnot_le_lt. intros H. apply Qle_bool_iff in H. congruence.
Qed.

(** *** Rounding keeps a number between two numbers it can hold *)

(** Rounding to an integer does not pass an integer. *)
Lemma nearestEven_between a b y :
  inject_Z a <= y -> y <= inject_Z b -> (a <= Num.nearestEven y <= b)%Z.
Proof.
  intros Ha Hb. unfold Num.nearestEven.
  pose proof (Qfloor_le y) as Hf.
  assert (Hfa : (a <= Qfloor y)%Z)
    by (rewrite <- (Qfloor_Z a); now apply Qfloor_resp_le).
  assert (Hfb : (Qfloor y <= b)%Z)
    by (rewrite <- (Qfloor_Z b); now apply Qfloor_resp_le).
  assert (Hup : 0 < y - inject_Z (Qfloor y) -> (Qfloor y < b)%Z).
  { intros Hpos. destruct (Z.eq_dec (Qfloor y) b) as [E|E]; [|lia].
    rewrite <- E in Hb. lra. }
  destruct (Qcompare_spec (y - inject_Z (Qfloor y)) (1 # 2)) as [E|E|E].
  - assert ((Qfloor y < b)%Z) by (apply Hup; rewrite E; reflexivity).
    destruct (Z.even _); lia.
  - lia.
  - assert ((Qfloor y < b)%Z) by (apply Hup; lra). lia.
Qed.

(** A rational below [2^(53 - k)] between two multiples of [2^-k]:
    these are doubles, and the double nearest to the rational lies
    between them. *)
Lemma roundPositive_between x k a b :
  0 < x -> (0 <= k <= 1074)%Z -> x < Num.pow2 (53 - k) ->
  inject_Z a <= x * Num.pow2 k -> x * Num.pow2 k <= inject_Z b ->
  exists r, Num.roundPositive x = Num.Fin r
            /\ inject_Z a <= r * Num.pow2 k /\ r * Num.pow2 k <= inject_Z b.
Proof.
  intros Hx Hk Hlt Ha Hb. unfold Num.roundPositive.
  set (e := Z.max (Num.ilog2 x - 52) (-1074)).
  assert (He : (e <= - k)%Z).
  { assert ((Num.ilog2 x < 53 - k)%Z).
    { apply pow2_lt_inv. eapply Qle_lt_trans; [apply ilog2_lower, Hx|exact Hlt]. }
    lia. }
  set (g := (- k - e)%Z).
  pose proof (pow2_pos e) as Hpe. pose proof (pow2_pos k) as Hpk.
  pose proof (Zpow2_pos g ltac:(lia)) as Hpg.
  assert (Hg : Num.pow2 k * inject_Z (2 ^ g) * Num.pow2 e == 1).
  { rewrite <- pow2_Z by lia. rewrite <- !pow2_add.
    replace (k + g + e)%Z with 0%Z by lia. reflexivity. }
  assert (Hscale : x / Num.pow2 e == x * Num.pow2 k * inject_Z (2 ^ g)).
  { apply Qmult_inj_r with (z := Num.pow2 e); [lra|].
    rewrite Qmult_comm, Qmult_div_r by lra.
    rewrite <- !Qmult_assoc, (Qmult_assoc (Num.pow2 k)), Hg. ring. }
  set (m := Num.nearestEven (x / Num.pow2 e)).
  assert (Hm : (a * 2 ^ g <= m <= b * 2 ^ g)%Z).
  { apply nearestEven_between; rewrite Hscale, inject_Z_mult; nra. }
  assert (Hm53 : (m <= 2 ^ (53 + g))%Z).
  { apply (nearestEven_between 0); rewrite Hscale.
    - change (inject_Z 0) with 0. repeat apply Qmult_le_0_compat; lra.
    - rewrite Z.pow_add_r, inject_Z_mult by lia.
      assert (x * Num.pow2 k <= inject_Z (2 ^ 53)); [|nra].
      rewrite <- pow2_Z by lia.
      replace 53%Z with (53 - k + k)%Z by lia. rewrite pow2_add.
      apply Qlt_le_weak in Hlt. nra. }
  assert (Hr : inject_Z m * Num.pow2 e * Num.pow2 k * inject_Z (2 ^ g) == inject_Z m).
  { rewrite <- (Qmult_1_r (inject_Z m)) at 2. rewrite <- Hg. ring. }
  assert (Hover : Qle_bool (Num.pow2 1024) (inject_Z m * Num.pow2 e) = false).
  { destruct (Qle_bool _ _) eqn:E; [|reflexivity]. exfalso.
    apply Qle_bool_iff in E.
    assert (H53 : inject_Z m * Num.pow2 e <= Num.pow2 53).
    { rewrite Zle_Qle in Hm53. rewrite <- pow2_Z in Hm53 by lia.
      replace (Num.pow2 53) with (Num.pow2 (53 + g + e + k)) by (f_equal; lia).
      rewrite (pow2_add (53 + g + e) k), (pow2_add (53 + g) e).
      assert (H1 : 1 <= Num.pow2 k) by (apply (pow2_le 0 k); lia).
      pose proof (pow2_pos (53 + g)) as Hp.
      apply Qle_trans with (Num.pow2 (53 + g) * Num.pow2 e).
      - apply Qmult_le_compat_r; [exact Hm53|lra].
      - assert (HP : 0 < Num.pow2 (53 + g) * Num.pow2 e)
          by (apply Qmult_lt_0_compat; lra).
        apply Qle_trans with (Num.pow2 (53 + g) * Num.pow2 e * 1);
          [rewrite Qmult_1_r; apply Qle_refl|].
        apply Qmult_le_l; assumption. }

    assert (Num.pow2 53 < Num.pow2 1024)
      by (apply Qpower_lt_compat_l; [lia|reflexivity]).
    lra. }
  rewrite Hover. eexists. split; [reflexivity|]. rewrite Qred_correct.
  destruct Hm as [Hm1 Hm2]. rewrite Zle_Qle in Hm1, Hm2.
  rewrite inject_Z_mult in Hm1, Hm2. rewrite <- Hr in Hm1, Hm2.
  split; nra.
Qed.

Lemma binary64_between x k a b :
  0 <= x -> (0 <= k <= 1074)%Z -> x < Num.pow2 (53 - k) ->
  inject_Z a <= x * Num.pow2 k -> x * Num.pow2 k <= inject_Z b ->
  exists r, Num.binary64 x = Num.Fin r
            /\ inject_Z a <= r * Num.pow2 k /\ r * Num.pow2 k <= inject_Z b.
Proof.
  intros Hx Hk Hlt Ha Hb. unfold Num.binary64.
  destruct (Qcompare_spec x 0) as [E|E|E].
  - exists 0. split; [reflexivity|]. rewrite E in Ha, Hb. split; lra.
  - lra.
  - now apply roundPositive_between.
Qed.


Lemma nearestEven_lower a y : inject_Z a <= y -> (a <= Num.nearestEven y)%Z.
Proof.
  intros Ha. unfold Num.nearestEven.
  assert (Hfa : (a <= Qfloor y)%Z)
    by (rewrite <- (Qfloor_Z a); now apply Qfloor_resp_le).
  destruct (_ ?= _); [destruct (Z.even _)| |]; lia.
Qed.

Lemma pow2_53 : Num.pow2 53 == 9007199254740992.
Proof. reflexivity. Qed.

(** From [2^53] on, a double is at least [2^53]. *)
Lemma binary64_large x :
  9007199254740992 <= x ->
  Num.binary64 x = Num.Infinity
  \/ exists r, Num.binary64 x = Num.Fin r /\ 9007199254740992 <= r.
Proof.
  intros Hx. rewrite <- pow2_53 in *.
  pose proof (pow2_pos 53) as H53.
  assert (Hpos : 0 < x) by lra.
  unfold Num.binary64. destruct (Qcompare_spec x 0) as [E|E|E]; try lra.
  unfold Num.roundPositive.
  set (e := Z.max (Num.ilog2 x - 52) (-1074)).
  set (m := Num.nearestEven (x / Num.pow2 e)).
  pose proof (pow2_pos e) as Hpe.
  assert (Hr : Num.pow2 53 <= inject_Z m * Num.pow2 e).
  { set (c := if (e <=? 0)%Z then (53 - e)%Z else 52%Z).
    assert (Hc : (0 <= c /\ 53 <= c + e)%Z) by (subst c; destruct (Z.leb_spec e 0); lia).
    assert (Hce : Num.pow2 (c + e) <= x).
    { subst c. destruct (Z.leb_spec e 0).
      - replace (53 - e + e)%Z with 53%Z by lia. exact Hx.
      - replace (52 + e)%Z with (Num.ilog2 x) by lia. now apply ilog2_lower. }
    assert (Hm : (2 ^ c <= m)%Z).
    { apply nearestEven_lower. rewrite <- pow2_Z by lia.
      apply Qle_shift_div_l; [exact Hpe|]. now rewrite <- pow2_add. }
    rewrite Zle_Qle in Hm. rewrite <- pow2_Z in Hm by lia.
    apply Qle_trans with (Num.pow2 (c + e)); [apply pow2_le; lia|].
    rewrite pow2_add. apply Qmult_le_compat_r; [exact Hm|lra]. }
  destruct (Qle_bool _ _); [now left|right].
  eexists. split; [reflexivity|]. now rewrite Qred_correct.
Qed.

(** A double is never [NaN]. *)
Lemma binary64_shape x :
  0 <= x ->
  Num.binary64 x = Num.Infinity \/ exists r, Num.binary64 x = Num.Fin r.
Proof.
  intros Hx. unfold Num.binary64. destruct (Qcompare_spec x 0) as [E|E|E].
  - right. now eexists.
  - lra.
  - unfold Num.roundPositive. destruct (Qle_bool _ _); [now left|right; now eexists].
Qed.

(** The integral part of a rational that lies in the unit interval
    above [q], away from its end. *)
Lemma floor_within r q j :
  (0 <= j)%Z -> inject_Z q <= r ->
  r * inject_Z (2 ^ j) <= inject_Z ((q + 1) * 2 ^ j - 1) ->
  Qfloor r = q.
Proof.
  intros Hj Hlo Hhi.
  assert (H1 : (q <= Qfloor r)%Z)
    by (rewrite <- (Qfloor_Z q); now apply Qfloor_resp_le).
  assert (H2 : (Qfloor r < q + 1)%Z).
  { rewrite Zlt_Qlt. apply Qle_lt_trans with r; [apply Qfloor_le|].
    pose proof (Zpow2_pos j Hj) as Hp.
    apply Qmult_lt_r with (z := inject_Z (2 ^ j)); [exact Hp|].
    eapply Qle_lt_trans; [exact Hhi|].
    rewrite <- inject_Z_mult, <- Zlt_Qlt. lia. }
  lia.
Qed.

(** The double nearest to a rational [x] between the integral part of
    a fraction [p / D] and the fraction: it has the same integral
    part, and it stays away from the next integer by a power of two
    that is not small. *)
Lemma round_fraction x p D :
  (0 <= p)%Z -> (1 <= D)%Z -> (4 * p + 4 <= 9007199254740992)%Z ->
  inject_Z (p / D) <= x -> x <= inject_Z p / inject_Z D ->
  exists r j, Num.binary64 x = Num.Fin r /\ (0 <= j)%Z
    /\ ((p / D + 1) * 2 ^ j <= 4 * p + 4)%Z
    /\ inject_Z (p / D) <= r
    /\ r * inject_Z (2 ^ j) <= inject_Z ((p / D + 1) * 2 ^ j - 1).
Proof.
  intros Hp HD Hbound Hlo Hhi.
  assert (Hq : (0 <= p / D /\ D * (p / D) <= p < D * (p / D + 1))%Z).
  { split; [apply Z.div_pos; lia|]. split; [apply Z.mul_div_le; lia|].
    pose proof (Z.mul_succ_div_gt p D ltac:(lia)). lia. }
  set (q := (p / D)%Z) in *.
  set (c := Z.min D (p + 1)).
  set (j := Z.log2_up c).
  assert (Hj : (0 <= j)%Z) by apply Z.log2_up_nonneg.
  assert (Hc : (c <= 2 ^ j /\ 2 ^ j <= 2 * c - 1)%Z).
  { destruct (Z.eq_dec c 1%Z) as [E|E].
    - unfold j. rewrite E. cbn. lia.
    - assert (Hc1 : (1 < c)%Z) by (unfold c; lia).
      pose proof (Z.log2_up_spec c Hc1) as [H1 H2]. fold j in H1, H2.
      assert (0 < j)%Z by (apply Z.log2_up_pos; exact Hc1).
      replace j with (Z.succ (Z.pred j)) at 2 by lia.
      rewrite Z.pow_succ_r by lia. lia. }
  assert (Hgap : (p * 2 ^ j <= D * ((q + 1) * 2 ^ j - 1))%Z).
  { destruct (Z.min_spec D (p + 1)) as [[Hlt Hmin]|[Hle Hmin]]; fold c in Hmin.
    - nia.
    - assert (q = 0%Z) by nia. subst q. nia. }
  assert (Hsize : ((q + 1) * 2 ^ j <= 4 * p + 4)%Z).
  { destruct (Z.min_spec D (p + 1)) as [[Hlt Hmin]|[Hle Hmin]]; fold c in Hmin.
    - nia.
    - assert (q = 0%Z) by nia. nia. }
  pose proof (Zpow2_pos j Hj) as Hpj.
  assert (HDpos : 0 < inject_Z D)
    by (change 0 with (inject_Z 0); rewrite <- Zlt_Qlt; lia).
  assert (Hupper : x * inject_Z (2 ^ j) <= inject_Z ((q + 1) * 2 ^ j - 1)).
  { apply Qmult_le_l with (z := inject_Z D); [exact HDpos|].
    assert (HgapQ : inject_Z p * inject_Z (2 ^ j)
                    <= inject_Z D * inject_Z ((q + 1) * 2 ^ j - 1))
      by (rewrite <- !inject_Z_mult, <- Zle_Qle; exact Hgap).
    assert (Hx : x * inject_Z D <= inject_Z p).
    { apply Qmult_le_r with (z := / inject_Z D);
        [now apply Qinv_lt_0_compat|].
      rewrite <- Qmult_assoc, Qmult_inv_r, Qmult_1_r by lra. exact Hhi. }
    apply Qle_trans with (inject_Z p * inject_Z (2 ^ j)); [|exact HgapQ].
    assert (E : inject_Z D * (x * inject_Z (2 ^ j))
                == x * inject_Z D * inject_Z (2 ^ j)) by ring.
    rewrite E. apply Qmult_le_compat_r; [exact Hx|lra]. }
  assert (Hx0 : 0 <= x).
  { apply Qle_trans with (inject_Z q); [|exact Hlo].
    change 0 with (inject_Z 0). rewrite <- Zle_Qle. lia. }
  assert (Hj53 : (j <= 53)%Z).
  { apply (Z.pow_le_mono_r_iff 2%Z); [lia|lia|].
    change (2 ^ 53)%Z with 9007199254740992%Z. nia. }
  destruct (binary64_between x j (q * 2 ^ j) ((q + 1) * 2 ^ j - 1))
    as (r & Hr & H1 & H2).
  - exact Hx0.
  - lia.
  - apply Qmult_lt_r with (z := Num.pow2 j); [apply pow2_pos|].
    rewrite <- pow2_add. replace (53 - j + j)%Z with 53%Z by lia.
    rewrite pow2_53, pow2_Z by lia.
    eapply Qle_lt_trans; [exact Hupper|].
    change 9007199254740992 with (inject_Z 9007199254740992).
    rewrite <- Zlt_Qlt. lia.
  - rewrite pow2_Z, inject_Z_mult by lia.
    apply Qmult_le_compat_r; [exact Hlo|lra].
  - rewrite pow2_Z by lia. exact Hupper.
  - exists r, j. rewrite pow2_Z in H1, H2 by lia.
    repeat split; try assumption.
    rewrite inject_Z_mult in H1.
    apply Qmult_le_r with (z := inject_Z (2 ^ j)); assumption.
Qed.


(** A rational below [2^53] between two integers: so is the double
    nearest to it. *)
Lemma binary64_integers x a b :
  0 <= x -> x < 9007199254740992 ->
  inject_Z a <= x -> x <= inject_Z b ->
  exists r, Num.binary64 x = Num.Fin r /\ inject_Z a <= r /\ r <= inject_Z b.
Proof.
  intros Hx Hlt Ha Hb.
  destruct (binary64_between x 0 a b) as (r & Hr & H1 & H2).
  - exact Hx.
  - lia.
  - change (53 - 0)%Z with 53%Z. now rewrite pow2_53.
  - change (Num.pow2 0) with 1. now rewrite Qmult_1_r.
  - change (Num.pow2 0) with 1. now rewrite Qmult_1_r.
  - change (Num.pow2 0) with 1 in H1, H2. rewrite Qmult_1_r in H1, H2.
    now exists r.
Qed.

End RoundingFacts.

(** ** Frame: the cell of a pixel *)

Module CellFacts.

Lemma inject_nonzero n : n <> 0 -> ~ (inject_Z n == 0)%Q.
Proof. intros H E. unfold Qeq in E. cbn in E. lia. Qed.

Lemma isZero_inject n : n <> 0 -> Num.isZero (inject_Z n) = false.
Proof.
  intros H. unfold Num.isZero. destruct (Qeq_bool _ 0) eqn:E; [|reflexivity].
  apply Qeq_bool_eq in E. now destruct (inject_nonzero n H).
Qed.

Lemma isZero_positive y : (0 < y)%Q -> Num.isZero y = false.
Proof.
  intros H. unfold Num.isZero. destruct (Qeq_bool _ 0) eqn:E; [|reflexivity].
  apply Qeq_bool_eq in E. lra.
Qed.

Lemma inject_pos n : 0 < n -> (0 < inject_Z n)%Q.
Proof. intros H. change 0%Q with (inject_Z 0). now rewrite <- Zlt_Qlt. Qed.

Lemma inject_nonneg n : 0 <= n -> (0 <= inject_Z n)%Q.
Proof. intros H. change 0%Q with (inject_Z 0). now rewrite <- Zle_Qle. Qed.

Lemma toIndex_integer q k :
  (q == inject_Z k)%Q -> 0 <= k < 4294967295 ->
  Num.toIndex (Num.Fin q) = Some (Z.to_nat k).
Proof.
  intros Hq Hk. unfold Num.toIndex.
  assert (Hf : Qfloor q = k) by (rewrite (Qfloor_comp _ _ Hq); apply Qfloor_Z).
  rewrite Hf.
  rewrite (Qeq_eq_bool _ _ Hq).
  rewrite (proj2 (Z.leb_le 0 k)) by lia.
  rewrite (proj2 (Z.ltb_lt k 4294967295)) by lia.
  reflexivity.
Qed.

(** *** Any two dimensions: the index names an element *)

(** Dividing by a block size, which is at least 1, keeps a bound. *)
Lemma div_bounded a Y N :
  (0 <= a)%Q -> (a <= inject_Z N)%Q -> N < 9007199254740992 ->
  (Y = Num.Infinity \/ exists y, Y = Num.Fin y /\ (1 <= y)%Q) ->
  exists r, Num.div (Num.Fin a) Y = Num.Fin r
            /\ (0 <= r)%Q /\ (r <= inject_Z N)%Q.
Proof.
  intros Ha HN Hlt [->|(y & -> & Hy)]; cbn [Num.div].
  - exists 0%Q. split; [reflexivity|]. split; lra.
  - rewrite isZero_positive by lra.
    assert (Hq : (0 <= a / y)%Q /\ (a / y <= a)%Q).
    { split; [apply Qle_shift_div_l; lra|].
      apply Qle_shift_div_r; [lra|]. nra. }
    destruct (RoundingFacts.binary64_integers (a / y) 0 N) as (r & Hr & H1 & H2).
    + tauto.
    + apply Qle_lt_trans with (inject_Z N); [lra|].
      change 9007199254740992%Q with (inject_Z 9007199254740992).
      now rewrite <- Zlt_Qlt.
    + change (inject_Z 0) with 0%Q. tauto.
    + lra.
    + exists r. change (inject_Z 0) with 0%Q in H1. auto.
Qed.

Lemma floor_bounded a Y N :
  (0 <= a)%Q -> (a <= inject_Z N)%Q -> N < 9007199254740992 ->
  (Y = Num.Infinity \/ exists y, Y = Num.Fin y /\ (1 <= y)%Q) ->
  exists A, Num.floor (Num.div (Num.Fin a) Y) = Num.Fin (inject_Z A)
            /\ 0 <= A <= N.
Proof.
  intros Ha HN Hlt HY.
  destruct (div_bounded a Y N Ha HN Hlt HY) as (r & -> & H1 & H2).
  exists (Qfloor r). split; [reflexivity|]. split.
  - change 0 with (Qfloor 0). now apply Qfloor_resp_le.
  - rewrite <- (Qfloor_Z N). now apply Qfloor_resp_le.
Qed.

(** [Math.max(s / t, 1)] is a number at least 1, or [Infinity]. *)
Lemma block_shape s t :
  0 <= s -> 0 < t ->
  Num.max1 (Num.div (Num.ofZ s) (Num.ofZ t)) = Num.Infinity
  \/ exists y, Num.max1 (Num.div (Num.ofZ s) (Num.ofZ t)) = Num.Fin y
               /\ (1 <= y)%Q.
Proof.
  intros Hs Ht. unfold Num.div, Num.ofZ. rewrite (isZero_inject t) by lia.
  pose proof (inject_pos t Ht). pose proof (inject_nonneg s Hs).
  destruct (RoundingFacts.binary64_shape (inject_Z s / inject_Z t)) as [->|(r & ->)].
  - apply Qle_shift_div_l; lra.
  - now left.
  - right. cbn [Num.max1]. destruct (Qle_bool r 1) eqn:E.
    + exists 1%Q. split; [reflexivity|lra].
    + exists r. split; [reflexivity|].
      apply Qlt_le_weak, Qnot_le_lt. intros H'. apply Qle_bool_iff in H'. congruence.
Qed.


(** *** Block sizes that are integers: the index in integers *)

(** [Math.max(s / t, 1)] when [s] is [k] times [t]. *)
Lemma block_whole k t :
  1 <= k -> 0 < t ->
  Num.approximates k (Num.max1 (Num.div (Num.ofZ (k * t)) (Num.ofZ t))).
Proof.
  intros Hk Ht. unfold Num.div, Num.ofZ. rewrite (isZero_inject t) by lia.
  pose proof (inject_pos t Ht) as Hpt.
  assert (Hx : (inject_Z (k * t) / inject_Z t == inject_Z k)%Q)
    by (rewrite inject_Z_mult; field; lra).
  destruct (Z.lt_ge_cases k 9007199254740992) as [Hlt|Hge].
  - destruct (RoundingFacts.binary64_integers (inject_Z (k * t) / inject_Z t) k k)
      as (r & -> & H1 & H2).
    + rewrite Hx. apply inject_nonneg. lia.
    + rewrite Hx. change 9007199254740992%Q with (inject_Z 9007199254740992).
      now rewrite <- Zlt_Qlt.
    + rewrite Hx. apply Qle_refl.
    + rewrite Hx. apply Qle_refl.
    + assert (Hr : (r == inject_Z k)%Q) by (now apply Qle_antisym).
      cbn [Num.max1]. destruct (Qle_bool r 1) eqn:E; cbn [Num.approximates];
        [|now left].
      left. apply Qle_bool_iff in E. rewrite Hr in E.
      change 1%Q with (inject_Z 1) in E. rewrite <- Zle_Qle in E.
      now replace k with 1 by lia.
  - assert (Hbig : (9007199254740992 <= inject_Z (k * t) / inject_Z t)%Q).
    { rewrite Hx. change 9007199254740992%Q with (inject_Z 9007199254740992).
      now rewrite <- Zle_Qle. }
    destruct (RoundingFacts.binary64_large _ Hbig) as [->|(r & -> & Hr)].
    + exact Hge.
    + cbn [Num.max1]. destruct (Qle_bool r 1) eqn:E.
      * apply Qle_bool_iff in E. lra.
      * right. now split.
Qed.

(** [Math.max(s / t, 1)] when [s] is not larger than [t]. *)
Lemma block_clamped s t :
  0 <= s <= t -> 0 < t ->
  Num.max1 (Num.div (Num.ofZ s) (Num.ofZ t)) = Num.Fin 1.
Proof.
  intros Hs Ht. unfold Num.div, Num.ofZ. rewrite (isZero_inject t) by lia.
  pose proof (inject_pos t Ht) as Hpt.
  pose proof (inject_nonneg s (proj1 Hs)) as Hps.
  assert (Hst : (inject_Z s <= inject_Z t)%Q) by (rewrite <- Zle_Qle; lia).
  assert (Hle : (inject_Z s / inject_Z t <= 1)%Q)
    by (apply Qle_shift_div_r; lra).
  destruct (RoundingFacts.binary64_integers (inject_Z s / inject_Z t) 0 1)
    as (r & -> & H1 & H2).
  - apply Qle_shift_div_l; lra.
  - apply Qle_lt_trans with 1%Q; [exact Hle|reflexivity].
  - change (inject_Z 0) with 0%Q. apply Qle_shift_div_l; lra.
  - exact Hle.
  - cbn [Num.max1]. now rewrite (proj2 (Qle_bool_iff r 1) H2).
Qed.

(** A block size that is an integer: the frame is not larger than the
    view port, or a multiple of it. *)
Lemma block_integral s t :
  0 <= s -> 0 < t -> s <= t \/ (t | s) ->
  exists k, 1 <= k
    /\ Num.approximates k (Num.max1 (Num.div (Num.ofZ s) (Num.ofZ t)))
    /\ if s <=? t then k = 1 else s = k * t.
Proof.
  intros Hs Ht Hst. destruct (Z.leb_spec s t) as [Hle|Hlt].
  - exists 1. split; [lia|]. rewrite block_clamped by lia.
    split; [|reflexivity]. left. reflexivity.
  - destruct Hst as [Hle|[k ->]]; [lia|].
    exists k. assert (1 <= k) by nia.
    split; [assumption|]. split; [|reflexivity]. now apply block_whole.
Qed.

(** The integral part of the quotient of a number near a fraction
    [p / D] and a block size that is an integer [k]. *)
Lemma floor_div_block x p D k Y :
  0 <= p -> 1 <= D -> 4 * p + 4 <= 9007199254740992 ->
  (inject_Z (p / D) <= x)%Q -> (x <= inject_Z p / inject_Z D)%Q ->
  1 <= k -> Num.approximates k Y ->
  Num.floor (Num.div (Num.Fin x) Y) = Num.Fin (inject_Z (p / D / k)).
Proof.
  intros Hp HD Hbound Hlo Hhi Hk HY.
  assert (Hq : 0 <= p / D <= p).
  { split; [apply Z.div_pos; lia|]. apply Z.div_le_upper_bound; nia. }
  assert (Hx0 : (0 <= x)%Q).
  { apply Qle_trans with (inject_Z (p / D)); [apply inject_nonneg; lia|exact Hlo]. }
  pose proof (inject_pos D ltac:(lia)) as HpD.
  pose proof (inject_nonneg p Hp) as Hpp.
  assert (Hxp : (x <= inject_Z p)%Q).
  { apply Qle_trans with (inject_Z p / inject_Z D)%Q; [exact Hhi|].
    apply Qle_shift_div_r; [exact HpD|].
    assert (1 <= inject_Z D)%Q
      by (change 1%Q with (inject_Z 1); rewrite <- Zle_Qle; lia).
    nra. }
  destruct Y as [y| |]; cbn [Num.approximates] in HY; [|cbn|contradiction].
  - destruct HY as [Hy|[Hbig Hy]].
    + pose proof (inject_pos k ltac:(lia)) as Hpk.
      assert (Hypos : (0 < y)%Q) by (rewrite Hy; exact Hpk).
      cbn [Num.div]. rewrite isZero_positive by exact Hypos.
      destruct (RoundingFacts.round_fraction (x / y) p (D * k))
        as (r & j & -> & Hj & _ & H1 & H2); try lia.
      * rewrite <- Z.div_div by lia.
        apply Qle_shift_div_l; [exact Hypos|]. rewrite Hy.
        apply Qle_trans with (inject_Z (p / D)); [|exact Hlo].
        rewrite <- inject_Z_mult, <- Zle_Qle.
        rewrite Z.mul_comm. apply Z.mul_div_le. lia.
      * apply Qle_shift_div_r; [exact Hypos|]. rewrite Hy, inject_Z_mult.
        assert (E : (inject_Z p / (inject_Z D * inject_Z k) * inject_Z k
                     == inject_Z p / inject_Z D)%Q) by (field; lra).
        now rewrite E.
      * cbn [Num.floor]. do 2 f_equal.
        rewrite Z.div_div by lia.
        now apply (RoundingFacts.floor_within r _ j).
    + assert (Hypos : (0 < y)%Q) by lra.
      cbn [Num.div]. rewrite isZero_positive by exact Hypos.
      destruct (RoundingFacts.round_fraction (x / y) p 9007199254740992)
        as (r & j & -> & Hj & _ & H1 & H2); try lia.
      * rewrite Z.div_small by lia. apply Qle_shift_div_l; [exact Hypos|].
        change (inject_Z 0) with 0%Q. lra.
      * apply Qle_shift_div_r; [exact Hypos|].
        change (inject_Z 9007199254740992) with 9007199254740992%Q.
        assert (E : (inject_Z p / 9007199254740992 * y
                     == inject_Z p * (y / 9007199254740992))%Q) by (field; lra).
        rewrite E.
        assert (1 <= y / 9007199254740992)%Q by (apply Qle_shift_div_l; lra).
        nra.
      * cbn [Num.floor]. do 2 f_equal.
        rewrite (Z.div_small (p / D) k) by lia.
        rewrite (Z.div_small p 9007199254740992) in H1, H2 by lia.
        now apply (RoundingFacts.floor_within r _ j).
  - rewrite (Z.div_small (p / D) k) by lia. reflexivity.
Qed.

(** [Math.floor(n / blockWidth)] *)
Lemma floor_column n k Y :
  0 <= n -> 4 * n + 4 <= 9007199254740992 ->
  1 <= k -> Num.approximates k Y ->
  Num.floor (Num.div (Num.ofZ n) Y) = Num.Fin (inject_Z (n / k)).
Proof.
  intros Hn Hbound Hk HY. unfold Num.ofZ.
  rewrite (floor_div_block (inject_Z n) n 1 k Y); try assumption; try lia.
  - now rewrite Z.div_1_r.
  - rewrite Z.div_1_r. apply Qle_refl.
  - assert (E : (inject_Z n / inject_Z 1 == inject_Z n)%Q)
      by (change (inject_Z 1) with 1%Q; field).
    rewrite E. apply Qle_refl.
Qed.


(** [Math.floor(n / width / blockHeight)] *)
Lemma floor_row n w m Y :
  0 <= n -> 16 * n + 16 <= 9007199254740992 ->
  1 <= w -> 1 <= m -> Num.approximates m Y ->
  Num.floor (Num.div (Num.div (Num.ofZ n) (Num.ofZ w)) Y)
  = Num.Fin (inject_Z (n / w / m)).
Proof.
  intros Hn Hbound Hw Hm HY. unfold Num.ofZ.
  cbn [Num.div]. rewrite (isZero_inject w) by lia.
  destruct (RoundingFacts.round_fraction (inject_Z n / inject_Z w) n w)
    as (r & j & -> & Hj & Hsize & H1 & H2); try lia.
  - rewrite Zdiv_Qdiv. apply Qfloor_le.
  - apply Qle_refl.
  - set (q := n / w) in *.
    assert (H2j : 0 < 2 ^ j) by (apply Z.pow_pos_nonneg; lia).
    assert (Hq : ((q + 1) * 2 ^ j - 1) / 2 ^ j = q).
    { symmetry. apply Z.div_unique with (r := 2 ^ j - 1); [lia|ring]. }
    assert (Hq0 : 0 <= q) by (apply Z.div_pos; lia).
    rewrite <- Hq at 1.
    apply floor_div_block; try assumption; try nia.
    + now rewrite Hq.
    + apply Qle_shift_div_l; [apply inject_pos; lia|exact H2].
Qed.

(** The sum of the column and the row times the width. *)
Lemma cellIndex_sum A B tw :
  0 <= A -> 0 <= B -> 0 < tw -> (B + 1) * tw <= 4294967295 ->
  Num.toIndex (Num.add (Num.rem (Num.Fin (inject_Z A)) (Num.ofZ tw))
                       (Num.mul (Num.Fin (inject_Z B)) (Num.ofZ tw)))
  = Some (Z.to_nat (A mod tw + B * tw)).
Proof.
  intros HA HB Htw Hbound. unfold Num.rem, Num.mul, Num.ofZ.
  rewrite (isZero_inject tw) by lia. rewrite !Qfloor_Z, Z.rem_mod_nonneg by lia.
  pose proof (Z.mod_pos_bound A tw Htw) as Hc.
  assert (Hrow : 0 <= B * tw) by nia.
  destruct (RoundingFacts.binary64_integers (inject_Z B * inject_Z tw)
              (B * tw) (B * tw)) as (r & -> & Hr1 & Hr2).
  - rewrite <- inject_Z_mult. now apply inject_nonneg.
  - rewrite <- inject_Z_mult.
    change 9007199254740992%Q with (inject_Z 9007199254740992).
    rewrite <- Zlt_Qlt. lia.
  - rewrite inject_Z_mult. apply Qle_refl.
  - rewrite inject_Z_mult. apply Qle_refl.
  - cbn [Num.add].
    assert (Hr : (r == inject_Z (B * tw))%Q) by (now apply Qle_antisym).
    assert (Hsum : (inject_Z (A mod tw) + r == inject_Z (A mod tw + B * tw))%Q)
      by (rewrite Hr, <- inject_Z_plus; reflexivity).
    destruct (RoundingFacts.binary64_integers (inject_Z (A mod tw) + r)
                (A mod tw + B * tw) (A mod tw + B * tw)) as (s & -> & Hs1 & Hs2).
    + rewrite Hsum. apply inject_nonneg. lia.
    + rewrite Hsum. change 9007199254740992%Q with (inject_Z 9007199254740992).
      rewrite <- Zlt_Qlt. lia.
    + rewrite Hsum. apply Qle_refl.
    + rewrite Hsum. apply Qle_refl.
    + apply toIndex_integer; [now apply Qle_antisym|lia].
Qed.

(** Whatever the two dimensions are, the index that [_countColors]
    computes for a pixel names an element of the array. *)
Lemma cellIndex_valid source target n :
  0 < Dimension.width source -> 0 <= Dimension.height source ->
  0 < Dimension.width target -> 0 < Dimension.height target ->
  0 <= n ->
  (n + 1) * Dimension.width target <= 4294967295 ->
  Num.toIndex (Frame.cellIndex source target n) <> None.
Proof.
  intros Hsw Hsh Htw Hth Hn Hbound. unfold Frame.cellIndex.
  generalize (block_shape (Dimension.height source) (Dimension.height target)
                Hsh Hth).
  generalize (block_shape (Dimension.width source) (Dimension.width target)
                ltac:(lia) Htw).
  generalize (Num.max1 (Num.div (Num.ofZ (Dimension.width source))
                                (Num.ofZ (Dimension.width target)))).
  generalize (Num.max1 (Num.div (Num.ofZ (Dimension.height source))
                                (Num.ofZ (Dimension.height target)))).
  intros blockHeight blockWidth HbW HbH. cbn zeta.
  assert (Hn32 : n < 4294967295) by nia.
  pose proof (inject_nonneg n Hn) as Hpn.
  destruct (floor_bounded (inject_Z n) blockWidth n) as (A & HA & HA1);
    [exact Hpn|apply Qle_refl|lia|exact HbW|].
  destruct (div_bounded (inject_Z n) (Num.ofZ (Dimension.width source)) n)
    as (r & Hr & Hr1 & Hr2); [exact Hpn|apply Qle_refl|lia| |].
  { right. eexists. split; [reflexivity|].
    change 1%Q with (inject_Z 1). rewrite <- Zle_Qle. lia. }
  destruct (floor_bounded r blockHeight n) as (B & HB & HB1);
    [exact Hr1|exact Hr2|lia|exact HbH|].
  unfold Num.ofZ at 1 3. rewrite HA, Hr, HB.
  rewrite cellIndex_sum; [discriminate|lia|lia|lia|nia].
Qed.

(** The index that [_countColors] computes, in integers, when both
    block sizes are integers. *)
Lemma cellIndex_names source target n :
  0 < Dimension.width source -> 0 <= Dimension.height source ->
  0 < Dimension.width target -> 0 < Dimension.height target ->
  Dimension.width source <= Dimension.width target
  \/ (Dimension.width target | Dimension.width source) ->
  Dimension.height source <= Dimension.height target
  \/ (Dimension.height target | Dimension.height source) ->
  0 <= n ->
  (n + 1) * Dimension.width target <= 4294967295 ->
  Num.toIndex (Frame.cellIndex source target n)
  = Some (Z.to_nat (Frame.cellOf source target n)).
Proof.
  intros Hsw Hsh Htw Hth Hw Hh Hn Hbound. unfold Frame.cellIndex, Frame.cellOf.
  destruct (block_integral _ _ (Z.lt_le_incl _ _ Hsw) Htw Hw) as (k & Hk & HbW & Hkw).
  destruct (block_integral _ _ Hsh Hth Hh) as (m & Hm & HbH & Hmh).
  cbn zeta.
  assert (Hn32 : n < 4294967295) by nia.
  rewrite (floor_column n k) by (assumption || lia).
  rewrite (floor_row n (Dimension.width source) m) by (assumption || lia).
  assert (Hrow : 0 <= n / Dimension.width source / m <= n).
  { split; [apply Z.div_pos; [apply Z.div_pos|]; lia|].
    apply Z.div_le_upper_bound; [lia|].
    assert (n / Dimension.width source <= n)
      by (apply Z.div_le_upper_bound; nia).
    nia. }
  rewrite cellIndex_sum; try lia; [|apply Z.div_pos; lia|nia].
  do 3 f_equal.
  - destruct (Dimension.width source <=? Dimension.width target).
    + subst k. now rewrite Z.div_1_r.
    + rewrite Hkw. now rewrite Z.div_mul_cancel_r by lia.
  - f_equal. destruct (Dimension.height source <=? Dimension.height target).
    + subst m. now rewrite Z.div_1_r.
    + rewrite Hmh, Z.div_div by lia.
      replace (Dimension.width source * (m * Dimension.height target))
        with (Dimension.width source * m * Dimension.height target) by ring.
      now rewrite Z.div_mul_cancel_r by nia.
Qed.

(** With a block size that is no integer the quotients are rounded
    and a pixel may be counted in another cell than exact division
    gives: for a 9x9 frame and a 7x7 view port the block size 9/7 is
    rounded up, 9 divided by it is below 7, and the pixel 9, the first
    of the second row, is counted in the cell 6 of the first row. *)
Lemma rounding_moves_pixels :
  Num.toIndex (Frame.cellIndex (Dimension.constructor 9 9)
                 (Dimension.constructor 7 7) 9) = Some 6%nat
  /\ Frame.cellOf (Dimension.constructor 9 9) (Dimension.constructor 7 7) 9 = 0.
Proof. split; vm_compute; reflexivity. Qed.

(** X22. The cell of a pixel, in integers. When the frame is, in
    width and in height, not larger than the viewport or a whole
    multiple of it, so that both block sizes are integers, the index
    that [_countColors] computes in double precision for the pixel
    number [n] names the array element [column + row * tw], where
    [column] is [n mod tw] when the frame is not wider than the
    viewport and [(n * tw div sw) mod tw] otherwise, and [row] is
    [n div sw] when the frame is not higher than the viewport and
    [n * th div (sw * sh)] otherwise. So when the frame is narrower
    than the viewport, the pixels of its rows follow each other around
    the width of the viewport instead of starting each row in column
    0. *)
Theorem cell_index_in_integers source target n :
  0 < Dimension.width source -> 0 <= Dimension.height source ->
  0 < Dimension.width target -> 0 < Dimension.height target ->
  Dimension.width source <= Dimension.width target
  \/ (Dimension.width target | Dimension.width source) ->
  Dimension.height source <= Dimension.height target
  \/ (Dimension.height target | Dimension.height source) ->
  0 <= n ->
  (n + 1) * Dimension.width target <= 4294967295 ->
  Num.toIndex (Frame.cellIndex source target n)
  = Some (Z.to_nat (Frame.cellOf source target n)).
Proof. apply cellIndex_names. Qed.

Lemma cellOf_whole_blocks source target k m x y :
  1 <= k -> 1 <= m ->
  0 < Dimension.width target -> 0 < Dimension.height target ->
  Dimension.width source = k * Dimension.width target ->
  Dimension.height source = m * Dimension.height target ->
  0 <= x < Dimension.width source -> 0 <= y ->
  Frame.cellOf source target (y * Dimension.width source + x)
  = x / k + y / m * Dimension.width target.
Proof.
  intros Hk Hm Htw Hth Hsw Hsh Hx Hy. unfold Frame.cellOf. cbn zeta.
  rewrite Hsw, Hsh in *.
  set (tw := Dimension.width target) in *. set (th := Dimension.height target) in *.
  assert (Hxk : 0 <= x / k < tw).
  { split; [apply Z.div_pos; lia|]. apply Z.div_lt_upper_bound; lia. }
  f_equal; [|f_equal].
  - destruct (Z.leb_spec (k * tw) tw) as [Hle|Hlt].
    + assert (k = 1) as -> by nia.
      rewrite Z.div_1_r, Z.mul_1_l, Z.add_comm, Z.mod_add by lia.
      apply Z.mod_small. lia.
    + rewrite Z.div_mul_cancel_r by lia.
      replace (y * (k * tw) + x) with (y * tw * k + x) by ring.
      rewrite Z.div_add_l by lia.
      replace (y * tw + x / k) with (x / k + y * tw) by ring.
      rewrite Z.mod_add by lia. apply Z.mod_small. lia.
  - assert (Hrow : (y * (k * tw) + x) / (k * tw) = y).
    { rewrite Z.div_add_l by lia. rewrite Z.div_small by lia. lia. }
    destruct (Z.leb_spec (m * th) th) as [Hle|Hlt].
    + assert (m = 1) as -> by nia. now rewrite Z.div_1_r.
    + replace (k * tw * (m * th)) with (k * tw * m * th) by ring.
      rewrite Z.div_mul_cancel_r by lia.
      rewrite <- Z.div_div by lia. now rewrite Hrow.
Qed.

(** The cell of the pixel in column [x] and row [y]. *)
Lemma whole_blocks_at source target k m x y :
  1 <= k -> 1 <= m ->
  0 < Dimension.width target -> 0 < Dimension.height target ->
  Dimension.width source = k * Dimension.width target ->
  Dimension.height source = m * Dimension.height target ->
  0 <= x < Dimension.width source -> 0 <= y ->
  (y * Dimension.width source + x + 1) * Dimension.width target <= 4294967295 ->
  Num.toIndex (Frame.cellIndex source target (y * Dimension.width source + x))
  = Some (Z.to_nat (x / k + y / m * Dimension.width target)).
Proof.
  intros Hk Hm Htw Hth Hsw Hsh Hx Hy Hbound.
  assert (Hw0 : 0 < Dimension.width source) by nia.
  assert (Hh0 : 0 <= Dimension.height source) by nia.
  assert (Hn0 : 0 <= y * Dimension.width source + x) by nia.
  rewrite (cellIndex_names source target _ Hw0 Hh0 Htw Hth
             (or_intror (ex_intro _ k Hsw)) (or_intror (ex_intro _ m Hsh))
             Hn0 Hbound).
  now rewrite (cellOf_whole_blocks source target k m x y).
Qed.

(** X23. Whole blocks. When the width of the frame is [k] times the
    width of the viewport and its height [m] times the height of the
    viewport, the pixel in column [x] and row [y] of the frame is
    counted in the cell in column [x div k] and row [y div m]: every
    cell collects a block of [k] by [m] pixels. *)
Theorem whole_blocks source target k m x y :
  1 <= k -> 1 <= m ->
  0 < Dimension.width target -> 0 < Dimension.height target ->
  Dimension.width source = k * Dimension.width target ->
  Dimension.height source = m * Dimension.height target ->
  0 <= x < Dimension.width source -> 0 <= y ->
  (y * Dimension.width source + x + 1) * Dimension.width target <= 4294967295 ->
  Num.toIndex (Frame.cellIndex source target (y * Dimension.width source + x))
  = Some (Z.to_nat (x / k + y / m * Dimension.width target)).
Proof. apply whole_blocks_at. Qed.

(** *** Every pixel is counted once *)

Lemma tally_cons entry colors :
  Frame.tally (entry :: colors) = snd entry + Frame.tally colors.
Proof. reflexivity. Qed.

Lemma tally_define k n colors :
  Frame.tally (Frame.define k n colors) = n + Frame.tally colors.
Proof.
  induction colors as [|[k' n'] rest IH]; cbn [Frame.define]; [reflexivity|].
  destruct (_ && _); [reflexivity|].
  rewrite !tally_cons, IH. cbn [snd]. lia.
Qed.

Lemma hasKey_define k n colors : Frame.hasKey k (Frame.define k n colors) = true.
Proof.
  induction colors as [|[k' n'] rest IH]; cbn [Frame.define Frame.hasKey].
  - now rewrite Z.eqb_refl.
  - destruct (_ && _); cbn [Frame.hasKey]; [now rewrite Z.eqb_refl|].
    rewrite IH. apply orb_true_r.
Qed.

Lemma tally_increment k colors :
  Frame.hasKey k colors = true ->
  Frame.tally (Frame.increment k colors) = Frame.tally colors + 1.
Proof.
  induction colors as [|[k' n'] rest IH]; cbn [Frame.hasKey Frame.increment];
    [discriminate|].
  destruct (k =? k'); cbn [orb]; rewrite !tally_cons; cbn [snd]; [lia|].
  intros H. rewrite (IH H). lia.
Qed.

Lemma tally_count color colors :
  Frame.tally (Frame.count color colors) = Frame.tally colors + 1.
Proof.
  unfold Frame.count. destruct (Frame.hasKey color colors) eqn:E.
  - now apply tally_increment.
  - rewrite tally_increment by apply hasKey_define. rewrite tally_define. lia.
Qed.

Lemma counted_cons cell cells :
  Frame.counted (cell :: cells)
  = match cell with Some colors => Frame.tally colors | None => 0 end
    + Frame.counted cells.
Proof. now destruct cell. Qed.

Lemma counted_app a b :
  Frame.counted (a ++ b) = Frame.counted a + Frame.counted b.
Proof.
  induction a as [|cell a IH]; [reflexivity|].
  cbn [app]. rewrite !counted_cons, IH. lia.
Qed.

Lemma counted_holes n : Frame.counted (repeat None n) = 0.
Proof. induction n as [|n IH]; [reflexivity|exact IH]. Qed.

Lemma counted_store cells i colors :
  Frame.counted (Frame.store cells i colors)
  = Frame.counted cells - Frame.tally (default [] (Frame.slot cells i))
    + Frame.tally colors.
Proof.
  unfold Frame.store. destruct (Nat.ltb_spec i (List.length cells)) as [Hlt|Hge].
  - revert i Hlt. induction cells as [|cell cells IH]; intros i Hlt;
      [cbn in Hlt; lia|].
    destruct i as [|i].
    + change (<[0%nat := Some colors]> (cell :: cells)) with (Some colors :: cells).
      rewrite !counted_cons.
      destruct cell as [known|]; unfold Frame.slot; cbn [nth_error from_option id];
        [|change (Frame.tally []) with 0]; lia.
    + cbn [List.length] in Hlt.
      change (<[S i := Some colors]> (cell :: cells))
        with (cell :: <[i := Some colors]> cells).
      change (Frame.slot (cell :: cells) (S i)) with (Frame.slot cells i).
      rewrite !counted_cons, (IH i) by lia. lia.
  - rewrite !counted_app, counted_holes.
    unfold Frame.slot. rewrite (proj2 (nth_error_None cells i)) by lia.
    rewrite counted_cons. cbn [from_option].
    change (Frame.tally []) with 0. change (Frame.counted []) with 0. lia.
Qed.

Section WithPalette.

Variable ansi256 : value -> value -> value -> Z.

Lemma fold_counted f target pixelIndexes : forall cells cache,
  (forall pixelIndex, In pixelIndex pixelIndexes ->
     Num.toIndex (Frame.cellIndex (Frame.dimension f) target (Z.of_nat pixelIndex))
     <> None) ->
  Frame.counted
    (fst (fold_left (fun st pixelIndex => Frame.countPixel ansi256 f target pixelIndex st)
                    pixelIndexes (cells, cache)))
  = Frame.counted cells + Z.of_nat (List.length pixelIndexes).
Proof.
  induction pixelIndexes as [|pixelIndex rest IH]; intros cells cache Hvalid.
  - cbn [fold_left fst List.length]. lia.
  - cbn [fold_left List.length].
    pose proof (Hvalid pixelIndex (or_introl eq_refl)) as Hp.
    unfold Frame.countPixel at 2. cbn [fst snd].
    destruct (Frame.getPixelColor ansi256 _ _ _ cache) as [color cache1].
    destruct (Num.toIndex _) as [index|]; [|now destruct Hp].
    rewrite IH by (intros p Hin; apply Hvalid; now right).
    rewrite counted_store, tally_count. lia.
Qed.

(** X24. Every pixel is counted once. For a frame of width at least
    1 painted for a viewport of width and height at least 1, the
    colour counts that [_countColors] returns add up to the number of
    pixels of the frame: no pixel is dropped and none is counted
    twice, whatever the two dimensions are. *)
Theorem every_pixel_counted_once f target cache :
  0 < Dimension.width (Frame.dimension f) ->
  0 <= Dimension.height (Frame.dimension f) ->
  0 < Dimension.width target -> 0 < Dimension.height target ->
  Z.of_nat (Frame.turns f) * Dimension.width target <= 4294967295 ->
  Frame.counted (fst (Frame.countColors ansi256 f target cache))
  = Z.of_nat (Frame.turns f).
Proof.
  intros Hsw Hsh Htw Hth Hbound. unfold Frame.countColors.
  rewrite fold_counted.
  - rewrite length_seq. reflexivity.
  - intros pixelIndex Hin. apply in_seq in Hin.
    apply cellIndex_valid; try lia. nia.
Qed.

End WithPalette.
End CellFacts.

(** The third pixel of a 2x2 frame painted for the 3x3 viewport is
    counted in the cell 5, the last of the second row of the viewport. *)
Lemma cell_index_in_integers_witness :
  Num.toIndex (Frame.cellIndex (Dimension.constructor 2 2) viewport3 2)
  = Some 5%nat.
Proof.
  apply (CellFacts.cell_index_in_integers (Dimension.constructor 2 2) viewport3 2);
    cbn; first [lia | left; lia].
Defined.

(** A 4x4 frame painted for a 2x2 viewport: the pixel in column 3 and
    row 2 is counted in the last cell. *)
Lemma whole_blocks_witness :
  Num.toIndex
    (Frame.cellIndex (Dimension.constructor 4 4) (Dimension.constructor 2 2) (2 * 4 + 3))
  = Some 3%nat.
Proof.
  apply (CellFacts.whole_blocks (Dimension.constructor 4 4) (Dimension.constructor 2 2)
           2 2 3 2); cbn; lia.
Defined.

(** The four pixels of the red 2x2 frame are counted for the 3x3
    viewport. *)
Lemma every_pixel_counted_once_witness :
  Frame.counted (fst (Frame.countColors sampleAnsi256 smallRedFrame viewport3 ∅)) = 4.
Proof.
  apply (CellFacts.every_pixel_counted_once sampleAnsi256 smallRedFrame viewport3 ∅);
    vm_compute; first [reflexivity|discriminate].
Defined.

(** ** Color: from a string and back *)

Module ColorStringFacts.

(** A split string is its first field, or its first field, a comma and
    the string the other fields are split from. *)
Lemma split_on_cases s : forall w ws,
  split_on "," s = w :: ws ->
  (ws = [] /\ s = w)
  \/ exists rest, ws = split_on "," rest /\ s = (w ++ String "," rest)%string.
Proof.
  induction s as [|c s IH]; intros w ws; cbn [split_on].
  - intros [= <- <-]. now left.
  - destruct (Ascii.eqb_spec c ",") as [->|Hc].
    + intros [= <- <-]. right. now exists s.
    + destruct (split_on "," s) as [|w' ws'] eqn:E.
      * intros [= <- <-]. destruct s; cbn in E; [discriminate|].
        destruct (Ascii.eqb a ","); [discriminate|].
        destruct (split_on "," s); discriminate.
      * intros [= <- <-].
        destruct (IH w' ws' eq_refl) as [[-> ->]|(rest & -> & ->)]; [now left|].
        right. now exists rest.
Qed.

Lemma split_on_nonempty s : split_on "," s <> [].
Proof.
  destruct s as [|c s]; cbn [split_on]; [discriminate|].
  destruct (Ascii.eqb c ","); [discriminate|].
  destruct (split_on "," s); discriminate.
Qed.

(** X25. From a string and back. For every string of exactly four
    fields separated by commas, [serialize(deserialize(s))] is [s]
    again. So the colour that [deserialize(serialize(c))] returns for
    a colour [c] of four numbers, whose components are strings and not
    the numbers of [c], still has the string of [c]: it is converted
    through the same entry of the colour cache. *)
Theorem serialize_deserialize :
  (forall s r g b a : string,
     split_on "," s = [r; g; b; a] ->
     Color.serialize (Color.deserialize (Some s)) = Some s)
  /\ (forall cr cg cb ca : Z,
        Color.serialize
          (Color.deserialize
             (Color.serialize
                (Some (Color.constructor (JNum cr) (JNum cg) (JNum cb) (JNum ca)))))
        = Color.serialize
            (Some (Color.constructor (JNum cr) (JNum cg) (JNum cb) (JNum ca)))).
Proof.
  assert (Hfour : forall s r g b a,
             split_on "," s = [r; g; b; a] ->
             Color.serialize (Color.deserialize (Some s)) = Some s).
  { clear. intros s r g b a H.
    unfold Color.deserialize, Color.serialize. rewrite H.
    cbn [Color.part nth_error Color.constructor Color.red Color.green Color.blue
         Color.alpha Color._red Color._green Color._blue Color._alpha to_string].
    f_equal.
    destruct (split_on_cases s _ _ H) as [[E _]|(s1 & H1 & ->)]; [discriminate E|].
    symmetry in H1.
    destruct (split_on_cases s1 _ _ H1) as [[E _]|(s2 & H2 & ->)]; [discriminate E|].
    symmetry in H2.
    destruct (split_on_cases s2 _ _ H2) as [[E _]|(s3 & H3 & ->)]; [discriminate E|].
    symmetry in H3.
    destruct (split_on_cases s3 _ _ H3) as [[_ ->]|(s4 & H4 & _)]; [reflexivity|].
    now destruct (split_on_nonempty s4). }
  split; [apply Hfour|]. intros cr cg cb ca.
  unfold Color.serialize at 2.
  cbn [Color.constructor Color.red Color.green Color.blue Color.alpha
       Color._red Color._green Color._blue Color._alpha to_string].
  apply (Hfour _ (dec cr) (dec cg) (dec cb) (dec ca)).
  change (dec cr ++ "," ++ dec cg ++ "," ++ dec cb ++ "," ++ dec ca)%string
    with (dec cr ++ String "," (dec cg ++ String "," (dec cb ++ String "," (dec ca))))%string.
  rewrite !ColorFacts.split_on_field, ColorFacts.split_on_plain
    by apply ColorCacheFacts.noComma_dec.
  reflexivity.
Qed.

End ColorStringFacts.

Lemma serialize_deserialize_witness :
  Color.serialize (Color.deserialize (Some "1,2,3,255"%string))
  = Some "1,2,3,255"%string.
Proof.
  apply (proj1 ColorStringFacts.serialize_deserialize
           "1,2,3,255" "1" "2" "3" "255")%string.
  reflexivity.
Defined.

(** ** BlessedDisplay: the frames of a playback are painted in layers *)

Module LayerFacts.
Section WithPalette.

Variable ansi256 : value -> value -> value -> Z.
Variable d : Dimension.t.

(** The string of a paint from its colours. *)
Lemma constructor_encoding address frame countedColors lastPaint :
  let paint := Paint.constructor address frame countedColors lastPaint in
  Paint.ascii paint = Paint.renderAll (Paint.encoding (Paint.colors paint)).
Proof.
  cbn zeta. rewrite PaintFacts.constructor_colors.
  unfold Paint.constructor, Paint.ascii. cbn [Paint._ascii].
  destruct (PaintFacts.iterate_tokens (option_map Paint._colors lastPaint)
              countedColors 0
              {| Paint.l_ascii := EmptyString; Paint.l_colors := [];
                 Paint.l_previousColor := JNull |}) as [_ Ha].
  cbn zeta in Ha. cbn [Paint.l_ascii Paint.l_previousColor Paint.nonempty negb] in Ha.
  rewrite Ha.
  change (String.append EmptyString ?x) with x.
  unfold Paint.encoding. rewrite PaintFacts.renderAll_app.
  destruct countedColors as [|colors rest]; [reflexivity|].
  rewrite PaintFacts.cellTokens_nonempty by (cbn; congruence).
  reflexivity.
Qed.

(** One call of [getPaint] in the course of a playback. *)
Lemma getPaint_layer a this previous h lastColors :
  Frame.coherent ansi256 (Frame.ansiCache h) ->
  Frame.frames h !! a = Some this ->
  Frame._paintCache this !! Dimension.toString d = None ->
  match previous with
  | None => lastColors = None
  | Some p => exists paint, Frame.holds h p (Dimension.toString d) paint
                            /\ lastColors = Some (Paint.colors paint)
  end ->
  exists paint h',
    Frame.getPaint ansi256 a d previous h = Some (paint, h')
    /\ Paint.colors paint
       = Paint.chosen lastColors 0 (fst (Frame.countColors ansi256 this d ∅))
    /\ Paint.ascii paint = Paint.renderAll (Paint.encoding (Paint.colors paint))
    /\ Frame.coherent ansi256 (Frame.ansiCache h')
    /\ Frame.holds h' a (Dimension.toString d) paint
    /\ forall a', a' <> a -> Frame.frames h' !! a' = Frame.frames h !! a'.
Proof.
  intros Hc Hf Hmiss Hprev.
  destruct (ColorCacheFacts.countColors_coherent ansi256 this d _ Hc) as [E C].
  unfold Frame.getPaint, Frame.getPaintBody. rewrite Hf, Hmiss.
  destruct (Frame.countColors ansi256 this d (Frame.ansiCache h))
    as [countedColors cache].
  cbn [fst snd] in E, C. subst countedColors.
  pose proof (lookup_lt_Some _ _ _ Hf) as Hlt.
  destruct previous as [p|].
  - destruct Hprev as (last & Hholds & ->).
    set (h0 := {| Frame.frames := Frame.frames h; Frame.ansiCache := cache;
                  Frame.nextPaint := Frame.nextPaint h |}).
    assert (Hhit : Frame.getPaintAlone ansi256 p d h0 = Some (last, h0))
      by (apply FrameCacheFacts.body_hit; exact Hholds).
    rewrite Hhit. subst h0. cbn [Frame.frames Frame.ansiCache Frame.nextPaint].
    rewrite Hf. eexists _, _. split; [reflexivity|].
    split; [apply PaintFacts.constructor_colors|].
    split; [apply constructor_encoding|]. repeat split.
    + exact C.
    + now apply FrameCacheFacts.holds_cached.
    + intros a' Hne. cbn. now rewrite list_lookup_insert_ne by congruence.
  - subst lastColors. cbn [Frame.frames Frame.ansiCache Frame.nextPaint].
    rewrite Hf. eexists _, _. split; [reflexivity|].
    split; [apply PaintFacts.constructor_colors|].
    split; [apply constructor_encoding|]. repeat split.
    + exact C.
    + now apply FrameCacheFacts.holds_cached.
    + intros a' Hne. cbn. now rewrite list_lookup_insert_ne by congruence.
Qed.

Lemma paintAll_layers addrs : forall objects previous h lastColors,
  Frame.coherent ansi256 (Frame.ansiCache h) ->
  Forall2 (fun a this =>
             Frame.frames h !! a = Some this
             /\ Frame._paintCache this !! Dimension.toString d = None)
          addrs objects ->
  List.NoDup addrs ->
  match previous with
  | None => lastColors = None
  | Some p => exists paint, Frame.holds h p (Dimension.toString d) paint
                            /\ lastColors = Some (Paint.colors paint)
  end ->
  let paints :=
    fst (BlessedDisplay.paintAll ansi256 d (Display.paints previous addrs) h) in
  map Paint.colors paints
  = Paint.layers lastColors
      (map (fun this => fst (Frame.countColors ansi256 this d ∅)) objects)
  /\ Forall (fun paint =>
               Paint.ascii paint
               = Paint.renderAll (Paint.encoding (Paint.colors paint))) paints.
Proof.
  induction addrs as [|a rest IH]; intros objects previous h lastColors Hc Hall Hnd Hprev;
    cbn zeta.
  - apply Forall2_nil_inv_l in Hall as ->. split; [reflexivity|constructor].
  - apply Forall2_cons_inv_l in Hall as (this & objs & [Hf Hmiss] & Hrest & ->).
    apply NoDup_cons_iff in Hnd as [Hnotin Hnd].
    destruct (getPaint_layer a this previous h lastColors Hc Hf Hmiss Hprev)
      as (paint & h' & Hcall & Hcolors & Hascii & Hc' & Hholds & Hothers).
    cbn [Display.paints BlessedDisplay.paintAll map Paint.layers].
    unfold BlessedDisplay.paint. cbn [fst snd]. rewrite Hcall.
    specialize (IH objs (Some a) h' (Some (Paint.colors paint)) Hc').
    destruct (BlessedDisplay.paintAll ansi256 d (Display.paints (Some a) rest) h')
      as [paints h''].
    cbn [fst map] in *.
    assert (Hrest' : Forall2 (fun a this =>
                        Frame.frames h' !! a = Some this
                        /\ Frame._paintCache this !! Dimension.toString d = None)
                       rest objs);
      [|destruct (IH Hrest' Hnd) as [IHc IHa];
        [exists paint; split; [exact Hholds|reflexivity]|];
        split; [rewrite Hcolors at 1; f_equal; rewrite <- Hcolors; exact IHc
               |constructor; [exact Hascii|exact IHa]]].
    clear IH Hcall Hholds Hcolors Hnd Hascii.
    induction Hrest as [|a' this' rest' objs' [Hf' Hm'] Hrest' IHr]; constructor.
    + split; [|exact Hm']. rewrite Hothers; [exact Hf'|].
      intros ->. apply Hnotin. now left.
    + apply IHr. intros Hin. apply Hnotin. now right.
Qed.

(** X26. The frames of a playback are painted in layers. In every
    state the program reaches from its start, when frames that are
    distinct objects, none painted for the dimension of the view port
    before, are shown one after the other, each with the frame shown
    before it as the current frame, every call of [paint] succeeds,
    and the colours of the content shown for a frame are those chosen
    from the colour counts of that frame alone with the colours of the
    content shown before it as the previous colours: a cell whose
    prominent colour is the transparency code keeps the colour that
    was shown there last, however many frames ago that was painted.
    The string shown is the encoding of these colours. *)
Theorem playback_paints_in_layers (actions : list Frame.action)
  (addrs : list nat) (objects : list Frame.t) :
  let h := Frame.performAll ansi256 actions Frame.emptyHeap in
  Forall2 (fun a this =>
             Frame.frames h !! a = Some this
             /\ Frame._paintCache this !! Dimension.toString d = None)
          addrs objects ->
  List.NoDup addrs ->
  let paints := fst (BlessedDisplay.paintAll ansi256 d (Display.paints None addrs) h) in
  List.length paints = List.length addrs
  /\ map Paint.colors paints
     = Paint.layers None
         (map (fun this => fst (Frame.countColors ansi256 this d ∅)) objects)
  /\ Forall (fun paint =>
               Paint.ascii paint
               = Paint.renderAll (Paint.encoding (Paint.colors paint))) paints.
Proof.
  cbn zeta. intros Hall Hnd.
  destruct (paintAll_layers addrs objects None
              (Frame.performAll ansi256 actions Frame.emptyHeap) None)
    as [Hlayers Hascii]; auto.
  { apply ColorCacheFacts.performAll_coherent, ColorCacheFacts.coherent_empty. }
  split; [|split; [exact Hlayers|exact Hascii]].
  apply (f_equal (@List.length _)) in Hlayers.
  rewrite List.length_map in Hlayers. rewrite Hlayers.
  rewrite (Forall2_length _ _ _ Hall).
  clear. generalize (@None (list value)).
  induction objects as [|this objs IH]; intros previousColors; [reflexivity|].
  cbn [map Paint.layers List.length]. now rewrite IH.
Qed.

(** *** Transparent frames *)

Lemma chosen_held previousColors (first cells : list (option Paint.hist)) :
  Frame.allClear cells ->
  Frame.shape cells = Frame.shape first ->
  Paint.chosen (Some (Paint.chosen previousColors 0 first)) 0 cells
  = Paint.chosen previousColors 0 first.
Proof.
  intros Hclear Hshape.
  assert (Hlen : List.length cells = List.length first).
  { apply (f_equal (@List.length _)) in Hshape.
    unfold Frame.shape in Hshape. now rewrite !List.length_map in Hshape. }
  apply (nth_ext _ _ JUndefined JUndefined).
  - now rewrite !PaintFacts.length_chosen.
  - intros i Hi. rewrite PaintFacts.length_chosen in Hi.
    fold (js_nth (Paint.chosen (Some (Paint.chosen previousColors 0 first)) 0 cells) i).
    rewrite FrameTransparencyFacts.chosen_borrowed by assumption.
    destruct (Frame.slot cells i) as [colors|] eqn:E; [reflexivity|].
    symmetry. apply FrameTransparencyFacts.chosen_hole; [lia|].
    pose proof (FrameTransparencyFacts.slot_shape first i) as Hs.
    rewrite <- Hshape, FrameTransparencyFacts.slot_shape, E in Hs.
    destruct (Frame.slot first i); [discriminate|reflexivity].
Qed.

Lemma layers_held previousColors (firstObject : Frame.t) objects :
  Forall (fun this =>
            Frame.allTransparent this = true
            /\ Frame.dimension this = Frame.dimension firstObject
            /\ Frame.turns this = Frame.turns firstObject) objects ->
  let picture :=
    Paint.chosen previousColors 0 (fst (Frame.countColors ansi256 firstObject d ∅)) in
  Paint.layers (Some picture)
    (map (fun this => fst (Frame.countColors ansi256 this d ∅)) objects)
  = repeat picture (List.length objects).
Proof.
  intros Hall. cbn zeta.
  induction Hall as [|this objs (Ht & Hd & Hn) _ IH]; [reflexivity|].
  cbn [map Paint.layers List.length repeat].
  rewrite chosen_held.
  - now rewrite IH.
  - now apply FrameTransparencyFacts.countColors_transparent.
  - now rewrite !FrameTransparencyFacts.shape_countColors, Hd, Hn.
Qed.

(** X28. Transparent frames hold the picture. In every state the
    program reaches from its start, when a frame and after it frames
    all of whose pixels are transparent, of the same dimension and the
    same number of pixels, all distinct objects not painted for the
    dimension of the view port before, are shown one after the other,
    every content shown has the colours and the string of the first:
    the picture stays as it is until a frame with a pixel that is not
    transparent arrives. *)
Theorem transparent_frames_hold_the_picture (actions : list Frame.action)
  (first : nat) (firstObject : Frame.t) (addrs : list nat) (objects : list Frame.t) :
  let h := Frame.performAll ansi256 actions Frame.emptyHeap in
  Forall2 (fun a this =>
             Frame.frames h !! a = Some this
             /\ Frame._paintCache this !! Dimension.toString d = None)
          (first :: addrs) (firstObject :: objects) ->
  List.NoDup (first :: addrs) ->
  Forall (fun this =>
            Frame.allTransparent this = true
            /\ Frame.dimension this = Frame.dimension firstObject
            /\ Frame.turns this = Frame.turns firstObject) objects ->
  let paints :=
    fst (BlessedDisplay.paintAll ansi256 d (Display.paints None (first :: addrs)) h) in
  let picture :=
    Paint.chosen None 0 (fst (Frame.countColors ansi256 firstObject d ∅)) in
  map Paint.colors paints = repeat picture (S (List.length addrs))
  /\ map Paint.ascii paints
     = repeat (Paint.renderAll (Paint.encoding picture)) (S (List.length addrs)).
Proof.
  cbn zeta. intros Hall Hnd Hclear.
  destruct (paintAll_layers (first :: addrs) (firstObject :: objects) None
              (Frame.performAll ansi256 actions Frame.emptyHeap) None)
    as [Hlayers Hascii]; auto.
  { apply ColorCacheFacts.performAll_coherent, ColorCacheFacts.coherent_empty. }
  cbn zeta in Hlayers, Hascii.
  assert (Hlen : List.length addrs = List.length objects).
  { apply Forall2_length in Hall. cbn in Hall. lia. }
  cbn [map Paint.layers] in Hlayers.
  rewrite (layers_held None firstObject objects Hclear), <- Hlen in Hlayers.
  split; [exact Hlayers|].
  rewrite (map_ext_in Paint.ascii
             (fun paint => Paint.renderAll (Paint.encoding (Paint.colors paint)))).
  - rewrite <- (List.map_map Paint.colors
                  (fun colors => Paint.renderAll (Paint.encoding colors))).
    rewrite Hlayers. cbn [repeat map]. now rewrite List.map_repeat.
  - intros paint Hin. rewrite List.Forall_forall in Hascii. now apply Hascii.
Qed.

End WithPalette.
End LayerFacts.

(** The red 2x2 frame and then the transparent 2x2 frame are shown on
    the 3x3 view port: the second content has the colours of the
    first. *)
Lemma playback_paints_in_layers_witness :
  let h := Frame.performAll sampleAnsi256
             [Frame.Construct Frame.Alpha 0 (repeatPixels 9 [255; 0; 0; 255]) 3 3;
              Frame.Construct Frame.Alpha 1 (repeatPixels 4 [0; 0; 0; 0]) 2 2;
              Frame.Construct Frame.Alpha 0 (repeatPixels 4 [255; 0; 0; 255]) 2 2]
             Frame.emptyHeap in
  map Paint.colors
      (fst (BlessedDisplay.paintAll sampleAnsi256 viewport3
              (Display.paints None [2%nat; 1%nat]) h))
  = Paint.layers None
      (map (fun this => fst (Frame.countColors sampleAnsi256 this viewport3 ∅))
           [smallRedFrame; clearFrame]).
Proof.
  cbn zeta.
  apply (LayerFacts.playback_paints_in_layers sampleAnsi256 viewport3
           [Frame.Construct Frame.Alpha 0 (repeatPixels 9 [255; 0; 0; 255]) 3 3;
            Frame.Construct Frame.Alpha 1 (repeatPixels 4 [0; 0; 0; 0]) 2 2;
            Frame.Construct Frame.Alpha 0 (repeatPixels 4 [255; 0; 0; 255]) 2 2]
           [2%nat; 1%nat] [smallRedFrame; clearFrame]).
  - constructor; [split; vm_compute; reflexivity|].
    constructor; [split; vm_compute; reflexivity|constructor].
  - constructor; [intros [H|[]]; discriminate H|].
    constructor; [intros []|constructor].
Defined.

(** ** Frame and Paint: a frame of one colour *)

Module UniformFacts.

(** *** Which cells receive a pixel *)

Lemma slot_below {A} (cells : list (option A)) i x :
  Frame.slot cells i = Some x -> (i < List.length cells)%nat.
Proof.
  unfold Frame.slot. intros H. apply nth_error_Some.
  destruct (nth_error cells i); [discriminate|discriminate H].
Qed.

Lemma slot_lookup {A} (cells : list (option A)) i cell :
  cells !! i = Some cell -> Frame.slot cells i = cell.
Proof.
  unfold Frame.slot. rewrite FrameTransparencyFacts.nth_error_lookup.
  intros ->. now destruct cell.
Qed.

Lemma covered_slots (g : nat -> option nat) pixelIndexes : forall covered i,
  Frame.slot
    (fold_left (fun covered pixelIndex =>
                  match g pixelIndex with
                  | Some index => Frame.store covered index tt
                  | None => covered
                  end) pixelIndexes covered) i = Some tt
  <-> Frame.slot covered i = Some tt
      \/ exists pixelIndex, In pixelIndex pixelIndexes /\ g pixelIndex = Some i.
Proof.
  induction pixelIndexes as [|p rest IH]; intros covered i; cbn [fold_left].
  - split; [now left|]. intros [H|(p & [] & _)]. exact H.
  - rewrite IH. destruct (g p) as [index|] eqn:E.
    + rewrite FrameTransparencyFacts.slot_store.
      destruct (Nat.eqb_spec i index) as [->|Hne]; split.
      * intros _. right. exists p. split; [now left|exact E].
      * intros _. now left.
      * intros [H|(q & Hq & Hg)]; [now left|].
        right. exists q. split; [now right|exact Hg].
      * intros [H|(q & [<-|Hq] & Hg)]; [now left| |].
        -- rewrite E in Hg. injection Hg as <-. now destruct Hne.
        -- right. now exists q.
    + split.
      * intros [H|(q & Hq & Hg)]; [now left|].
        right. exists q. split; [now right|exact Hg].
      * intros [H|(q & [<-|Hq] & Hg)]; [now left|congruence|].
        right. now exists q.
Qed.

Lemma covered_length (g : nat -> option nat) bound pixelIndexes : forall covered,
  (List.length covered <= bound)%nat ->
  (forall pixelIndex index, In pixelIndex pixelIndexes ->
     g pixelIndex = Some index -> (index < bound)%nat) ->
  (List.length
     (fold_left (fun covered pixelIndex =>
                   match g pixelIndex with
                   | Some index => Frame.store covered index tt
                   | None => covered
                   end) pixelIndexes covered) <= bound)%nat.
Proof.
  induction pixelIndexes as [|p rest IH]; intros covered Hlen Hg; [exact Hlen|].
  cbn [fold_left]. apply IH; [|intros q index Hq; apply Hg; now right].
  destruct (g p) as [index|] eqn:E; [|exact Hlen].
  rewrite FrameTransparencyFacts.length_store.
  pose proof (Hg p index (or_introl eq_refl) E). lia.
Qed.

(** A frame that is [k] times as wide and [m] times as high as the
    viewport gives every cell of the viewport a pixel, and no other. *)
Lemma coverage_whole source target k m :
  1 <= k -> 1 <= m ->
  0 < Dimension.width target -> 0 < Dimension.height target ->
  Dimension.width source = k * Dimension.width target ->
  Dimension.height source = m * Dimension.height target ->
  Dimension.area source * Dimension.width target <= 4294967295 ->
  Frame.coverage source target (Z.to_nat (Dimension.area source))
  = repeat (Some tt) (Z.to_nat (Dimension.area target)).
Proof.
  intros Hk Hm Htw Hth Hsw Hsh Hbound.
  set (sw := Dimension.width source) in *. set (sh := Dimension.height source) in *.
  set (tw := Dimension.width target) in *. set (th := Dimension.height target) in *.
  assert (Harea : Dimension.area source = sw * sh) by reflexivity.
  assert (Htarget : Dimension.area target = tw * th) by reflexivity.
  assert (Hsw0 : 0 < sw) by nia. assert (Hsh0 : 0 < sh) by nia.
  assert (Hindex : forall n, (n < Z.to_nat (sw * sh))%nat ->
             Num.toIndex (Frame.cellIndex source target (Z.of_nat n))
             = Some (Z.to_nat ((Z.of_nat n mod sw) / k
                               + (Z.of_nat n / sw) / m * tw))).
  { intros n Hn.
    pose proof (Z.mod_pos_bound (Z.of_nat n) sw Hsw0) as Hx.
    assert (Hy : 0 <= Z.of_nat n / sw) by (apply Z.div_pos; lia).
    assert (Hn' : Z.of_nat n = Z.of_nat n / sw * sw + Z.of_nat n mod sw)
      by (rewrite Z.mul_comm; apply Z.div_mod; lia).
    rewrite Hn' at 1.
    apply (CellFacts.whole_blocks_at source target k m); auto.
    fold sw. rewrite <- Hn'. fold tw. nia. }
  unfold Frame.coverage. rewrite Harea, Htarget.
  set (g := fun n : nat =>
              Num.toIndex (Frame.cellIndex source target (Z.of_nat n))).
  set (L := fold_left _ _ _).
  assert (Hslots : forall i, (i < Z.to_nat (tw * th))%nat -> Frame.slot L i = Some tt).
  { intros i Hi. apply (covered_slots g). right.
    set (cx := Z.of_nat i mod tw). set (cy := Z.of_nat i / tw).
    assert (Hcx : 0 <= cx < tw) by (apply Z.mod_pos_bound; lia).
    assert (Hcy : 0 <= cy < th).
    { split; [apply Z.div_pos; lia|]. apply Z.div_lt_upper_bound; lia. }
    assert (Hi' : Z.of_nat i = cy * tw + cx)
      by (unfold cx, cy; rewrite Z.mul_comm; apply Z.div_mod; lia).
    exists (Z.to_nat (cy * m * sw + cx * k)).
    assert (Hlt : 0 <= cy * m * sw + cx * k < sw * sh).
    { assert (cx * k <= (tw - 1) * k) by nia.
      assert (cy * m <= (th - 1) * m) by nia.
      assert (cy * m * sw <= (th - 1) * m * sw)
        by (apply Z.mul_le_mono_nonneg_r; lia).
      assert (sw <= m * sw) by nia.
      assert (0 <= cy * m * sw) by (repeat apply Z.mul_nonneg_nonneg; lia).
      assert (0 <= cx * k) by (apply Z.mul_nonneg_nonneg; lia).
      rewrite Hsh. rewrite Hsw in *. lia. }
    split; [apply in_seq; lia|].
    subst g. cbn beta. rewrite Hindex by lia. f_equal.
    rewrite Z2Nat.id by nia.
    replace (cy * m * sw + cx * k) with (cx * k + cy * m * sw) by ring.
    rewrite Z.mod_add by lia. rewrite Z.div_add by lia.
    rewrite (Z.mod_small (cx * k) sw) by nia.
    rewrite (Z.div_small (cx * k) sw) by nia.
    rewrite Z.div_mul by lia. rewrite Z.add_0_l, Z.div_mul by lia. lia. }
  assert (Hlen : (List.length L <= Z.to_nat (tw * th))%nat).
  { apply (covered_length g); [cbn; lia|].
    intros n index Hn Hg. apply in_seq in Hn. subst g. cbn beta in Hg.
    rewrite Hindex in Hg by lia. injection Hg as <-.
    pose proof (Z.mod_pos_bound (Z.of_nat n) sw Hsw0) as Hx.
    assert (0 <= Z.of_nat n mod sw / k < tw).
    { split; [apply Z.div_pos; lia|]. apply Z.div_lt_upper_bound; lia. }
    assert (0 <= Z.of_nat n / sw / m < th).
    { split; [apply Z.div_pos; [apply Z.div_pos|]; lia|].
      apply Z.div_lt_upper_bound; [lia|].
      apply Z.div_lt_upper_bound; [lia|]. nia. }
    nia. }
  assert (Hlen' : List.length L = Z.to_nat (tw * th)).
  { destruct (Z.to_nat (tw * th)) as [|n] eqn:E; [lia|].
    pose proof (slot_below L n tt (Hslots n ltac:(lia))). lia. }
  apply list_eq. intros i.
  destruct (Nat.lt_ge_cases i (Z.to_nat (tw * th))) as [Hi|Hi].
  - rewrite <- (FrameTransparencyFacts.nth_error_lookup (repeat _ _)).
    rewrite nth_error_repeat by exact Hi.
    specialize (Hslots i Hi). unfold Frame.slot in Hslots.
    rewrite FrameTransparencyFacts.nth_error_lookup in Hslots.
    destruct (L !! i) as [[[]|]|]; try discriminate. reflexivity.
  - rewrite !lookup_ge_None_2; [reflexivity|rewrite repeat_length; lia|lia].
Qed.

(** *** The paint of cells of one colour *)

Lemma prominent_single index v n :
  Paint.getProminentColor index (Some [(v, n)]) None = JNum v.
Proof. reflexivity. Qed.

Lemma chosen_single v cells : forall index,
  Forall (fun cell => exists n, cell = Some [(v, n)]) cells ->
  Paint.chosen None index cells = repeat (JNum v) (List.length cells).
Proof.
  induction cells as [|cell rest IH]; intros index Hall; [reflexivity|].
  apply Forall_cons in Hall as [(n & ->) Hrest].
  cbn [Paint.chosen List.length repeat]. rewrite prominent_single.
  f_equal. now apply IH.
Qed.

Lemma cellTokens_run v n :
  Paint.cellTokens false (JNum v) (repeat (JNum v) n) = repeat Paint.Glyph n.
Proof.
  induction n as [|n IH]; [reflexivity|].
  cbn [repeat Paint.cellTokens strict_eq]. rewrite Z.eqb_refl.
  cbn [app]. now rewrite IH.
Qed.

(** The paint of [n >= 1] cells that all hold a count of the one
    colour [v]: one run. *)
Lemma constructor_single address frame v cells :
  cells <> [] ->
  Forall (fun cell => exists n, cell = Some [(v, n)]) cells ->
  let paint := Paint.constructor address frame cells None in
  Paint.colors paint = repeat (JNum v) (List.length cells)
  /\ Paint.ascii paint
     = Paint.renderAll
         (Paint.Open (JNum v) :: repeat Paint.Glyph (List.length cells)
          ++ [Paint.Close]).
Proof.
  intros Hne Hall. cbn zeta. unfold Paint.constructor, Paint.colors, Paint.ascii.
  cbn [Paint._colors Paint._ascii option_map].
  destruct (PaintFacts.iterate_tokens None cells 0
              {| Paint.l_ascii := EmptyString; Paint.l_colors := [];
                 Paint.l_previousColor := JNull |}) as [Hc Ha].
  cbn zeta in Hc, Ha. cbn [Paint.l_ascii Paint.l_colors Paint.l_previousColor
                           Paint.nonempty negb app] in Hc, Ha.
  rewrite Hc, Ha, (chosen_single v cells 0 Hall).
  split; [reflexivity|].
  destruct cells as [|cell rest]; [now destruct Hne|].
  cbn [List.length repeat Paint.cellTokens strict_eq app].
  rewrite cellTokens_run.
  change (String.append EmptyString ?x) with x.
  rewrite !PaintFacts.renderAll_cons.
  change (Paint.nonempty (Paint.render (Paint.Open (JNum v)) ++ _)%string) with true.
  cbn iota.
  rewrite PaintFacts.renderAll_app, !PaintFacts.append_assoc.
  do 3 f_equal; cbn [Paint.renderAll fold_right Paint.render];
    now rewrite ?PaintFacts.append_empty.
Qed.

Section WithPalette.

Variable ansi256 : value -> value -> value -> Z.

(** *** Counting the pixels of a frame of one colour *)

Lemma count_single v colors :
  colors = [] \/ (exists n, 1 <= n /\ colors = [(v, n)]) ->
  exists n, 1 <= n /\ Frame.count v colors = [(v, n)].
Proof.
  intros [->|(n & Hn & ->)].
  - exists 1. split; [lia|]. unfold Frame.count.
    cbn [Frame.hasKey Frame.define Frame.increment]. now rewrite Z.eqb_refl.
  - exists (n + 1). split; [lia|]. unfold Frame.count.
    cbn [Frame.hasKey]. rewrite Z.eqb_refl. cbn [orb Frame.increment].
    now rewrite Z.eqb_refl.
Qed.

Lemma fold_single f target c pixelIndexes : forall cells cache,
  (forall pixelIndex, In pixelIndex pixelIndexes ->
     Frame.pixelColor (Frame._kind f) (Frame._pixels f)
       (pixelIndex * Z.to_nat (Frame.getPixelLength (Frame._kind f))) = c) ->
  Color.hasTransparency c = false ->
  Frame.coherent ansi256 cache ->
  (forall i colors, Frame.slot cells i = Some colors ->
     exists n, 1 <= n
               /\ colors = [(ansi256 (Color.red c) (Color.green c) (Color.blue c), n)]) ->
  forall i colors,
    Frame.slot
      (fst (fold_left
              (fun st pixelIndex => Frame.countPixel ansi256 f target pixelIndex st)
              pixelIndexes (cells, cache))) i = Some colors ->
    exists n, 1 <= n
              /\ colors = [(ansi256 (Color.red c) (Color.green c) (Color.blue c), n)].
Proof.
  induction pixelIndexes as [|pixelIndex rest IH];
    intros cells cache Hcolor Hopaque Hc Hcells; [exact Hcells|].
  cbn [fold_left].
  pose proof (Hcolor pixelIndex (or_introl eq_refl)) as Hp.
  destruct (ColorCacheFacts.countPixel_coherent ansi256 f target pixelIndex cells
              cache cache Hc Hc) as [_ Hc'].
  assert (Hv : fst (Frame.getPixelColor ansi256 (Frame._kind f) (Frame._pixels f)
                      (pixelIndex * Z.to_nat (Frame.getPixelLength (Frame._kind f)))
                      cache)
               = ansi256 (Color.red c) (Color.green c) (Color.blue c)).
  { destruct (ColorCacheFacts.toAnsi_coherent ansi256 (Frame._kind f) (Frame._pixels f)
                (pixelIndex * Z.to_nat (Frame.getPixelLength (Frame._kind f)))
                cache Hc) as [E _].
    cbn zeta in E. rewrite Hp in E. unfold Frame.getPixelColor.
    rewrite Hp. destruct (Frame._kind f); [rewrite Hopaque|]; exact E. }
  revert Hc'. unfold Frame.countPixel. cbn [fst snd].
  destruct (Frame.getPixelColor ansi256 _ _ _ cache) as [color cache1].
  cbn [fst] in Hv. subst color.
  destruct (Num.toIndex _) as [index|]; cbn [snd]; intros Hc'.
  - apply IH;
      [intros p Hp'; apply Hcolor; now right|exact Hopaque|exact Hc'|].
    intros i colors. rewrite FrameTransparencyFacts.slot_store.
    destruct (Nat.eqb i index); [|apply Hcells].
    intros [= <-]. apply count_single.
    destruct (@Frame.slot Paint.hist cells index) as [known|] eqn:Ek; cbn;
      [|now left].
    right. exact (Hcells _ _ Ek).
  - apply IH;
      [intros p Hp'; apply Hcolor; now right|exact Hopaque|exact Hc'|exact Hcells].
Qed.

(** The colour counts of a frame of one colour that covers the
    viewport in whole blocks. *)
Lemma countColors_single f target k m c cache :
  1 <= k -> 1 <= m ->
  0 < Dimension.width target -> 0 < Dimension.height target ->
  Dimension.width (Frame.dimension f) = k * Dimension.width target ->
  Dimension.height (Frame.dimension f) = m * Dimension.height target ->
  Dimension.area (Frame.dimension f) * Dimension.width target <= 4294967295 ->
  Frame.turns f = Z.to_nat (Dimension.area (Frame.dimension f)) ->
  (forall pixelIndex, (pixelIndex < Frame.turns f)%nat ->
     Frame.pixelColor (Frame._kind f) (Frame._pixels f)
       (pixelIndex * Z.to_nat (Frame.getPixelLength (Frame._kind f))) = c) ->
  Color.hasTransparency c = false ->
  Frame.coherent ansi256 cache ->
  let cells := fst (Frame.countColors ansi256 f target cache) in
  List.length cells = Z.to_nat (Dimension.area target)
  /\ Forall (fun cell =>
               exists n,
                 cell = Some [(ansi256 (Color.red c) (Color.green c) (Color.blue c), n)])
            cells.
Proof.
  intros Hk Hm Htw Hth Hsw Hsh Hbound Hturns Hcolor Hopaque Hc. cbn zeta.
  pose proof (FrameTransparencyFacts.shape_countColors ansi256 f target cache) as Hshape.
  rewrite Hturns, (coverage_whole _ target k m) in Hshape by assumption.
  assert (Hlen : List.length (fst (Frame.countColors ansi256 f target cache))
                 = Z.to_nat (Dimension.area target)).
  { apply (f_equal (@List.length _)) in Hshape.
    unfold Frame.shape in Hshape. now rewrite List.length_map, repeat_length in Hshape. }
  split; [exact Hlen|].
  apply Forall_lookup. intros i cell Hi.
  assert (Hlt : (i < Z.to_nat (Dimension.area target))%nat)
    by (rewrite <- Hlen; exact (lookup_lt_Some _ _ _ Hi)).
  assert (Hs : Frame.slot (Frame.shape (fst (Frame.countColors ansi256 f target cache))) i
               = Some tt).
  { rewrite Hshape. unfold Frame.slot. now rewrite nth_error_repeat by exact Hlt. }
  rewrite FrameTransparencyFacts.slot_shape in Hs.
  destruct (Frame.slot (fst (Frame.countColors ansi256 f target cache)) i)
    as [colors|] eqn:Es; [|discriminate Hs].
  destruct (fold_single f target c (seq 0 (Frame.turns f)) [] cache) with (i := i)
    (colors := colors) as (n & _ & ->); auto.
  - intros p Hp. apply Hcolor. apply in_seq in Hp. lia.
  - intros j colors'. unfold Frame.slot. now destruct j.
  - exists n. rewrite <- (slot_lookup _ _ _ Hi). exact Es.
Qed.

(** X27. A frame of one colour is painted as one run. In every state
    the program reaches from its start, when a frame that is [k]
    times as wide and [m] times as high as the viewport, with one
    group of components for each of its pixels, all of the same colour
    without transparency, is painted for the first time for that
    viewport, its paint has the code of the palette for that colour in
    every cell of the viewport, and its string is the escape that
    opens that colour, one glyph for every cell and the closing
    escape. *)
Theorem uniform_frame_paints_one_run (actions : list Frame.action)
  (self : nat) (this : Frame.t) (target : Dimension.t) (k m : Z) (c : Color.t) :
  let h := Frame.performAll ansi256 actions Frame.emptyHeap in
  let v := ansi256 (Color.red c) (Color.green c) (Color.blue c) in
  let cells := Z.to_nat (Dimension.area target) in
  Frame.frames h !! self = Some this ->
  Frame._paintCache this !! Dimension.toString target = None ->
  1 <= k -> 1 <= m ->
  0 < Dimension.width target -> 0 < Dimension.height target ->
  Dimension.width (Frame.dimension this) = k * Dimension.width target ->
  Dimension.height (Frame.dimension this) = m * Dimension.height target ->
  Dimension.area (Frame.dimension this) * Dimension.width target <= 4294967295 ->
  Frame.turns this = Z.to_nat (Dimension.area (Frame.dimension this)) ->
  (forall pixelIndex, (pixelIndex < Frame.turns this)%nat ->
     Frame.pixelColor (Frame._kind this) (Frame._pixels this)
       (pixelIndex * Z.to_nat (Frame.getPixelLength (Frame._kind this))) = c) ->
  Color.hasTransparency c = false ->
  exists paint h',
    Frame.getPaint ansi256 self target None h = Some (paint, h')
    /\ Paint.colors paint = repeat (JNum v) cells
    /\ Paint.ascii paint
       = Paint.renderAll
           (Paint.Open (JNum v) :: repeat Paint.Glyph cells ++ [Paint.Close]).
Proof.
  cbn zeta. intros Hf Hmiss Hk Hm Htw Hth Hsw Hsh Hbound Hturns Hcolor Hopaque.
  set (h := Frame.performAll ansi256 actions Frame.emptyHeap) in *.
  assert (Hc : Frame.coherent ansi256 (Frame.ansiCache h))
    by apply ColorCacheFacts.performAll_coherent, ColorCacheFacts.coherent_empty.
  destruct (FrameColorFacts.getPaint_fresh ansi256 self target h this Hf Hmiss)
    as (address & Hp & _).
  destruct (Frame.getPaint ansi256 self target None h) as [[paint h']|];
    [|discriminate Hp].
  injection Hp as ->. eexists _, h'. split; [reflexivity|].
  destruct (countColors_single this target k m c (Frame.ansiCache h))
    as [Hlen Hall]; auto.
  rewrite <- Hlen. apply constructor_single; [|exact Hall].
  intros E. rewrite E in Hlen. cbn in Hlen.
  unfold Dimension.area in Hlen. nia.
Qed.

End WithPalette.
End UniformFacts.

(** The red 2x2 frame painted for a viewport of one cell: one glyph in
    the colour 196. *)
Lemma uniform_frame_paints_one_run_witness :
  exists paint h',
    Frame.getPaint sampleAnsi256 2 (Dimension.constructor 1 1) None
      (Frame.performAll sampleAnsi256
         [Frame.Construct Frame.Alpha 0 (repeatPixels 9 [255; 0; 0; 255]) 3 3;
          Frame.Construct Frame.Alpha 1 (repeatPixels 4 [0; 0; 0; 0]) 2 2;
          Frame.Construct Frame.Alpha 0 (repeatPixels 4 [255; 0; 0; 255]) 2 2]
         Frame.emptyHeap)
    = Some (paint, h')
    /\ Paint.colors paint = [JNum 196]
    /\ Paint.ascii paint
       = Paint.renderAll [Paint.Open (JNum 196); Paint.Glyph; Paint.Close].
Proof.
  apply (UniformFacts.uniform_frame_paints_one_run sampleAnsi256
           [Frame.Construct Frame.Alpha 0 (repeatPixels 9 [255; 0; 0; 255]) 3 3;
            Frame.Construct Frame.Alpha 1 (repeatPixels 4 [0; 0; 0; 0]) 2 2;
            Frame.Construct Frame.Alpha 0 (repeatPixels 4 [255; 0; 0; 255]) 2 2]
           2%nat smallRedFrame (Dimension.constructor 1 1) 2 2
           (Color.constructor (JNum 255) (JNum 0) (JNum 0) (JNum 255)));
    try (vm_compute; reflexivity); try lia; try (vm_compute; discriminate).
  intros pixelIndex Hp. change (Frame.turns smallRedFrame) with 4%nat in Hp.
  do 4 (destruct pixelIndex as [|pixelIndex]; [vm_compute; reflexivity|]). lia.
Defined.

(** The red 2x2 frame and then the transparent 2x2 frame, shown on the
    3x3 view port: the same picture twice. *)
Lemma transparent_frames_hold_the_picture_witness :
  let h := Frame.performAll sampleAnsi256
             [Frame.Construct Frame.Alpha 0 (repeatPixels 4 [255; 0; 0; 255]) 2 2;
              Frame.Construct Frame.Alpha 1 (repeatPixels 4 [0; 0; 0; 0]) 2 2]
             Frame.emptyHeap in
  map Paint.colors
      (fst (BlessedDisplay.paintAll sampleAnsi256 viewport3
              (Display.paints None [0%nat; 1%nat]) h))
  = repeat (Paint.chosen None 0
              (fst (Frame.countColors sampleAnsi256 smallRedFrame viewport3 ∅)))
           2.
Proof.
  cbn zeta.
  apply (LayerFacts.transparent_frames_hold_the_picture sampleAnsi256 viewport3
           [Frame.Construct Frame.Alpha 0 (repeatPixels 4 [255; 0; 0; 255]) 2 2;
            Frame.Construct Frame.Alpha 1 (repeatPixels 4 [0; 0; 0; 0]) 2 2]
           0%nat smallRedFrame [1%nat] [clearFrame]).
  - constructor; [split; vm_compute; reflexivity|].
    constructor; [split; vm_compute; reflexivity|constructor].
  - constructor; [intros [H|[]]; discriminate H|].
    constructor; [intros []|constructor].
  - constructor; [|constructor]. repeat split; vm_compute; reflexivity.
Defined.

(** ** Controller: stopping twice *)

Module StopFacts.
Section WithFrame.

Context {Frame : Type}.
Variable statusText : Display.t Frame -> Store.t Frame -> option Frame -> string.

(** X29. Stopping twice. [stop] returns [true] and emits "stop"
    exactly when the player was not stopped. A second [stop] right
    after returns [false], emits nothing, and leaves the player, the
    frame sets and the display as the first left them, but for the
    status text of the display, which it computes again. *)
Theorem stop_twice (c : Controller.t Frame) :
  let c1 := snd (Controller.stop statusText c) in
  let c2 := snd (Controller.stop statusText c1) in
  fst (Controller.stop statusText c) = negb (Player.stopped (Controller.player c))
  /\ Controller.emitted c1
     = Controller.emitted c
       ++ (if Player.stopped (Controller.player c) then [] else [Controller.EvStop])
  /\ fst (Controller.stop statusText c1) = false
  /\ Controller.emitted c2 = Controller.emitted c1
  /\ Controller.player c2 = Controller.player c1
  /\ Controller.store c2 = Controller.store c1
  /\ Display.setStatus EmptyString (Controller.display c2)
     = Display.setStatus EmptyString (Controller.display c1).
Proof.
  cbn zeta. unfold Controller.stop.
  destruct (Player.stopped (Controller.player c)); cbn;
    unfold Display.setFrozen; cbn;
    destruct (Display._refreshId (Controller.display c)); cbn;
    rewrite ?app_nil_r; repeat split.
  all: unfold Display.unload, Display.setFrozen, Display.setStatus; cbn;
    destruct (Display._refreshId (Controller.display c)); reflexivity.
Qed.

End WithFrame.
End StopFacts.
